(** * The site verifier of [comprehensive-test.js]

    A shallow embedding of the smoke-test harness: [makeRequest],
    [checkContent], [runTest], [runAllTests] and the preflight at the end of
    the script, together with the parts of the JavaScript platform the
    harness calls ([RegExp], [JSON.parse], [hasOwnProperty],
    [String.prototype.includes], [Math.round]).

    Strings.  A JavaScript string is a sequence of 16-bit code units.  Bodies,
    tokens and patterns are modelled as [string]s whose characters are the
    code units 0..255; code units denoted by pattern or JSON escapes
    ([\uXXXX]) are numbers of type [N].  String literals of the source are
    kept verbatim. *)

From Stdlib Require Import String Ascii List Bool Arith NArith ZArith Lia.
From Stdlib Require Import SpecFloat DecimalString Permutation.
From Stdlib Require Import Reals Lra.
Import ListNotations.

Local Open Scope string_scope.
Local Open Scope list_scope.
Local Open Scope nat_scope.

(** ** Characters used by the source that a Rocq literal cannot hold *)

Definition DQ : string := String "034" EmptyString.
Definition LF : string := String "010" EmptyString.

(** ** JavaScript strings *)

Module JSString.

Definition code (c : ascii) : N := N_of_ascii c.

Definition chars (s : string) : list ascii := list_ascii_of_string s.

Definition units (s : string) : list N := map code (chars s).

Fixpoint startsWith (s prefix : list ascii) {struct prefix} : bool :=
  match prefix, s with
  | [], _ => true
  | p :: prefix', c :: s' => Ascii.eqb p c && startsWith s' prefix'
  | _ :: _, [] => false
  end.

(** [String.prototype.includes]: an exact, case-sensitive substring search. *)
Fixpoint includes_chars (s sub : list ascii) : bool :=
  startsWith s sub ||
  match s with
  | [] => false
  | _ :: s' => includes_chars s' sub
  end.

Definition includes (s sub : string) : bool :=
  includes_chars (chars s) (chars sub).

(** Template-literal conversion of a non-negative integer. *)
Definition ofNat (n : nat) : string := NilZero.string_of_uint (Nat.to_uint n).

End JSString.

(** ** Regular expressions

    [new RegExp(pattern, 'i')] followed by [test] or [String.prototype.match],
    as in ECMAScript 2017, section 21.2, with the web-compatibility grammar of
    Annex B.1.4 and without the [u] flag.  Group forms introduced by later
    editions ([(?<name>...)], [(?<=...)]) are rejected as they are there. *)

Module RegExp.

Import JSString.

(** *** Case folding

    [Canonicalize] of 21.2.2.8.2 with [IgnoreCase] set: the upper case of a
    code unit, unless that is not a single code unit or would map a
    non-ASCII code unit to an ASCII one.  The table is exact for the code
    units 0..255 and for the three code units above them whose canonical
    form meets that of an 8-bit code unit (U+0178, U+039C, U+03BC); every
    other code unit is left alone, which the matcher cannot observe because
    it only ever compares against code units of the 8-bit input. *)
Local Open Scope N_scope.

Definition Canonicalize (ch : N) : N :=
  if (97 <=? ch) && (ch <=? 122) then ch - 32
  else if ch =? 181 then 924
  else if ch =? 247 then ch
  else if (224 <=? ch) && (ch <=? 254) then ch - 32
  else if ch =? 255 then 376
  else if ch =? 956 then 924
  else ch.

(** The code units that can share a canonical form with an input code unit. *)
Definition universe : list N :=
  map N.of_nat (seq 0%nat 256%nat) ++ [376; 924; 956].

(** *** Syntax trees *)

Inductive ClassAtom : Type :=
| AChar (ch : N)
| ARange (lo hi : N)
| ADot
| ADigit (complement : bool)
| ASpace (complement : bool)
| AWord (complement : bool).

Definition CharSet := list ClassAtom.

Inductive Regex : Type :=
| Empty
| Char (A : CharSet) (invert : bool)
| Seq (r1 r2 : Regex)
| Alt (r1 r2 : Regex)
| Quant (r : Regex) (min : nat) (max : option nat) (greedy : bool)
| Group (n : nat) (r : Regex)
| Backref (n : nat)
| AssertStart
| AssertEnd
| WordBoundary (negated : bool)
| Lookahead (negated : bool) (r : Regex).

(** *** Character sets *)

Definition isLineTerminator (ch : N) : bool :=
  (ch =? 10) || (ch =? 13) || (ch =? 8232) || (ch =? 8233).

Definition isDigit (ch : N) : bool := (48 <=? ch) && (ch <=? 57).

Definition isWhiteSpace (ch : N) : bool :=
  (ch =? 9) || (ch =? 11) || (ch =? 12) || (ch =? 32) || (ch =? 160)
  || (ch =? 5760) || ((8192 <=? ch) && (ch <=? 8202))
  || (ch =? 8239) || (ch =? 8287) || (ch =? 12288) || (ch =? 65279)
  || isLineTerminator ch.

Definition isWordChar (ch : N) : bool :=
  ((97 <=? ch) && (ch <=? 122)) || ((65 <=? ch) && (ch <=? 90))
  || isDigit ch || (ch =? 95).

Definition atomHas (a : ClassAtom) (ch : N) : bool :=
  match a with
  | AChar c => ch =? c
  | ARange lo hi => (lo <=? ch) && (ch <=? hi)
  | ADot => negb (isLineTerminator ch)
  | ADigit compl => xorb (isDigit ch) compl
  | ASpace compl => xorb (isWhiteSpace ch) compl
  | AWord compl => xorb (isWordChar ch) compl
  end.

Definition setHas (A : CharSet) (ch : N) : bool :=
  existsb (fun a => atomHas a ch) A.

(** [CharacterSetMatcher], the test on one input character: is there a
    member of [A] with the canonical form of [c]? *)
Definition CharSetMatches (A : CharSet) (c : ascii) : bool :=
  existsb (fun a => setHas A a && (Canonicalize a =? Canonicalize (code c)))
          universe.

Local Close Scope N_scope.
Local Open Scope nat_scope.

(** *** The pattern parser

    [Pattern] of 21.2.1 as a recursive descent over the code units of the
    pattern.  A pattern that is not in the grammar raises a [SyntaxError];
    the reason is the text V8 puts in the message. *)

Inductive Parsed (A : Type) : Type :=
| Ok (a : A)
| SyntaxError (reason : string).
Arguments Ok {A} a.
Arguments SyntaxError {A} reason.

Definition bindParsed {A B} (p : Parsed A) (f : A -> Parsed B) : Parsed B :=
  match p with
  | Ok a => f a
  | SyntaxError e => SyntaxError e
  end.

Local Notation "x <- p ;; q" := (bindParsed p (fun x => q))
  (at level 61, p at next level, right associativity).
Local Notation "' pat <- p ;; q" := (bindParsed p (fun x => match x with pat => q end))
  (at level 61, pat pattern, p at next level, right associativity).

Definition lit (c : ascii) : Regex := Char [AChar (code c)] false.

Definition decimalValue (c : ascii) : option nat :=
  let n := nat_of_ascii c in
  if (48 <=? n) && (n <=? 57) then Some (n - 48) else None.

Definition octalValue (c : ascii) : option nat :=
  let n := nat_of_ascii c in
  if (48 <=? n) && (n <=? 55) then Some (n - 48) else None.

Definition hexValue (c : ascii) : option nat :=
  let n := nat_of_ascii c in
  if (48 <=? n) && (n <=? 57) then Some (n - 48)
  else if (65 <=? n) && (n <=? 70) then Some (n - 55)
  else if (97 <=? n) && (n <=? 102) then Some (n - 87)
  else None.

Definition isAsciiLetter (c : ascii) : bool :=
  let n := nat_of_ascii c in
  ((65 <=? n) && (n <=? 90)) || ((97 <=? n) && (n <=? 122)).

(** [DecimalDigits]: the longest run of digits, with its value. *)
Fixpoint decimalDigits (acc : nat) (inp : list ascii) : nat * list ascii :=
  match inp with
  | c :: rest =>
      match decimalValue c with
      | Some d => decimalDigits (10 * acc + d) rest
      | None => (acc, inp)
      end
  | [] => (acc, inp)
  end.

Definition startsWithDigit (inp : list ascii) : bool :=
  match inp with
  | c :: _ => match decimalValue c with Some _ => true | None => false end
  | [] => false
  end.

(** The text after an opening brace, when it completes a braced quantifier
    [{n}], [{n,}] or [{n,m}]. *)
Definition bracedQuantifier (inp : list ascii)
  : option (nat * option nat * list ascii) :=
  if startsWithDigit inp then
    let (n, rest) := decimalDigits 0 inp in
    match rest with
    | "}"%char :: rest' => Some (n, Some n, rest')
    | ","%char :: "}"%char :: rest' => Some (n, None, rest')
    | ","%char :: rest' =>
        if startsWithDigit rest' then
          let (m, rest'') := decimalDigits 0 rest' in
          match rest'' with
          | "}"%char :: rest3 => Some (n, Some m, rest3)
          | _ => None
          end
        else None
    | _ => None
    end
  else None.

Definition lazySuffix (inp : list ascii) : bool * list ascii :=
  match inp with
  | "?"%char :: rest => (false, rest)
  | _ => (true, inp)
  end.

(** [Quantifier], when one follows: the bounds, greediness and the rest. *)
Definition quantifier (inp : list ascii)
  : Parsed (option (nat * option nat * bool) * list ascii) :=
  let finish min max rest :=
    let (greedy, rest') := lazySuffix rest in
    Ok (Some (min, max, greedy), rest') in
  match inp with
  | "*"%char :: rest => finish 0 None rest
  | "+"%char :: rest => finish 1 None rest
  | "?"%char :: rest => finish 0 (Some 1) rest
  | "{"%char :: rest =>
      match bracedQuantifier rest with
      | Some (n, Some m, rest') =>
          if m <? n then SyntaxError "numbers out of order in {} quantifier"
          else finish n (Some m) rest'
      | Some (n, None, rest') => finish n None rest'
      | None => Ok (None, inp)
      end
  | _ => Ok (None, inp)
  end.

Definition quantified (r : Regex) (inp : list ascii)
  : Parsed (Regex * list ascii) :=
  ' (q, rest) <- quantifier inp ;;
  match q with
  | Some (min, max, greedy) => Ok (Quant r min max greedy, rest)
  | None => Ok (r, rest)
  end.

(** [LegacyOctalEscapeSequence] of B.1.2, the first digit already read. *)
Definition legacyOctal (d1 : nat) (inp : list ascii) : nat * list ascii :=
  match inp with
  | c2 :: rest2 =>
      match octalValue c2 with
      | Some d2 =>
          if d1 <=? 3 then
            match rest2 with
            | c3 :: rest3 =>
                match octalValue c3 with
                | Some d3 => (64 * d1 + 8 * d2 + d3, rest3)
                | None => (8 * d1 + d2, rest2)
                end
            | [] => (8 * d1 + d2, rest2)
            end
          else (8 * d1 + d2, rest2)
      | None => (d1, inp)
      end
  | [] => (d1, inp)
  end.

(** [CharacterEscape] shared by atoms and class atoms: the code unit denoted
    by the text after the backslash.  [letters] says which characters may
    follow [\c]. *)
Definition characterEscape (controlLetter : ascii -> bool)
           (c : ascii) (rest : list ascii) : N * list ascii :=
  match c with
  | "f"%char => (12%N, rest)
  | "n"%char => (10%N, rest)
  | "r"%char => (13%N, rest)
  | "t"%char => (9%N, rest)
  | "v"%char => (11%N, rest)
  | "c"%char =>
      match rest with
      | l :: rest' =>
          if controlLetter l then (N.of_nat (nat_of_ascii l mod 32), rest')
          else (92%N, c :: rest)
      | [] => (92%N, c :: rest)
      end
  | "x"%char =>
      match rest with
      | h1 :: h2 :: rest' =>
          match hexValue h1, hexValue h2 with
          | Some a, Some b => (N.of_nat (16 * a + b), rest')
          | _, _ => (code c, rest)
          end
      | _ => (code c, rest)
      end
  | "u"%char =>
      match rest with
      | h1 :: h2 :: h3 :: h4 :: rest' =>
          match hexValue h1, hexValue h2, hexValue h3, hexValue h4 with
          | Some a, Some b, Some d, Some e =>
              (N.of_nat (4096 * a + 256 * b + 16 * d + e), rest')
          | _, _, _, _ => (code c, rest)
          end
      | _ => (code c, rest)
      end
  | _ =>
      match octalValue c with
      | Some d1 => let (v, rest') := legacyOctal d1 rest in (N.of_nat v, rest')
      | None => (code c, rest)
      end
  end.

Definition classEscapeSet (c : ascii) : option ClassAtom :=
  match c with
  | "d"%char => Some (ADigit false)
  | "D"%char => Some (ADigit true)
  | "s"%char => Some (ASpace false)
  | "S"%char => Some (ASpace true)
  | "w"%char => Some (AWord false)
  | "W"%char => Some (AWord true)
  | _ => None
  end.

(** [AtomEscape], the backslash already read.  [ncap] is
    [NcapturingParens], the number of capturing groups of the whole
    pattern.  The flag of the result says whether a quantifier may follow
    ([\b] and [\B] are assertions). *)
Definition atomEscape (ncap : nat) (inp : list ascii)
  : Parsed (Regex * bool * list ascii) :=
  match inp with
  | [] => SyntaxError "\ at end of pattern"
  | "b"%char :: rest => Ok (WordBoundary false, false, rest)
  | "B"%char :: rest => Ok (WordBoundary true, false, rest)
  | c :: rest =>
      match classEscapeSet c with
      | Some a => Ok (Char [a] false, true, rest)
      | None =>
          match decimalValue c with
          | Some (S _) =>
              let (n, rest') := decimalDigits 0 inp in
              if n <=? ncap then Ok (Backref n, true, rest')
              else
                let (v, rest'') := characterEscape isAsciiLetter c rest in
                Ok (Char [AChar v] false, true, rest'')
          | _ =>
              let (v, rest') := characterEscape isAsciiLetter c rest in
              Ok (Char [AChar v] false, true, rest')
          end
      end
  end.

(** [ClassAtom]: one member of a character class. *)
Definition classControlLetter (c : ascii) : bool :=
  isAsciiLetter c
  || match decimalValue c with Some _ => true | None => false end
  || Ascii.eqb c "_".

Definition classAtom (inp : list ascii) : Parsed (ClassAtom * list ascii) :=
  match inp with
  | [] => SyntaxError "Unterminated character class"
  | "\"%char :: [] => SyntaxError "\ at end of pattern"
  | "\"%char :: "b"%char :: rest => Ok (AChar 8%N, rest)
  | "\"%char :: c :: rest =>
      match classEscapeSet c with
      | Some a => Ok (a, rest)
      | None =>
          let (v, rest') := characterEscape classControlLetter c rest in
          Ok (AChar v, rest')
      end
  | c :: rest => Ok (AChar (code c), rest)
  end.

(** [ClassRanges] up to the closing bracket. *)
Fixpoint classRanges (fuel : nat) (inp : list ascii)
  : Parsed (CharSet * list ascii) :=
  match fuel with
  | 0 => SyntaxError "Unterminated character class"
  | S fuel' =>
      match inp with
      | [] => SyntaxError "Unterminated character class"
      | "]"%char :: rest => Ok ([], rest)
      | _ =>
          ' (a, rest1) <- classAtom inp ;;
          match rest1 with
          | "-"%char :: c :: rest2 =>
              if Ascii.eqb c "]" then
                ' (A, rest') <- classRanges fuel' rest1 ;;
                Ok (a :: A, rest')
              else
                ' (b, rest3) <- classAtom (c :: rest2) ;;
                ' (A, rest') <- classRanges fuel' rest3 ;;
                match a, b with
                | AChar lo, AChar hi =>
                    if (hi <? lo)%N
                    then SyntaxError "Range out of order in character class"
                    else Ok (ARange lo hi :: A, rest')
                | _, _ => Ok (a :: AChar 45%N :: b :: A, rest')
                end
          | _ =>
              ' (A, rest') <- classRanges fuel' rest1 ;;
              Ok (a :: A, rest')
          end
      end
  end.

Definition characterClass (inp : list ascii) : Parsed (Regex * list ascii) :=
  match inp with
  | "^"%char :: rest =>
      ' (A, rest') <- classRanges (S (length rest)) rest ;;
      Ok (Char A true, rest')
  | _ =>
      ' (A, rest') <- classRanges (S (length inp)) inp ;;
      Ok (Char A false, rest')
  end.

(** What [disjunction] returns: the rest of the current [Alternative], the
    alternatives after it if a bar follows, the input left, and the number
    of capturing groups opened so far. *)
Definition Tail : Type := Regex * option Regex * list ascii * nat.

Definition alternatives (a : Regex) (more : option Regex) : Regex :=
  match more with
  | Some d => Alt a d
  | None => a
  end.

(** The inside of a group, up to and including its closing parenthesis. *)
Definition groupBody (rec : list ascii -> nat -> Parsed Tail)
           (inp : list ascii) (gi : nat)
  : Parsed (Regex * list ascii * nat) :=
  ' (a, more, rest, gi') <- rec inp gi ;;
  match rest with
  | ")"%char :: rest' => Ok (alternatives a more, rest', gi')
  | _ => SyntaxError "Unterminated group"
  end.

(** [Term]: an assertion, or an atom with the quantifier that follows it. *)
Definition term (rec : list ascii -> nat -> Parsed Tail) (ncap : nat)
           (c : ascii) (rest : list ascii) (gi : nat)
  : Parsed (Regex * list ascii * nat) :=
  let atom r rest' := ' (q, rest'') <- quantified r rest' ;; Ok (q, rest'', gi) in
  match c with
  | "^"%char => Ok (AssertStart, rest, gi)
  | "$"%char => Ok (AssertEnd, rest, gi)
  | "("%char =>
      match rest with
      | "?"%char :: "="%char :: rest' =>
          ' (r, rest'', gi') <- groupBody rec rest' gi ;;
          ' (q, rest3) <- quantified (Lookahead false r) rest'' ;;
          Ok (q, rest3, gi')
      | "?"%char :: "!"%char :: rest' =>
          ' (r, rest'', gi') <- groupBody rec rest' gi ;;
          ' (q, rest3) <- quantified (Lookahead true r) rest'' ;;
          Ok (q, rest3, gi')
      | "?"%char :: ":"%char :: rest' =>
          ' (r, rest'', gi') <- groupBody rec rest' gi ;;
          ' (q, rest3) <- quantified r rest'' ;;
          Ok (q, rest3, gi')
      | "?"%char :: _ => SyntaxError "Invalid group"
      | _ =>
          ' (r, rest'', gi') <- groupBody rec rest (S gi) ;;
          ' (q, rest3) <- quantified (Group (S gi) r) rest'' ;;
          Ok (q, rest3, gi')
      end
  | "["%char => ' (r, rest') <- characterClass rest ;; atom r rest'
  | "."%char => atom (Char [ADot] false) rest
  | "*"%char | "+"%char | "?"%char => SyntaxError "Nothing to repeat"
  | "{"%char =>
      match bracedQuantifier rest with
      | Some _ => SyntaxError "Nothing to repeat"
      | None => atom (lit c) rest
      end
  | "\"%char =>
      ' (r, quantifiable, rest') <- atomEscape ncap rest ;;
      if quantifiable : bool then atom r rest' else Ok (r, rest', gi)
  | _ => atom (lit c) rest
  end.

(** [Disjunction], read from the left: each call takes one term or one bar
    and hands the rest to the next. *)
Fixpoint disjunction (fuel : nat) (ncap : nat) (inp : list ascii) (gi : nat)
  : Parsed Tail :=
  match fuel with
  | 0 => SyntaxError "Pattern too long"
  | S fuel' =>
      match inp with
      | [] => Ok (Empty, None, inp, gi)
      | ")"%char :: _ => Ok (Empty, None, inp, gi)
      | "|"%char :: rest =>
          ' (a, more, rest', gi') <- disjunction fuel' ncap rest gi ;;
          Ok (Empty, Some (alternatives a more), rest', gi')
      | c :: rest =>
          ' (t, rest', gi') <- term (disjunction fuel' ncap) ncap c rest gi ;;
          ' (a, more, rest'', gi'') <- disjunction fuel' ncap rest' gi' ;;
          Ok (Seq t a, more, rest'', gi'')
      end
  end.

(** [NcapturingParens]: the left parentheses that open a capturing group,
    found by a scan that skips escapes and character classes. *)
Fixpoint countCaptures (inClass : bool) (inp : list ascii) : nat :=
  match inp with
  | [] => 0
  | "\"%char :: rest =>
      match rest with
      | [] => 0
      | _ :: rest' => countCaptures inClass rest'
      end
  | "["%char :: rest => countCaptures true rest
  | "]"%char :: rest => countCaptures false rest
  | "("%char :: rest =>
      if inClass then countCaptures inClass rest
      else match rest with
           | "?"%char :: _ => countCaptures inClass rest
           | _ => S (countCaptures inClass rest)
           end
  | _ :: rest => countCaptures inClass rest
  end.

(** [new RegExp(pattern, 'i')]. *)
Definition compile (pattern : string) : Parsed Regex :=
  let inp := chars pattern in
  ' (a, more, rest, _) <-
      disjunction (S (length inp)) (countCaptures false inp) inp 0 ;;
  match rest with
  | [] => Ok (alternatives a more)
  | _ :: _ => SyntaxError "Unmatched ')'"
  end.

(** *** The matcher

    The backtracking matcher of 21.2.2, written as a function from a state
    to the list of states in which the match can end, in the order in which
    the continuation-passing matcher of the standard tries them.  The first
    element is the match the standard returns. *)

Record MatchState : Type := mkState {
  endIndex : nat;                         (* characters consumed so far *)
  previous : option ascii;                (* Input[endIndex - 1] *)
  remaining : list ascii;                 (* Input from endIndex on *)
  captures : list (nat * list ascii)      (* the groups that are defined *)
}.

Fixpoint getCapture (caps : list (nat * list ascii)) (n : nat)
  : option (list ascii) :=
  match caps with
  | [] => None
  | (k, s) :: caps' => if Nat.eqb k n then Some s else getCapture caps' n
  end.

Definition clearCaptures (ns : list nat) (caps : list (nat * list ascii)) :=
  filter (fun kv => negb (existsb (Nat.eqb (fst kv)) ns)) caps.

Definition setCapture (n : nat) (s : list ascii)
           (caps : list (nat * list ascii)) :=
  (n, s) :: clearCaptures [n] caps.

Definition withCaptures (x : MatchState) caps : MatchState :=
  mkState (endIndex x) (previous x) (remaining x) caps.

(** One step forward over the input. *)
Definition advance (x : MatchState) : option (ascii * MatchState) :=
  match remaining x with
  | [] => None
  | c :: rest => Some (c, mkState (S (endIndex x)) (Some c) rest (captures x))
  end.

Fixpoint advanceBy (n : nat) (x : MatchState) : option MatchState :=
  match n with
  | 0 => Some x
  | S n' => match advance x with
            | Some (_, y) => advanceBy n' y
            | None => None
            end
  end.

(** The capturing groups inside a term: [RepeatMatcher] clears them at the
    start of every iteration. *)
Fixpoint groupsOf (r : Regex) : list nat :=
  match r with
  | Seq a b | Alt a b => groupsOf a ++ groupsOf b
  | Quant a _ _ _ | Lookahead _ a => groupsOf a
  | Group n a => n :: groupsOf a
  | _ => []
  end.

Definition decr (max : option nat) : option nat := option_map pred max.

(** [RepeatMatcher] of 21.2.2.5.1.  [m] matches the quantified atom once.
    An iteration that consumes nothing once [min] is satisfied is dropped
    (step 2.a of the continuation [d]); so every recursive call has either a
    smaller [min] or less input left, and [fuel] counts exactly that. *)
Fixpoint RepeatMatcher (m : MatchState -> list MatchState)
         (parens : list nat) (fuel : nat)
         (min : nat) (max : option nat) (greedy : bool)
         (x : MatchState) : list MatchState :=
  match fuel with
  | 0 => []
  | S fuel' =>
      match max with
      | Some 0 => [x]
      | _ =>
          let d y :=
            if Nat.eqb min 0 && Nat.eqb (endIndex y) (endIndex x) then []
            else RepeatMatcher m parens fuel' (pred min) (decr max) greedy y in
          let xr := withCaptures x (clearCaptures parens (captures x)) in
          let iterate := flat_map d (m xr) in
          if negb (Nat.eqb min 0) then iterate
          else if greedy then iterate ++ [x]
          else x :: iterate
      end
  end.

Definition ciEqual (a b : ascii) : bool :=
  N.eqb (Canonicalize (code a)) (Canonicalize (code b)).

Fixpoint ciPrefix (s input : list ascii) : bool :=
  match s, input with
  | [], _ => true
  | a :: s', b :: input' => ciEqual a b && ciPrefix s' input'
  | _ :: _, [] => false
  end.

Definition isWordCharAt (c : option ascii) : bool :=
  match c with
  | Some a => isWordChar (code a)
  | None => false
  end.

Fixpoint run (r : Regex) (x : MatchState) : list MatchState :=
  match r with
  | Empty => [x]
  | Char A invert =>
      match advance x with
      | Some (c, y) => if xorb (CharSetMatches A c) invert then [y] else []
      | None => []
      end
  | Seq a b => flat_map (run b) (run a x)
  | Alt a b => run a x ++ run b x
  | Quant a min max greedy =>
      RepeatMatcher (run a) (groupsOf a)
                    (min + length (remaining x) + 1) min max greedy x
  | Group n a =>
      map (fun y =>
             withCaptures y
               (setCapture n (firstn (endIndex y - endIndex x) (remaining x))
                           (captures y)))
          (run a x)
  | Backref n =>
      match getCapture (captures x) n with
      | None => [x]
      | Some s =>
          if ciPrefix s (remaining x)
          then match advanceBy (length s) x with
               | Some y => [y]
               | None => []
               end
          else []
      end
  | AssertStart => if Nat.eqb (endIndex x) 0 then [x] else []
  | AssertEnd => match remaining x with [] => [x] | _ :: _ => [] end
  | WordBoundary negated =>
      let a := isWordCharAt (previous x) in
      let b := isWordCharAt (hd_error (remaining x)) in
      if xorb (xorb a b) negated then [x] else []
  | Lookahead negated a =>
      match run a x with
      | [] => if negated then [x] else []
      | y :: _ => if negated then [] else [withCaptures x (captures y)]
      end
  end.

(** [RegExpBuiltinExec] for a regular expression that is neither global nor
    sticky: the match is tried at index 0, 1, ... up to the length of the
    input, and the first index at which it succeeds wins. *)
Fixpoint search (r : Regex) (index : nat) (prev : option ascii)
         (input : list ascii) : option (nat * MatchState) :=
  match run r (mkState index prev input []) with
  | y :: _ => Some (index, y)
  | [] =>
      match input with
      | [] => None
      | c :: input' => search r (S index) (Some c) input'
      end
  end.

(** The array [exec] returns: element 0 is the matched text, element [n] the
    text of group [n], [None] where the array holds [undefined]. *)
Record MatchResult : Type := mkResult {
  index : nat;
  matched : string;
  group : nat -> option string
}.

Definition exec (r : Regex) (s : string) : option MatchResult :=
  match search r 0 None (chars s) with
  | None => None
  | Some (i, y) =>
      Some (mkResult i
              (string_of_list_ascii
                 (firstn (endIndex y - i) (skipn i (chars s))))
              (fun n => option_map string_of_list_ascii
                                   (getCapture (captures y) n)))
  end.

(** [RegExp.prototype.test]. *)
Definition test (r : Regex) (s : string) : bool :=
  match exec r s with
  | Some _ => true
  | None => false
  end.

End RegExp.

(** ** Completion records: a call returns or throws *)

Record Error : Type := mkError { kind : string; message : string }.

Inductive Completion (A : Type) : Type :=
| Normal (a : A)
| Throw (e : Error).
Arguments Normal {A} a.
Arguments Throw {A} e.

(** ** JSON *)

Module JSON.

Import JSString.

#[warnings="-register-all"]
Inductive Value : Type :=
| VNull
| VBool (b : bool)
| VNumber (literal : list ascii)
| VString (s : list N)
| VArray (elements : list Value)
| VObject (members : list (list N * Value)).

(** [JSONWhiteSpace]: tab, line feed, carriage return, space. *)
Definition isWhiteSpace (c : ascii) : bool :=
  let n := nat_of_ascii c in
  (n =? 9) || (n =? 10) || (n =? 13) || (n =? 32).

Fixpoint skipWhiteSpace (inp : list ascii) : list ascii :=
  match inp with
  | c :: rest => if isWhiteSpace c then skipWhiteSpace rest else inp
  | [] => []
  end.

Definition isDigit (c : ascii) : bool :=
  let n := nat_of_ascii c in (48 <=? n) && (n <=? 57).

Fixpoint digits (inp : list ascii) : list ascii * list ascii :=
  match inp with
  | c :: rest =>
      if isDigit c then let (ds, rest') := digits rest in (c :: ds, rest')
      else ([], inp)
  | [] => ([], [])
  end.

(** [JSONNumber]: an optional minus sign, an integer part without a
    superfluous leading zero, an optional fraction and an optional
    exponent.  The literal is kept as text. *)
Definition number (inp : list ascii) : option (list ascii * list ascii) :=
  let (sign, inp1) :=
    match inp with
    | "-"%char :: rest => (["-"%char], rest)
    | _ => ([], inp)
    end in
  match inp1 with
  | d :: rest1 =>
      if isDigit d then
        let (int, inp2) :=
          if Ascii.eqb d "0" then ([d], rest1)
          else let (ds, r) := digits rest1 in (d :: ds, r) in
        let fraction :=
          match inp2 with
          | "."%char :: rest2 =>
              match digits rest2 with
              | ([], _) => None
              | (ds, r) => Some ("."%char :: ds, r)
              end
          | _ => Some ([], inp2)
          end in
        match fraction with
        | None => None
        | Some (frac, inp3) =>
            let exponent :=
              match inp3 with
              | e :: rest3 =>
                  if Ascii.eqb e "e" || Ascii.eqb e "E" then
                    let (esign, rest4) :=
                      match rest3 with
                      | s :: r =>
                          if Ascii.eqb s "+" || Ascii.eqb s "-"
                          then ([s], r) else ([], rest3)
                      | [] => ([], rest3)
                      end in
                    match digits rest4 with
                    | ([], _) => None
                    | (ds, r) => Some (e :: esign ++ ds, r)
                    end
                  else Some ([], inp3)
              | [] => Some ([], inp3)
              end in
            match exponent with
            | None => None
            | Some (ex, inp4) => Some (sign ++ int ++ frac ++ ex, inp4)
            end
        end
      else None
  | [] => None
  end.

Definition hexValue (c : ascii) : option nat := RegExp.hexValue c.

(** [JSONString], the opening quote already read. *)
Fixpoint stringCharacters (inp : list ascii) : option (list N * list ascii) :=
  match inp with
  | [] => None
  | "034"%char :: rest => Some ([], rest)
  | "\"%char :: rest =>
      let continue (u : N) (rest' : list ascii) (k : list ascii -> option (list N * list ascii)) :=
        match k rest' with
        | Some (s, r) => Some (u :: s, r)
        | None => None
        end in
      match rest with
      | "034"%char :: r => continue 34%N r stringCharacters
      | "\"%char :: r => continue 92%N r stringCharacters
      | "/"%char :: r => continue 47%N r stringCharacters
      | "b"%char :: r => continue 8%N r stringCharacters
      | "f"%char :: r => continue 12%N r stringCharacters
      | "n"%char :: r => continue 10%N r stringCharacters
      | "r"%char :: r => continue 13%N r stringCharacters
      | "t"%char :: r => continue 9%N r stringCharacters
      | "u"%char :: h1 :: h2 :: h3 :: h4 :: r =>
          match hexValue h1, hexValue h2, hexValue h3, hexValue h4 with
          | Some a, Some b, Some c, Some d =>
              continue (N.of_nat (4096 * a + 256 * b + 16 * c + d)) r
                       stringCharacters
          | _, _, _, _ => None
          end
      | _ => None
      end
  | c :: rest =>
      if nat_of_ascii c <? 32 then None
      else match stringCharacters rest with
           | Some (s, r) => Some (code c :: s, r)
           | None => None
           end
  end.

Definition literal (word : string) (inp : list ascii) : option (list ascii) :=
  if startsWith inp (chars word)
  then Some (skipn (String.length word) inp) else None.

(** The elements of an array after the first, up to the closing bracket. *)
Fixpoint elements (fuel : nat)
         (value : list ascii -> option (Value * list ascii))
         (inp : list ascii) : option (list Value * list ascii) :=
  match fuel with
  | 0 => None
  | S fuel' =>
      match skipWhiteSpace inp with
      | "]"%char :: rest => Some ([], rest)
      | ","%char :: rest =>
          match value rest with
          | Some (v, rest') =>
              match elements fuel' value rest' with
              | Some (vs, rest'') => Some (v :: vs, rest'')
              | None => None
              end
          | None => None
          end
      | _ => None
      end
  end.

(** One [JSONMember]: a string, a colon and a value. *)
Definition member (value : list ascii -> option (Value * list ascii))
           (inp : list ascii) : option ((list N * Value) * list ascii) :=
  match skipWhiteSpace inp with
  | "034"%char :: rest =>
      match stringCharacters rest with
      | Some (key, rest1) =>
          match skipWhiteSpace rest1 with
          | ":"%char :: rest2 =>
              match value rest2 with
              | Some (v, rest3) => Some ((key, v), rest3)
              | None => None
              end
          | _ => None
          end
      | None => None
      end
  | _ => None
  end.

(** The members of an object after the first, up to the closing brace. *)
Fixpoint members (fuel : nat)
         (value : list ascii -> option (Value * list ascii))
         (inp : list ascii) : option (list (list N * Value) * list ascii) :=
  match fuel with
  | 0 => None
  | S fuel' =>
      match skipWhiteSpace inp with
      | "}"%char :: rest => Some ([], rest)
      | ","%char :: rest =>
          match member value rest with
          | Some (m, rest') =>
              match members fuel' value rest' with
              | Some (ms, rest'') => Some (m :: ms, rest'')
              | None => None
              end
          | None => None
          end
      | _ => None
      end
  end.

(** [JSONValue], with the white space before it.  Every call consumes a
    character before it recurses, so the length of the text is fuel enough. *)
Fixpoint value (fuel : nat) (inp : list ascii) : option (Value * list ascii) :=
  match fuel with
  | 0 => None
  | S fuel' =>
      match skipWhiteSpace inp with
      | ("n"%char :: _) as w =>
          option_map (fun rest => (VNull, rest)) (literal "null" w)
      | ("t"%char :: _) as w =>
          option_map (fun rest => (VBool true, rest)) (literal "true" w)
      | ("f"%char :: _) as w =>
          option_map (fun rest => (VBool false, rest)) (literal "false" w)
      | "034"%char :: rest =>
          match stringCharacters rest with
          | Some (s, rest') => Some (VString s, rest')
          | None => None
          end
      | "["%char :: rest =>
          match skipWhiteSpace rest with
          | "]"%char :: rest' => Some (VArray [], rest')
          | rest' =>
              match value fuel' rest' with
              | Some (v, rest'') =>
                  match elements fuel' (value fuel') rest'' with
                  | Some (vs, rest3) => Some (VArray (v :: vs), rest3)
                  | None => None
                  end
              | None => None
              end
          end
      | "{"%char :: rest =>
          match skipWhiteSpace rest with
          | "}"%char :: rest' => Some (VObject [], rest')
          | rest' =>
              match member (value fuel') rest' with
              | Some (m, rest'') =>
                  match members fuel' (value fuel') rest'' with
                  | Some (ms, rest3) => Some (VObject (m :: ms), rest3)
                  | None => None
                  end
              | None => None
              end
          end
      | w =>
          match number w with
          | Some (n, rest) => Some (VNumber n, rest)
          | None => None
          end
      end
  end.

(** [JSON.parse(text)]: [None] stands for the [SyntaxError] it throws. *)
Definition parse (text : string) : option Value :=
  let inp := chars text in
  match value (S (length inp)) inp with
  | Some (v, rest) =>
      match skipWhiteSpace rest with
      | [] => Some v
      | _ :: _ => None
      end
  | None => None
  end.

(** *** Own properties of a parsed value *)

Fixpoint hasKey (key : list N) (ms : list (list N * Value)) : bool :=
  match ms with
  | [] => false
  | (k, _) :: ms' =>
      (if list_eq_dec N.eq_dec k key then true else false) || hasKey key ms'
  end.

(** The keys an array or a string of length [len] owns: ["length"] and the
    canonical decimal indices below [len]. *)
Definition isIndexOrLength (key : string) (len : nat) : bool :=
  String.eqb key "length"
  || existsb (fun i => String.eqb key (JSString.ofNat i)) (seq 0 len).

(** [json.hasOwnProperty(key)] for a value that [JSON.parse] returned.  The
    method is looked up on the value itself first: [null] has no
    properties, and an object with a member named [hasOwnProperty] yields
    that member, which is never a function. *)
Definition hasOwnProperty (json : Value) (key : string) : Completion bool :=
  match json with
  | VNull =>
      Throw (mkError "TypeError"
        "Cannot read properties of null (reading 'hasOwnProperty')")
  | VBool _ | VNumber _ => Normal false
  | VString s => Normal (isIndexOrLength key (length s))
  | VArray l => Normal (isIndexOrLength key (length l))
  | VObject ms =>
      if hasKey (units "hasOwnProperty") ms
      then Throw (mkError "TypeError" "json.hasOwnProperty is not a function")
      else Normal (hasKey (units key) ms)
  end.

End JSON.

(** ** Numbers

    A Number is an IEEE 754 binary64 value, here the [spec_float] of the
    standard library with its correctly rounded operations. *)

Module Number.

Definition prec : Z := 53.
Definition emax : Z := 1024.

Definition ofNat (n : nat) : spec_float :=
  binary_normalize prec emax (Z.of_nat n) 0 false.

Definition div (x y : spec_float) : spec_float := SFdiv prec emax x y.
Definition mul (x y : spec_float) : spec_float := SFmul prec emax x y.

(** The Number values [Math.round] ranges over. *)
Inductive Integral : Type :=
| Int (z : Z)
| NegativeZero
| NaN
| Infinity (negative : bool).

(** [ToString] on those, as a template literal applies it.  The decimal
    expansion is what JavaScript prints below 10^21; the harness only
    prints percentages. *)
Definition toString (x : Integral) : string :=
  match x with
  | Int z =>
      if (z <? 0)%Z then ("-" ++ JSString.ofNat (Z.to_nat (- z)))%string
      else JSString.ofNat (Z.to_nat z)
  | NegativeZero => "0"
  | NaN => "NaN"
  | Infinity false => "Infinity"
  | Infinity true => "-Infinity"
  end.

End Number.

Module Math.

Import Number.

(** [Math.round(x)]: the integer closest to [x], the one towards
    +Infinity when two are equally close; computed exactly, as
    [floor (x + 1/2)] over the rationals. *)
Definition round (x : spec_float) : Integral :=
  match x with
  | S754_nan => NaN
  | S754_infinity s => Infinity s
  | S754_zero s => if s then NegativeZero else Int 0
  | S754_finite s m e =>
      let v := if s then Z.neg m else Z.pos m in
      let q :=
        if (0 <=? e)%Z then (v * 2 ^ e)%Z
        else ((2 * v + 2 ^ (- e)) / 2 ^ (- e + 1))%Z in
      if (q =? 0)%Z && s then NegativeZero else Int q
  end.

End Math.

(** ** The harness *)

Local Open Scope string_scope.

(** *** Test cases (lines 8-52) *)

Inductive CheckType : Type := title | content | element | json.

Record Check : Type := mkCheck { type : CheckType; value : string }.

Record TestCase : Type := mkTest {
  name : string;
  url : string;
  checks : list Check
}.

(** [check.type] as the string the source compares and prints. *)
Definition typeName (t : CheckType) : string :=
  match t with
  | title => "title"
  | content => "content"
  | element => "element"
  | json => "json"
  end.

Definition tests : list TestCase :=
  [ mkTest "Homepage Complete Test" "http://localhost:3000/"
      [ mkCheck title "Future Agent - Cannabis Industry Knowledge";
        mkCheck content "16,337";
        mkCheck content "1,456";
        mkCheck content "Cannabis Industry Knowledge Agent";
        mkCheck element "h1";
        mkCheck element "stats-grid";
        mkCheck element "features";
        mkCheck element "cta-section" ];
    mkTest "F8 Comparison Complete Test" "http://localhost:3000/f8-comparison.html"
      [ mkCheck title "F8 vs Future4200 Comparison";
        mkCheck content "Compare F8 LangChain responses";
        mkCheck element "h1";
        mkCheck element "stats-grid";
        mkCheck element "filters";
        mkCheck element "comparisonResults";
        mkCheck element "search-box" ];
    mkTest "Data Loading Test" "http://localhost:3000/data/f8_responses_demo.json"
      [ mkCheck json "total_questions";
        mkCheck json "results" ];
    mkTest "Statistics Data Test" "http://localhost:3000/data/f8_processing_stats.json"
      [ mkCheck json "total_questions";
        mkCheck json "successful" ] ]%list.

(** *** The process and its surroundings

    What the script does to the outside is kept in a [World]: the urls
    [makeRequest] was called with, in order, and the lines written by
    [console.log].  What the outside does to the script is [network]: how the
    k-th request of the run ends.  Every request is taken to end; a
    connection that stays busy for ever is outside the model. *)

Inductive Outcome : Type :=
| Responded (status : nat) (data : string) (headers : list (string * string))
    (* the response arrived and its 'end' event fired *)
| Errored (message : string)
    (* the request emitted 'error', or could not be issued *)
| TimedOut.
    (* the callback of [req.setTimeout(10000, ...)] ran first *)

Record World : Type := mkWorld {
  network : nat -> Outcome;
  requested : list string;
  console : list string
}.

Definition IO (A : Type) : Type := World -> A * World.

Definition ret {A} (a : A) : IO A := fun w => (a, w).

Definition bind {A B} (m : IO A) (f : A -> IO B) : IO B :=
  fun w => let (a, w') := m w in f a w'.

Notation "x <- m ;; k" := (bind m (fun x => k))
  (at level 61, m at next level, right associativity).
Notation "m ;; k" := (bind m (fun _ => k))
  (at level 61, right associativity).

Definition console_log (line : string) : IO unit :=
  fun w => (tt, mkWorld (network w) (requested w) (console w ++ [line])%list).

(** *** makeRequest (lines 54-66)

    The promise settles once: it resolves with the status, body and headers
    when the response ends, and rejects with the error of the request or with
    [new Error('Request timeout')]. *)

Inductive Settled : Type :=
| Resolved (status : nat) (data : string) (headers : list (string * string))
| Rejected (error : Error).

Definition makeRequest (url : string) : IO Settled :=
  fun w =>
    let settled :=
      match network w (length (requested w)) with
      | Responded status data headers => Resolved status data headers
      | Errored msg => Rejected (mkError "Error" msg)
      | TimedOut => Rejected (mkError "Error" "Request timeout")
      end in
    (settled, mkWorld (network w) (requested w ++ [url])%list (console w)).

(** *** checkContent (lines 68-100) *)

Record CheckOutcome : Type := mkOutcome { check : Check; found : bool }.

Definition newRegExp (pattern : string) : Completion RegExp.Regex :=
  match RegExp.compile pattern with
  | RegExp.Ok r => Normal r
  | RegExp.SyntaxError reason =>
      Throw (mkError "SyntaxError"
               ("Invalid regular expression: /" ++ pattern ++ "/i: " ++ reason))
  end.

Definition titlePattern : string := "<title[^>]*>([^<]*)</title>".

Definition classPattern (value : string) : string :=
  "<[^>]*class=" ++ DQ ++ "[^" ++ DQ ++ "]*" ++ value ++ "[^" ++ DQ ++ "]*" ++ DQ.

Definition idPattern (value : string) : string :=
  "<[^>]*id=" ++ DQ ++ value ++ DQ.

Definition tagPattern (value : string) : string :=
  "<" ++ value ++ "[^>]*>".

(** Lines 74-79. *)
Definition titleFound (html value : string) : Completion bool :=
  match newRegExp titlePattern with
  | Throw e => Throw e
  | Normal titleRegex =>
      match RegExp.exec titleRegex html with
      | None => Normal false
      | Some m =>
          match RegExp.group m 1 with
          | Some text => Normal (JSString.includes text value)
          | None =>
              Throw (mkError "TypeError"
                "Cannot read properties of undefined (reading 'includes')")
          end
      end
  end.

(** Line 81. *)
Definition contentFound (html value : string) : bool :=
  JSString.includes html value.

(** Lines 83-86. *)
Definition elementFound (html value : string) : Completion bool :=
  match newRegExp (classPattern value) with
  | Throw e => Throw e
  | Normal classRegex =>
      match newRegExp (idPattern value) with
      | Throw e => Throw e
      | Normal idRegex =>
          match newRegExp (tagPattern value) with
          | Throw e => Throw e
          | Normal tagRegex =>
              Normal (RegExp.test classRegex html
                      || RegExp.test idRegex html
                      || RegExp.test tagRegex html)
          end
      end
  end.

(** Lines 88-93: whatever is thrown inside the [try] block leaves [found]
    false. *)
Definition jsonFound (html value : string) : bool :=
  match JSON.parse html with
  | None => false
  | Some parsed =>
      match JSON.hasOwnProperty parsed value with
      | Normal b => b
      | Throw _ => false
      end
  end.

(** The body of the loop, lines 72-94. *)
Definition evaluate (html : string) (c : Check) : Completion bool :=
  match type c with
  | title => titleFound html (value c)
  | content => Normal (contentFound html (value c))
  | element => elementFound html (value c)
  | json => Normal (jsonFound html (value c))
  end.

Fixpoint checkLoop (html : string) (todo : list Check)
         (results : list CheckOutcome) : Completion (list CheckOutcome) :=
  match todo with
  | [] => Normal results
  | c :: todo' =>
      match evaluate html c with
      | Throw e => Throw e
      | Normal f => checkLoop html todo' (results ++ [mkOutcome c f])%list
      end
  end%list.

Definition checkContent (html : string) (checks : list Check)
  : Completion (list CheckOutcome) :=
  checkLoop html checks []%list.

(** *** runTest (lines 102-145) *)

Fixpoint header (key : string) (headers : list (string * string)) : option string :=
  match headers with
  | [] => None
  | (k, v) :: rest => if String.eqb k key then Some v else header key rest
  end%list.

(** Lines 121-128. *)
Fixpoint report (results : list CheckOutcome) (allPassed : bool) : IO bool :=
  match results with
  | [] => ret allPassed
  | result :: rest =>
      if found result then
        console_log ("   ✅ Found: " ++ value (check result)
                     ++ " (" ++ typeName (type (check result)) ++ ")") ;;
        report rest allPassed
      else
        console_log ("   ❌ Missing: " ++ value (check result)
                     ++ " (" ++ typeName (type (check result)) ++ ")") ;;
        report rest false
  end%list.

Definition testingLine (test : TestCase) : string :=
  "🔍 Testing: " ++ name test.

Definition urlLine (test : TestCase) : string :=
  "   URL: " ++ url test.

Definition statusLine (status : nat) : string :=
  "   ❌ Status: " ++ JSString.ofNat status ++ LF.

Definition errorLine (e : Error) : string :=
  "   ❌ Error: " ++ message e ++ LF.

Definition passedLine (test : TestCase) : string :=
  "   🎉 " ++ name test ++ " PASSED" ++ LF.

Definition partialLine (test : TestCase) : string :=
  "   ⚠️  " ++ name test ++ " PARTIAL PASS" ++ LF.

Definition runTest (test : TestCase) : IO bool :=
  console_log (testingLine test) ;;
  console_log (urlLine test) ;;
  settled <- makeRequest (url test) ;;
  match settled with
  | Rejected error => console_log (errorLine error) ;; ret false
  | Resolved status data headers =>
      if Nat.eqb status 200 then
        console_log ("   ✅ Status: " ++ JSString.ofNat status) ;;
        let contentType :=
          match header "content-type" headers with
          | Some v => v
          | None => EmptyString
          end in
        (if JSString.includes (url test) ".json"
         then console_log ("   📄 Content-Type: " ++ contentType)
         else ret tt) ;;
        match checkContent data (checks test) with
        | Throw error => console_log (errorLine error) ;; ret false
        | Normal results =>
            allPassed <- report results true ;;
            if allPassed : bool
            then console_log (passedLine test) ;; ret true
            else console_log (partialLine test) ;; ret false
        end
      else
        console_log (statusLine status) ;; ret false
  end.

(** *** runAllTests (lines 147-173) *)

Fixpoint runEach (tests : list TestCase) (passed : nat) : IO nat :=
  match tests with
  | [] => ret passed
  | test :: rest =>
      result <- runTest test ;;
      runEach rest (if result : bool then S passed else passed)
  end%list.

Definition successRate (passed total : nat) : string :=
  Number.toString
    (Math.round (Number.mul (Number.div (Number.ofNat passed) (Number.ofNat total))
                            (Number.ofNat 100))).

Definition runAllTests (tests : list TestCase) : IO unit :=
  console_log ("🚀 Starting comprehensive tests..." ++ LF) ;;
  let total := length tests in
  passed <- runEach tests 0 ;;
  console_log "📊 Comprehensive Test Results:" ;;
  console_log ("   Passed: " ++ JSString.ofNat passed ++ "/" ++ JSString.ofNat total) ;;
  console_log ("   Success Rate: " ++ successRate passed total ++ "%") ;;
  if Nat.eqb passed total then
    console_log (LF ++ "🎉 All comprehensive tests passed! The Future Agent site is fully functional.") ;;
    console_log (LF ++ "✨ Features Verified:") ;;
    console_log "   ✅ Homepage loads with correct content and statistics" ;;
    console_log "   ✅ F8 Comparison page loads with all interactive elements" ;;
    console_log "   ✅ Data files are accessible and contain expected data" ;;
    console_log "   ✅ Statistics are properly loaded and displayed" ;;
    console_log "   ✅ All HTML elements are present and functional"
  else
    console_log (LF ++ "⚠️  Some tests failed. Check the output above for details.").

(** *** The script (lines 6 and 175-186) *)

Definition main : IO unit :=
  console_log ("🚀 Future Agent Comprehensive Test Suite" ++ LF) ;;
  console_log "🔍 Checking if development server is running..." ;;
  settled <- makeRequest "http://localhost:3000/" ;;
  match settled with
  | Resolved _ _ _ =>
      console_log ("✅ Server is running, starting comprehensive tests..." ++ LF) ;;
      runAllTests tests
  | Rejected _ =>
      console_log "❌ Server is not running. Please start it first:" ;;
      console_log "   python -m http.server 3000 --directory docs" ;;
      console_log "   or run: npm run test:server"
  end.

(** A fresh process: nothing requested, nothing printed. *)
Definition start (net : nat -> Outcome) : World := mkWorld net []%list []%list.

(** ** Vocabulary of the properties *)

(** The line a run of [runTest] ends with, if it printed any. *)
Definition lastLine (w : World) : option string :=
  last (map Some (console w)) None.

(** How the k-th request of the run ends, for the request about to be made. *)
Definition nextOutcome (w : World) : Outcome :=
  network w (length (requested w)).


(** *** Texts up to letter case, and texts free of a character *)

(** [a] and [b] have the same length and, position by position, the same
    canonical code unit: they are equal up to the case of their letters. *)
Definition sameLetters (a b : string) : Prop :=
  Forall2 (fun x y => RegExp.ciEqual x y = true) (JSString.chars a) (JSString.chars b).

Definition without (c : ascii) (s : string) : Prop :=
  ~ In c (JSString.chars s).

(** [text] occurs in [s], code unit for code unit. *)
Definition occursIn (text s : string) : Prop :=
  exists l r, s = l ++ text ++ r.

(** A character that is not a [SyntaxCharacter] of the pattern grammar. *)
Definition isSyntaxCharacter (c : ascii) : bool :=
  existsb (Ascii.eqb c) (JSString.chars "^$\.*+?()[]{}|").

Definition plainToken (token : string) : bool :=
  forallb (fun c => negb (isSyntaxCharacter c)) (JSString.chars token).

(** *** What the three patterns of an element check look for *)

(** [<], text without [>], [class=] and a quote, text without a quote, the
    token, text without a quote, a quote. *)
Definition ClassPatternOccurs (html token : string) : Prop :=
  exists before attrs key left tok right rest,
    html = before ++ "<" ++ attrs ++ key ++ left ++ tok ++ right ++ DQ ++ rest /\
    without ">" attrs /\ sameLetters ("class=" ++ DQ) key /\
    without "034" left /\ sameLetters token tok /\ without "034" right.

(** [<], text without [>], [id=] and a quote, the token, a quote. *)
Definition IdPatternOccurs (html token : string) : Prop :=
  exists before attrs key tok rest,
    html = before ++ "<" ++ attrs ++ key ++ tok ++ DQ ++ rest /\
    without ">" attrs /\ sameLetters ("id=" ++ DQ) key /\ sameLetters token tok.

(** [<], the token, text without [>], [>]. *)
Definition TagPatternOccurs (html token : string) : Prop :=
  exists before tok attrs rest,
    html = before ++ "<" ++ tok ++ attrs ++ ">" ++ rest /\
    sameLetters token tok /\ without ">" attrs.

(** *** What the pattern of a title check looks for *)

(** [<title], text without [>], [>], the title text without [<],
    [</title>]; [before] is what precedes the match. *)
Definition TitleMatch (html before text : string) : Prop :=
  exists opening attrs closing rest,
    html = before ++ opening ++ attrs ++ ">" ++ text ++ closing ++ rest /\
    sameLetters "<title" opening /\ without ">" attrs /\
    without "<" text /\ sameLetters "</title>" closing.

(** The match that starts first. *)
Definition FirstTitleMatch (html text : string) : Prop :=
  exists before,
    TitleMatch html before text /\
    forall before' text',
      TitleMatch html before' text' -> String.length before <= String.length before'.

(** *** Patterns made of literal characters and of [[^c]*] *)

Module Template.

Import RegExp.

Inductive Item : Type :=
| Lit (c : ascii)       (* the character [c] *)
| Skip (c : ascii).     (* [[^c]*] *)

Definition regexOf (it : Item) : Regex :=
  match it with
  | Lit c => lit c
  | Skip c => Quant (Char [AChar (JSString.code c)] true) 0 None true
  end%list.

Definition build (items : list Item) (r : Regex) : Regex :=
  fold_right (fun it acc => Seq (regexOf it) acc) r items.

Definition textOf (it : Item) : list ascii :=
  match it with
  | Lit c => [c]
  | Skip c => ["["%char; "^"%char; c; "]"%char; "*"%char]
  end%list.

Definition render (items : list Item) : list ascii := flat_map textOf items.

(** The texts a template matches from beginning to end. *)
Fixpoint Spans (items : list Item) (w : list ascii) : Prop :=
  match items with
  | [] => w = []
  | Lit c :: items' =>
      exists d w', w = d :: w' /\ ciEqual c d = true /\ Spans items' w'
  | Skip c :: items' =>
      exists a w', w = a ++ w' /\ Forall (fun d => ciEqual c d = false) a
                   /\ Spans items' w'
  end%list.

Definition lits (s : string) : list Item := map Lit (JSString.chars s).

Definition classItems (token : string) : list Item :=
  (lits "<" ++ [Skip ">"] ++ lits ("class=" ++ DQ) ++ [Skip "034"]
   ++ lits token ++ [Skip "034"] ++ lits DQ)%list.

Definition idItems (token : string) : list Item :=
  (lits "<" ++ [Skip ">"] ++ lits ("id=" ++ DQ) ++ lits token ++ lits DQ)%list.

Definition tagItems (token : string) : list Item :=
  (lits "<" ++ lits token ++ [Skip ">"] ++ lits ">")%list.

End Template.

(** *** The three sub-tests of an element check, in any order *)

Inductive SubTest : Type := ByClass | ById | ByTag.

Definition sourceOrder : list SubTest := [ByClass; ById; ByTag]%list.

(** Lines 83-86 with the operands of line 86 taken in the given order; the
    three regular expressions are built before the first of them is used. *)
Definition elementFoundIn (order : list SubTest) (html value : string)
  : Completion bool :=
  match newRegExp (classPattern value) with
  | Throw e => Throw e
  | Normal classRegex =>
      match newRegExp (idPattern value) with
      | Throw e => Throw e
      | Normal idRegex =>
          match newRegExp (tagPattern value) with
          | Throw e => Throw e
          | Normal tagRegex =>
              let subTest t :=
                match t with
                | ByClass => RegExp.test classRegex html
                | ById => RegExp.test idRegex html
                | ByTag => RegExp.test tagRegex html
                end in
              Normal (existsb subTest order)
          end
      end
  end.

(** A token whose three patterns are regular expressions. *)
Definition validToken (value : string) : bool :=
  match newRegExp (classPattern value), newRegExp (idPattern value),
        newRegExp (tagPattern value) with
  | Normal _, Normal _, Normal _ => true
  | _, _, _ => false
  end.

Definition validCheck (c : Check) : bool :=
  match type c with
  | element => validToken (value c)
  | _ => true
  end.

(** *** The success rate as the specification words it *)




(** *** Markup as the specification words it

    The element check is described in terms of tags, their names and their
    attributes.  A tag is the text between a [<] and the next [>]; its name
    is what precedes the first blank or slash; its attributes are the
    [key="value"] pairs that follow. *)

Module Markup.

Import JSString.

Definition isBlank (c : ascii) : bool :=
  let n := nat_of_ascii c in
  (n =? 32)%nat || (n =? 9)%nat || (n =? 10)%nat || (n =? 12)%nat || (n =? 13)%nat.

Fixpoint upTo (stop : ascii -> bool) (inp : list ascii)
  : list ascii * list ascii :=
  match inp with
  | [] => ([], [])
  | c :: rest =>
      if stop c then ([], inp)
      else let (a, b) := upTo stop rest in (c :: a, b)
  end%list.

(** The texts of the tags of a body, without their angle brackets. *)
Fixpoint tags (inp : list ascii) : list (list ascii) :=
  match inp with
  | [] => []
  | c :: rest =>
      if Ascii.eqb c "<" then
        match upTo (Ascii.eqb ">") rest with
        | (text, _ :: _) => text :: tags rest
        | (_, []) => tags rest
        end
      else tags rest
  end%list.

Definition tagName (tag : list ascii) : list ascii :=
  fst (upTo (fun c => isBlank c || Ascii.eqb c "/") tag).

(** An opening tag is neither a closing tag nor a declaration. *)
Definition isOpening (tag : list ascii) : bool :=
  match tag with
  | c :: _ => negb (Ascii.eqb c "/" || Ascii.eqb c "!" || Ascii.eqb c "?")
  | [] => false
  end%list.

Fixpoint dropBlanks (inp : list ascii) : list ascii :=
  match inp with
  | c :: rest => if isBlank c then dropBlanks rest else inp
  | [] => []
  end%list.

(** The attributes written after the tag name. *)
Fixpoint attributes (fuel : nat) (inp : list ascii)
  : list (list ascii * list ascii) :=
  match fuel with
  | 0 => []
  | S fuel' =>
      match dropBlanks inp with
      | [] => []
      | "/"%char :: rest => attributes fuel' rest
      | inp' =>
          let (key, rest) :=
            upTo (fun c => isBlank c || Ascii.eqb c "=" || Ascii.eqb c "/") inp' in
          match rest with
          | "="%char :: "034"%char :: rest' =>
              let (v, rest'') := upTo (Ascii.eqb "034") rest' in
              (key, v) :: attributes fuel' (tl rest'')
          | "="%char :: rest' =>
              let (v, rest'') := upTo isBlank rest' in
              (key, v) :: attributes fuel' rest''
          | _ => (key, []) :: attributes fuel' rest
          end
      end
  end%list.

Definition attributesOf (tag : list ascii) : list (list ascii * list ascii) :=
  let rest := snd (upTo (fun c => isBlank c || Ascii.eqb c "/") tag) in
  attributes (S (length rest)) rest.

Definition sameText (a b : list ascii) : bool :=
  if list_eq_dec ascii_dec a b then true else false.

Fixpoint sameIgnoringCase (a b : list ascii) : bool :=
  match a, b with
  | [], [] => true
  | x :: a', y :: b' => RegExp.ciEqual x y && sameIgnoringCase a' b'
  | _, _ => false
  end%list.

Definition attribute (key : string) (tag : list ascii) : option (list ascii) :=
  option_map snd
    (find (fun kv => sameIgnoringCase (chars key) (fst kv)) (attributesOf tag)).

(** "a tag carrying a class attribute containing the token" *)
Definition hasClassContaining (token : string) (tag : list ascii) : bool :=
  match attribute "class" tag with
  | Some v => includes_chars v (chars token)
  | None => false
  end.

(** "an id attribute exactly equal to the token" *)
Definition hasIdEqualTo (token : string) (tag : list ascii) : bool :=
  match attribute "id" tag with
  | Some v => sameText v (chars token)
  | None => false
  end.

(** "a bare opening tag whose name equals the token (case-insensitive)" *)
Definition isOpeningTagNamed (token : string) (tag : list ascii) : bool :=
  isOpening tag && sameIgnoringCase (chars token) (tagName tag).

Definition elementPresent (body token : string) : bool :=
  existsb (fun tag => hasClassContaining token tag
                      || hasIdEqualTo token tag
                      || isOpeningTagNamed token tag)
          (tags (chars body)).

End Markup.

(** *** Apparatus of the proofs *)

Local Open Scope list_scope.

(** [y] is reached from [x] by reading forward over the same input. *)
Definition Extends (x y : RegExp.MatchState) : Prop :=
  RegExp.endIndex x <= RegExp.endIndex y /\
  RegExp.endIndex y + length (RegExp.remaining y)
  = RegExp.endIndex x + length (RegExp.remaining x).

(** The character before the position reached after reading [w], when [p]
    preceded [w]. *)
Definition lastOf (w : list ascii) (p : option ascii) : option ascii :=
  last (map Some w) p.

(** The state of a match that started at index [i] and has read [pre],
    with [suf] ahead and no capture set. *)
Definition stateAt (i : nat) (p : option ascii) (pre suf : list ascii) :=
  RegExp.mkState (i + length pre) (lastOf pre p) suf [].

(** The items whose rendering the pattern parser reads back as written:
    literals that are no syntax characters, and the three skipped classes
    the patterns of the harness use. *)
Definition goodItem (it : Template.Item) : Prop :=
  match it with
  | Template.Lit c => isSyntaxCharacter c = false
  | Template.Skip c => In c ["<"%char; ">"%char; "034"%char]
  end.

(** The parse of an alternative, with the term [t] put in front. *)
Definition thenSeq (t : RegExp.Regex) (p : RegExp.Parsed RegExp.Tail)
  : RegExp.Parsed RegExp.Tail :=
  RegExp.bindParsed p
    (fun x => match x with
              | (a, more, rest, gi) => RegExp.Ok (RegExp.Seq t a, more, rest, gi)
              end).

(** The title pattern of line 75, in three parts: the opening tag, the
    captured text, the closing tag. *)
Definition openingItems : list Template.Item :=
  Template.lits "<title" ++ [Template.Skip ">"] ++ Template.lits ">".

Definition closingItems : list Template.Item := Template.lits "</title>".

Definition titleRegex : RegExp.Regex :=
  Template.build openingItems
    (RegExp.Seq (RegExp.Group 1 (Template.build [Template.Skip "<"] RegExp.Empty))
                (Template.build closingItems RegExp.Empty)).

(** The line printed for one check (lines 122-126). *)
Definition reportLine (r : CheckOutcome) : string :=
  if found r
  then "   ✅ Found: " ++ value (check r) ++ " (" ++ typeName (type (check r)) ++ ")"
  else "   ❌ Missing: " ++ value (check r) ++ " (" ++ typeName (type (check r)) ++ ")".

(** Response bodies of the examples. *)
Definition keyedBody : string :=
  "{" ++ DQ ++ "hasOwnProperty" ++ DQ ++ ": 1, "
      ++ DQ ++ "total_questions" ++ DQ ++ ": 16337}".

Definition countedBody : string :=
  "{" ++ DQ ++ "total_questions" ++ DQ ++ ": 16337, "
      ++ DQ ++ "results" ++ DQ ++ ": []}".

Definition resultsBody : string :=
  "{" ++ DQ ++ "results" ++ DQ ++ ": []}".


(** What line 160 rounds, before it is printed. *)
Definition rounded (passed total : nat) : Number.Integral :=
  Math.round (Number.mul (Number.div (Number.ofNat passed) (Number.ofNat total))
                         (Number.ofNat 100)).

(** [num / den] lies in the interval from [m] to [m + 1], at the place
    [l] says: on [m], or below, at or above the middle. *)
Definition Located (m : Z) (l : location) (num den : Z) : Prop :=
  (0 < den /\ m * den <= num < (m + 1) * den /\
   match l with
   | loc_Exact => num = m * den
   | loc_Inexact c => num <> m * den /\ (2 * (num - m * den) ?= den) = c
   end)%Z.

(** The weight of a double's exponent. *)
Definition pow2 (e : Z) : R := powerRZ 2 e.

(** The first line of a run (line 148). *)
Definition startingLine : string := "🚀 Starting comprehensive tests..." ++ LF.

(** A run of forty test cases without checks, of which the first
    twenty-three are answered with status 200 and the others with 404. *)
Definition fortyTests : list TestCase :=
  repeat (mkTest "Page" "http://localhost:3000/" []%list) 40.

Definition twentyThreeAnswers (k : nat) : Outcome :=
  if Nat.ltb k 23 then Responded 200 "<html>" []%list
  else Responded 404 "Not Found" []%list.

(** *** Vocabulary of the further properties *)

(** Two texts of the same length and, position by position, the same
    canonical code unit. *)
Definition sameCase (a b : list ascii) : Prop :=
  Forall2 (fun x y => RegExp.ciEqual x y = true) a b.

(** The characters before two such positions: both absent, or the same up
    to case. *)
Definition sameCaseBefore (p q : option ascii) : Prop :=
  match p, q with
  | Some a, Some b => RegExp.ciEqual a b = true
  | None, None => True
  | _, _ => False
  end.

(** Two states of the matcher at the same index of two inputs that differ
    in the case of their letters only. *)
Definition SameState (x y : RegExp.MatchState) : Prop :=
  RegExp.endIndex x = RegExp.endIndex y /\
  sameCaseBefore (RegExp.previous x) (RegExp.previous y) /\
  sameCase (RegExp.remaining x) (RegExp.remaining y) /\
  Forall2 (fun c d => fst c = fst d /\ sameCase (snd c) (snd d))
          (RegExp.captures x) (RegExp.captures y).

(** Every character, for the checks done by enumeration. *)
Definition everyAscii : list ascii := map ascii_of_nat (seq 0 256).

(** The results of [runTest] over a list of test cases, one after the
    other. *)
Fixpoint verdicts (tests : list TestCase) (w : World) : list bool :=
  match tests with
  | [] => []
  | test :: rest => fst (runTest test w) :: verdicts rest (snd (runTest test w))
  end.

(** [headers['content-type'] || ''] of line 113. *)
Definition contentTypeOf (headers : list (string * string)) : string :=
  match header "content-type" headers with
  | Some v => v
  | None => EmptyString
  end.

(** The lines a run ends with (lines 163-171). *)
Definition closingLines (allPassed : bool) : list string :=
  if allPassed then
    [ LF ++ "🎉 All comprehensive tests passed! The Future Agent site is fully functional.";
      LF ++ "✨ Features Verified:";
      "   ✅ Homepage loads with correct content and statistics";
      "   ✅ F8 Comparison page loads with all interactive elements";
      "   ✅ Data files are accessible and contain expected data";
      "   ✅ Statistics are properly loaded and displayed";
      "   ✅ All HTML elements are present and functional" ]%string
  else [ LF ++ "⚠️  Some tests failed. Check the output above for details." ]%string.

(** A text of JSON white space. *)
Definition blank (ws : list ascii) : Prop :=
  Forall (fun c => JSON.isWhiteSpace c = true) ws.

Local Open Scope string_scope.

(** * Properties *)

(** ** The console and the request log *)

Lemma report_world results allPassed w :
  network (snd (report results allPassed w)) = network w /\
  requested (snd (report results allPassed w)) = requested w.
Proof.
  revert allPassed w.
  induction results as [|r rs IH]; intros allPassed w; [now split|].
  cbn [report]. unfold bind, console_log.
  destruct (found r); cbn;
    match goal with
    | |- context [report rs ?b ?w0] =>
        destruct (IH b w0) as [Hn Hr]; rewrite Hn, Hr; now split
    end.
Qed.

Lemma runTest_world test w :
  network (snd (runTest test w)) = network w /\
  requested (snd (runTest test w)) = (requested w ++ [url test])%list.
Proof.
  unfold runTest, bind, console_log, makeRequest, ret. cbn.
  destruct (network w (length (requested w))) as [status data headers|msg|];
    cbn; try (split; reflexivity).
  destruct (Nat.eqb status 200); cbn; [|split; reflexivity].
  destruct (JSString.includes (url test) ".json"); cbn;
    (destruct (checkContent data (checks test)) as [results|e]; cbn;
     [|split; reflexivity]);
    match goal with
    | |- context [report results true ?w0] =>
        destruct (report_world results true w0) as [Hn Hr];
        destruct (report results true w0) as [[] w1]; cbn in *;
        rewrite Hn, Hr; split; reflexivity
    end.
Qed.

Lemma runEach_world tests passed w :
  network (snd (runEach tests passed w)) = network w /\
  requested (snd (runEach tests passed w)) = (requested w ++ map url tests)%list.
Proof.
  revert passed w.
  induction tests as [|t ts IH]; intros passed w; cbn [runEach map].
  - unfold ret. cbn. rewrite app_nil_r. now split.
  - unfold bind. destruct (runTest_world t w) as [Hn Hr].
    destruct (runTest t w) as [result w1]. cbn in Hn, Hr.
    destruct (IH (if result then S passed else passed) w1) as [Hn' Hr'].
    rewrite Hn', Hr', Hn, Hr, <- app_assoc. now split.
Qed.

(** Whatever the outcomes, [runAllTests] calls [makeRequest] once for every
    test case, in the order of the list. *)
Lemma runAllTests_requested tests w :
  requested (snd (runAllTests tests w)) = (requested w ++ map url tests)%list.
Proof.
  unfold runAllTests, bind, console_log. cbn.
  match goal with
  | |- context [runEach tests 0 ?w0] =>
      destruct (runEach_world tests 0 w0) as [_ Hr];
      destruct (runEach tests 0 w0) as [passed w1]; cbn in Hr
  end.
  destruct (Nat.eqb passed (length tests)); cbn; exact Hr.
Qed.

Lemma runEach_step test rest passed w :
  runEach (test :: rest) passed w =
  runEach rest (if fst (runTest test w) then S passed else passed)
          (snd (runTest test w)).
Proof.
  cbn [runEach]. unfold bind. now destruct (runTest test w).
Qed.

(** ** Preflight *)

(** C5.  When the probe of the root path fails (the request errors or times
    out), the script requests nothing but the root path, prints the "server
    is not running" message with the two setup instructions, and prints no
    line of any test case: no "Testing" line, no status or error report. *)
Theorem preflight_failure_skips_the_run (net : nat -> Outcome) :
  (forall status data headers, net 0 <> Responded status data headers) ->
  let w := snd (main (start net)) in
  requested w = ["http://localhost:3000/"]%list /\
  console w =
    [ ("🚀 Future Agent Comprehensive Test Suite" ++ LF)%string;
      "🔍 Checking if development server is running...";
      "❌ Server is not running. Please start it first:";
      "   python -m http.server 3000 --directory docs";
      "   or run: npm run test:server" ]%list /\
  (forall test, ~ In (testingLine test) (console w)) /\
  (forall status, ~ In (statusLine status) (console w)) /\
  (forall error, ~ In (errorLine error) (console w)).
Proof.
  intros Hfail w. subst w.
  unfold main, bind, console_log, makeRequest, start. cbn.
  destruct (net 0) as [status data headers|msg|] eqn:E;
    [exfalso; eapply Hfail; reflexivity| |];
    cbn; (split; [reflexivity|]); (split; [reflexivity|]);
    (split; [|split]); intros x [H|[H|[H|[H|[H|[]]]]]]; discriminate H.
Qed.

Lemma preflight_failure_skips_the_run_witness :
  let w := snd (main (start (fun _ => TimedOut))) in
  requested w = ["http://localhost:3000/"]%list /\
  length (console w) = 5.
Proof.
  destruct (preflight_failure_skips_the_run (fun _ => TimedOut)) as (Hr & Hc & _).
  - intros; discriminate.
  - split; [exact Hr | rewrite Hc; reflexivity].
Defined.

(** ** Responses other than 200, errors and timeouts *)





(** ** The order of the sub-tests of an element check *)

Lemma existsb_permutation {A} (f : A -> bool) (l1 l2 : list A) :
  Permutation.Permutation l1 l2 -> existsb f l1 = existsb f l2.
Proof.
  induction 1; cbn.
  - reflexivity.
  - now rewrite IHPermutation.
  - destruct (f x), (f y); reflexivity.
  - congruence.
Qed.

Lemma elementFound_sourceOrder html value :
  elementFound html value = elementFoundIn sourceOrder html value.
Proof.
  unfold elementFound, elementFoundIn.
  destruct (newRegExp (classPattern value)); [|reflexivity].
  destruct (newRegExp (idPattern value)); [|reflexivity].
  destruct (newRegExp (tagPattern value)); [|reflexivity].
  cbn. now rewrite orb_false_r, orb_assoc.
Qed.

(** C9.  The result of the element check (what it returns, or what it throws
    while building its regular expressions) is the same in whatever order the
    class, id and tag sub-tests are taken. *)
Theorem element_subtests_commute (html value : string) (order : list SubTest) :
  Permutation.Permutation sourceOrder order ->
  elementFoundIn order html value = elementFound html value.
Proof.
  intros Hperm. rewrite elementFound_sourceOrder.
  unfold elementFoundIn.
  destruct (newRegExp (classPattern value)); [|reflexivity].
  destruct (newRegExp (idPattern value)); [|reflexivity].
  destruct (newRegExp (tagPattern value)); [|reflexivity].
  f_equal. symmetry. now apply existsb_permutation.
Qed.

Lemma element_subtests_commute_witness :
  elementFoundIn [ByTag; ByClass; ById]%list "<html>" "h" = Normal true.
Proof.
  rewrite (element_subtests_commute "<html>" "h" [ByTag; ByClass; ById]%list).
  - vm_compute. reflexivity.
  - apply Permutation.Permutation_sym.
    apply (Permutation.Permutation_cons_app [ByClass; ById]%list []%list ByTag).
    rewrite app_nil_r. apply Permutation.Permutation_refl.
Defined.

(** * The regular expressions of the checks *)

Local Open Scope list_scope.

(** ** Characters *)

Lemma code_in_universe (c : ascii) : In (JSString.code c) RegExp.universe.
Proof.
  unfold RegExp.universe, JSString.code. apply in_or_app. left.
  apply in_map_iff. exists (nat_of_ascii c). split.
  - unfold N_of_ascii, nat_of_ascii. apply N2Nat.id.
  - apply in_seq. pose proof (nat_ascii_bounded c). lia.
Qed.

Lemma CharSetMatches_single (a c : ascii) :
  RegExp.CharSetMatches [RegExp.AChar (JSString.code a)] c = RegExp.ciEqual a c.
Proof.
  unfold RegExp.CharSetMatches, RegExp.ciEqual.
  apply eq_true_iff_eq. rewrite existsb_exists. split.
  - intros (u & _ & H). apply andb_true_iff in H as [Hu Hc].
    cbn in Hu. rewrite orb_false_r in Hu. apply N.eqb_eq in Hu. now subst u.
  - intros H. exists (JSString.code a). split; [apply code_in_universe|].
    cbn. now rewrite N.eqb_refl, H.
Qed.

Lemma clearCaptures_nil caps : RegExp.clearCaptures [] caps = caps.
Proof.
  unfold RegExp.clearCaptures. induction caps as [|kv caps IH]; cbn in *;
    [reflexivity | now f_equal].
Qed.

(** ** The fuel of the parsers is enough

    The parsers of patterns and of JSON texts recurse on the input that is
    left, which no call lengthens and which every recursive call finds
    shorter.  A fuel above the length of the input is therefore never used
    up, and the results do not depend on it. *)

Ltac done_length := subst; cbn [length fst snd] in *; lia.

(** Case analysis on the scrutinees of [H], closing the branches that did
    not parse. *)
Ltac parse_cases H :=
  repeat first
    [ discriminate H
    | match type of H with
      | context [match ?x with _ => _ end] =>
          lazymatch x with
          | context [match _ with _ => _ end] => fail
          | _ => destruct x eqn:?
          end
      end ];
  try (inversion H; subst; clear H).

Ltac ascii_cases c := destruct c as [[] [] [] [] [] [] [] []].

Section PatternFuel.

Import RegExp.

Lemma decimalDigits_length inp :
  forall acc, length (snd (decimalDigits acc inp)) <= length inp.
Proof.
  induction inp as [|c inp IH]; intros acc; cbn [decimalDigits]; [done_length|].
  destruct (decimalValue c); [|done_length].
  specialize (IH (10 * acc + n)). done_length.
Qed.

Lemma bracedQuantifier_length inp n m rest :
  bracedQuantifier inp = Some (n, m, rest) -> length rest <= length inp.
Proof.
  unfold bracedQuantifier. intros H.
  destruct (startsWithDigit inp); [|discriminate].
  pose proof (decimalDigits_length inp 0) as H0.
  destruct (decimalDigits 0 inp) as [k r]. cbn [snd] in H0.
  destruct r as [|c r]; [discriminate|].
  destruct r as [|c' r].
  - parse_cases H; done_length.
  - pose proof (decimalDigits_length (c' :: r) 0) as H1.
    pose proof (decimalDigits_length r 0) as H2.
    parse_cases H; done_length.
Qed.

Lemma lazySuffix_length inp :
  length (snd (lazySuffix inp)) <= length inp.
Proof.
  unfold lazySuffix.
  repeat match goal with
         | |- context [match ?x with _ => _ end] => destruct x
         end; done_length.
Qed.

Lemma quantifier_length inp q rest :
  quantifier inp = Ok (q, rest) -> length rest <= length inp.
Proof.
  unfold quantifier. intros H.
  destruct inp as [|c inp]; [parse_cases H; done_length|].
  pose proof (lazySuffix_length inp) as Hl.
  destruct (lazySuffix inp) as [g1 r1].
  destruct (bracedQuantifier inp) as [[[n m] r]|] eqn:Hb.
  - apply bracedQuantifier_length in Hb.
    pose proof (lazySuffix_length r) as Hl'.
    destruct (lazySuffix r) as [g2 r2].
    parse_cases H; done_length.
  - parse_cases H; done_length.
Qed.

Lemma quantified_length r inp q rest :
  quantified r inp = Ok (q, rest) -> length rest <= length inp.
Proof.
  unfold quantified, bindParsed. intros H.
  destruct (quantifier inp) as [[o r']|] eqn:Hq; [|discriminate].
  apply quantifier_length in Hq. parse_cases H; done_length.
Qed.

Lemma legacyOctal_length d inp :
  length (snd (legacyOctal d inp)) <= length inp.
Proof.
  unfold legacyOctal.
  repeat match goal with
         | |- context [match ?x with _ => _ end] => destruct x
         end; done_length.
Qed.

Lemma characterEscape_length letters c rest :
  length (snd (characterEscape letters c rest)) <= S (length rest).
Proof.
  unfold characterEscape.
  pose proof (legacyOctal_length) as Hoct.
  repeat match goal with
         | |- context [legacyOctal ?d ?i] =>
             let H := fresh in
             pose proof (Hoct d i) as H; destruct (legacyOctal d i)
         | |- context [match ?x with _ => _ end] => destruct x
         end; done_length.
Qed.

Lemma atomEscape_length ncap inp r b rest :
  atomEscape ncap inp = Ok (r, b, rest) -> length rest <= length inp.
Proof.
  unfold atomEscape. intros H.
  destruct inp as [|c inp]; [discriminate|].
  pose proof (characterEscape_length isAsciiLetter c inp) as He.
  destruct (characterEscape isAsciiLetter c inp) as [v r1].
  pose proof (decimalDigits_length (c :: inp) 0) as Hd.
  destruct (decimalDigits 0 (c :: inp)) as [k r2].
  parse_cases H; done_length.
Qed.

(** A class atom takes at least one character. *)
Lemma classAtom_length inp a rest :
  classAtom inp = Ok (a, rest) -> length rest < length inp.
Proof.
  unfold classAtom. intros H.
  destruct inp as [|c inp]; [discriminate|].
  destruct inp as [|c' inp]; [parse_cases H; done_length|].
  pose proof (characterEscape_length classControlLetter c' inp) as He.
  destruct (characterEscape classControlLetter c' inp) as [v r1].
  parse_cases H; done_length.
Qed.

(** The two case analyses of [classRanges], on the equality of characters. *)
Lemma bracket_cases {T} (P : T -> Prop) (inp : list ascii)
      (E : T) (K1 : list ascii -> T) (K2 : T) :
  (inp = [] -> P E) ->
  (forall rest, inp = "]"%char :: rest -> P (K1 rest)) ->
  (forall c rest, inp = c :: rest -> c <> "]"%char -> P K2) ->
  P (match inp with
     | [] => E
     | "]"%char :: rest => K1 rest
     | _ => K2
     end).
Proof.
  intros H1 H2 H3. destruct inp as [|c rest]; [now apply H1|].
  ascii_cases c;
    first [ now apply H2 | apply (H3 _ _ eq_refl); discriminate ].
Qed.

Lemma dash_cases {T} (P : T -> Prop) (inp : list ascii)
      (K1 : ascii -> list ascii -> T) (K2 : T) :
  (forall c rest, inp = "-"%char :: c :: rest -> P (K1 c rest)) ->
  P K2 ->
  P (match inp with
     | "-"%char :: c :: rest => K1 c rest
     | _ => K2
     end).
Proof.
  intros H1 H2. destruct inp as [|d [|c rest]]; try assumption;
    ascii_cases d; first [ assumption | now apply H1 ].
Qed.

Lemma classRanges_length fuel :
  forall inp A rest,
    classRanges fuel inp = Ok (A, rest) -> length rest < length inp.
Proof.
  induction fuel as [|fuel IH]; intros inp A rest; [discriminate|].
  cbn [classRanges]. apply bracket_cases.
  - discriminate.
  - intros rest0 -> H. inversion H. done_length.
  - intros c rest0 _ _. unfold bindParsed.
    destruct (classAtom inp) as [[a rest1]|] eqn:Ha; [|discriminate].
    apply classAtom_length in Ha.
    assert (Hrec : forall a0,
               match classRanges fuel rest1 with
               | Ok (A0, rest') => Ok (a0 :: A0, rest')
               | SyntaxError e => SyntaxError e
               end = Ok (A, rest) -> length rest < length inp).
    { intros a0 H. destruct (classRanges fuel rest1) as [[A0 r]|] eqn:Hr;
        [|discriminate].
      apply IH in Hr. inversion H. done_length. }
    apply dash_cases; [|apply Hrec].
    intros c' rest2 Hrest1. destruct (Ascii.eqb c' "]"); [apply Hrec|].
    destruct (classAtom (c' :: rest2)) as [[b rest3]|] eqn:Hb; [|discriminate].
    apply classAtom_length in Hb.
    destruct (classRanges fuel rest3) as [[A0 r]|] eqn:Hr; [|discriminate].
    apply IH in Hr. intros H. subst rest1.
    parse_cases H; done_length.
Qed.

Lemma bracket_cases2 {T} (R : T -> T -> Prop) (inp : list ascii)
      (E E' : T) (K1 K1' : list ascii -> T) (K2 K2' : T) :
  R E E' ->
  (forall rest, R (K1 rest) (K1' rest)) ->
  (inp <> [] -> R K2 K2') ->
  R (match inp with
     | [] => E
     | "]"%char :: rest => K1 rest
     | _ => K2
     end)
    (match inp with
     | [] => E'
     | "]"%char :: rest => K1' rest
     | _ => K2'
     end).
Proof.
  intros H1 H2 H3. destruct inp as [|c rest]; [assumption|].
  ascii_cases c; first [ apply H2 | apply H3; discriminate ].
Qed.

Lemma dash_cases2 {T} (R : T -> T -> Prop) (inp : list ascii)
      (K1 K1' : ascii -> list ascii -> T) (K2 K2' : T) :
  (forall c rest, inp = "-"%char :: c :: rest -> R (K1 c rest) (K1' c rest)) ->
  R K2 K2' ->
  R (match inp with
     | "-"%char :: c :: rest => K1 c rest
     | _ => K2
     end)
    (match inp with
     | "-"%char :: c :: rest => K1' c rest
     | _ => K2'
     end).
Proof.
  intros H1 H2. destruct inp as [|d [|c rest]]; try assumption;
    ascii_cases d; first [ assumption | now apply H1 ].
Qed.

(** [classRanges] gives the same result whatever the fuel, once it exceeds
    the length of the input: the fuel [characterClass] gives it is
    enough. *)
Lemma classRanges_fuel :
  forall fuel1 fuel2 inp,
    length inp < fuel1 -> length inp < fuel2 ->
    classRanges fuel1 inp = classRanges fuel2 inp.
Proof.
  induction fuel1 as [|fuel1 IH]; intros fuel2 inp H1 H2; [lia|].
  destruct fuel2 as [|fuel2]; [lia|].
  cbn [classRanges]. apply bracket_cases2; try reflexivity.
  intros _. unfold bindParsed.
  destruct (classAtom inp) as [[a rest1]|] eqn:Ha; [|reflexivity].
  apply classAtom_length in Ha.
  rewrite (IH fuel2 rest1) by lia.
  apply dash_cases2; [|reflexivity].
  intros c' rest2 Hrest1. destruct (Ascii.eqb c' "]"); [reflexivity|].
  destruct (classAtom (c' :: rest2)) as [[b rest3]|] eqn:Hb; [|reflexivity].
  apply classAtom_length in Hb.
  rewrite (IH fuel2 rest3) by (subst rest1; cbn [length] in *; lia).
  reflexivity.
Qed.

Lemma characterClass_length inp r rest :
  characterClass inp = Ok (r, rest) -> length rest <= length inp.
Proof.
  unfold characterClass, bindParsed. intros H.
  assert (Hall : forall fuel i A r0,
             classRanges fuel i = Ok (A, r0) -> length r0 <= length i).
  { intros fuel i A r0 Hr. apply classRanges_length in Hr. lia. }
  destruct inp as [|c inp].
  - discriminate H.
  - destruct (classRanges (S (length inp)) inp) as [[A1 r1]|] eqn:Hr1;
    destruct (classRanges (S (length (c :: inp))) (c :: inp)) as [[A2 r2]|] eqn:Hr2;
      try apply Hall in Hr1; try apply Hall in Hr2;
      ascii_cases c; cbn [length] in H; try rewrite Hr1 in H; try rewrite Hr2 in H;
      try discriminate H; inversion H; done_length.
Qed.

Lemma groupBody_length rec inp gi r rest gi' :
  (forall a more rest0 g,
      rec inp gi = Ok (a, more, rest0, g) -> length rest0 <= length inp) ->
  groupBody rec inp gi = Ok (r, rest, gi') -> length rest <= length inp.
Proof.
  unfold groupBody, bindParsed. intros Hrec H.
  destruct (rec inp gi) as [[[[a more] rest0] g]|]; [|discriminate].
  specialize (Hrec _ _ _ _ eq_refl). parse_cases H; done_length.
Qed.

Ltac use_lengths Hrec :=
  repeat match goal with
    | H : quantified _ _ = Ok _ |- _ => apply quantified_length in H
    | H : characterClass _ = Ok _ |- _ => apply characterClass_length in H
    | H : atomEscape _ _ = Ok _ |- _ => apply atomEscape_length in H
    | H : groupBody _ _ _ = Ok _ |- _ =>
        apply groupBody_length in H;
        [| intros ? ? ? ?; apply Hrec; done_length ]
    end.

Lemma term_length rec ncap c rest gi t rest' gi' :
  (forall inp g a more rest0 g',
      length inp <= length rest ->
      rec inp g = Ok (a, more, rest0, g') -> length rest0 <= length inp) ->
  term rec ncap c rest gi = Ok (t, rest', gi') -> length rest' <= length rest.
Proof.
  unfold term, bindParsed. intros Hrec H.
  parse_cases H; use_lengths Hrec; done_length.
Qed.

(** [term] calls its parser of group bodies on the input after the
    parenthesis only. *)
Lemma term_ext rec1 rec2 ncap c rest gi :
  (forall inp g, length inp <= length rest -> rec1 inp g = rec2 inp g) ->
  term rec1 ncap c rest gi = term rec2 ncap c rest gi.
Proof.
  intros Hrec. unfold term.
  assert (Hg : forall inp g,
             length inp <= length rest ->
             groupBody rec1 inp g = groupBody rec2 inp g).
  { intros inp g Hlen. unfold groupBody. now rewrite Hrec. }
  ascii_cases c; try reflexivity.
  destruct rest as [|c2 rest2]; [now rewrite Hg|].
  ascii_cases c2; try (rewrite Hg by done_length; reflexivity).
  destruct rest2 as [|c3 rest3]; [reflexivity|].
  ascii_cases c3; try reflexivity; rewrite Hg by done_length; reflexivity.
Qed.

(** [disjunction] leaves no more input than it is given, and gives the
    same result whatever the fuel, once it exceeds the length of the
    input. *)
Lemma disjunction_fuel ncap :
  forall fuel1,
    (forall inp gi a more rest gi',
        disjunction fuel1 ncap inp gi = Ok (a, more, rest, gi') ->
        length rest <= length inp) /\
    (forall fuel2 inp gi,
        length inp < fuel1 -> length inp < fuel2 ->
        disjunction fuel1 ncap inp gi = disjunction fuel2 ncap inp gi).
Proof.
  induction fuel1 as [|fuel1 [IHlen IHfuel]].
  { split; [discriminate | intros; lia]. }
  assert (Hlen : forall inp gi a more rest gi',
             disjunction (S fuel1) ncap inp gi = Ok (a, more, rest, gi') ->
             length rest <= length inp).
  { intros inp gi a more rest gi' H. cbn [disjunction] in H.
    destruct inp as [|c inp]; [inversion H; done_length|].
    assert (Hterm : bindParsed (term (disjunction fuel1 ncap) ncap c inp gi)
                      (fun x => let '(t, rest', gi'0) := x in
                         bindParsed (disjunction fuel1 ncap rest' gi'0)
                           (fun y => let '(a0, more0, rest'', gi'') := y in
                              Ok (Seq t a0, more0, rest'', gi'')))
                    = Ok (a, more, rest, gi') ->
                    length rest <= length (c :: inp)).
    { unfold bindParsed. intros Ht.
      destruct (term (disjunction fuel1 ncap) ncap c inp gi)
        as [[[t r1] g1]|] eqn:Hte; [|discriminate].
      apply term_length in Hte; [|intros; eapply IHlen; eassumption].
      destruct (disjunction fuel1 ncap r1 g1) as [[[[a0 m0] r2] g2]|] eqn:Hd;
        [|discriminate].
      apply IHlen in Hd. inversion Ht. done_length. }
    ascii_cases c; try exact (Hterm H).
    - inversion H. done_length.
    - unfold bindParsed in H.
      destruct (disjunction fuel1 ncap inp gi) as [[[[a0 m0] r2] g2]|] eqn:Hd;
        [|discriminate].
      apply IHlen in Hd. inversion H. done_length. }
  split; [exact Hlen|].
  intros fuel2 inp gi H1 H2. destruct fuel2 as [|fuel2]; [lia|].
  cbn [disjunction].
  destruct inp as [|c inp]; [reflexivity|]. cbn [length] in H1, H2.
  assert (Hterm : bindParsed (term (disjunction fuel1 ncap) ncap c inp gi)
                    (fun x => let '(t, rest', gi'0) := x in
                       bindParsed (disjunction fuel1 ncap rest' gi'0)
                         (fun y => let '(a0, more0, rest'', gi'') := y in
                            Ok (Seq t a0, more0, rest'', gi'')))
                  = bindParsed (term (disjunction fuel2 ncap) ncap c inp gi)
                    (fun x => let '(t, rest', gi'0) := x in
                       bindParsed (disjunction fuel2 ncap rest' gi'0)
                         (fun y => let '(a0, more0, rest'', gi'') := y in
                            Ok (Seq t a0, more0, rest'', gi'')))).
  { rewrite (term_ext (disjunction fuel1 ncap) (disjunction fuel2 ncap))
      by (intros; apply IHfuel; lia).
    unfold bindParsed.
    destruct (term (disjunction fuel2 ncap) ncap c inp gi)
      as [[[t r1] g1]|] eqn:Hte; [|reflexivity].
    rewrite <- (term_ext (disjunction fuel1 ncap) (disjunction fuel2 ncap))
      in Hte by (intros; apply IHfuel; lia).
    apply term_length in Hte; [|intros; eapply IHlen; eassumption].
    rewrite (IHfuel fuel2 r1 g1) by lia. reflexivity. }
  ascii_cases c; try exact Hterm; try reflexivity.
  rewrite (IHfuel fuel2 inp gi) by lia. reflexivity.
Qed.

(** The fuel [compile] gives the parser is enough: more of it changes
    nothing. *)
Lemma compile_fuel pattern extra :
  let inp := JSString.chars pattern in
  disjunction (S (length inp) + extra) (countCaptures false inp) inp 0
  = disjunction (S (length inp)) (countCaptures false inp) inp 0.
Proof.
  cbv zeta. apply disjunction_fuel; lia.
Qed.

End PatternFuel.

Section JSONFuel.

Import JSON.

Lemma skipWhiteSpace_length inp :
  length (skipWhiteSpace inp) <= length inp.
Proof.
  induction inp as [|c inp IH]; cbn [skipWhiteSpace]; [lia|].
  destruct (isWhiteSpace c); done_length.
Qed.

Lemma digits_length inp : length (snd (digits inp)) <= length inp.
Proof.
  induction inp as [|c inp IH]; cbn [digits]; [done_length|].
  destruct (isDigit c); [|done_length].
  destruct (digits inp). done_length.
Qed.

Ltac use_digits :=
  repeat match goal with
    | H : digits ?i = (_, _) |- _ =>
        let L := fresh "L" in
        pose proof (digits_length i) as L; rewrite H in L; clear H
    end.

Lemma number_length inp n rest :
  number inp = Some (n, rest) -> length rest < length inp.
Proof.
  unfold number. intros H.
  parse_cases H; use_digits; done_length.
Qed.

Lemma stringCharacters_length :
  forall n inp s rest,
    length inp <= n ->
    stringCharacters inp = Some (s, rest) -> length rest < length inp.
Proof.
  induction n as [|n IH]; intros inp s rest Hn H.
  - destruct inp; [discriminate | cbn in Hn; lia].
  - destruct inp as [|c inp]; [discriminate|].
    cbn [stringCharacters] in H. cbn [length] in Hn.
    parse_cases H;
      repeat match goal with
        | E : stringCharacters _ = Some _ |- _ =>
            apply IH in E; [|done_length]
        end; done_length.
Qed.

Lemma literal_length word inp rest :
  0 < String.length word -> inp <> [] ->
  literal word inp = Some rest -> length rest < length inp.
Proof.
  unfold literal. intros Hw Hi H.
  destruct (JSString.startsWith inp (JSString.chars word)); [|discriminate].
  inversion H. rewrite length_skipn.
  destruct inp; [congruence | cbn [length]; lia].
Qed.

Ltac use_white :=
  repeat match goal with
    | H : skipWhiteSpace ?i = _ |- _ =>
        let L := fresh "L" in
        pose proof (skipWhiteSpace_length i) as L; rewrite H in L; clear H
    end.

Ltac use_strings :=
  repeat match goal with
    | H : stringCharacters _ = Some _ |- _ =>
        apply (stringCharacters_length _ _ _ _ (Nat.le_refl _)) in H
    | H : number _ = Some _ |- _ => apply number_length in H
    | H : literal _ _ = Some _ |- _ =>
        apply literal_length in H; [| cbn; lia | discriminate]
    end.

Lemma member_length v inp m rest :
  (forall i val r, length i <= length inp ->
                   v i = Some (val, r) -> length r < length i) ->
  member v inp = Some (m, rest) -> length rest < length inp.
Proof.
  unfold member. intros Hv H.
  parse_cases H. use_white. use_strings.
  match goal with
  | E : v _ = Some _ |- _ => apply Hv in E; done_length
  end.
Qed.

Lemma member_ext v1 v2 inp :
  (forall i, length i < length inp -> v1 i = v2 i) ->
  member v1 inp = member v2 inp.
Proof.
  unfold member. intros Hv.
  destruct (skipWhiteSpace inp) as [|c w] eqn:E; [reflexivity|].
  ascii_cases c; try reflexivity.
  destruct (stringCharacters w) as [[key r1]|] eqn:Es; [|reflexivity].
  destruct (skipWhiteSpace r1) as [|c2 w2] eqn:E2; [reflexivity|].
  ascii_cases c2; try reflexivity.
  rewrite Hv; [reflexivity|]. use_white. use_strings. done_length.
Qed.

Lemma elements_length v :
  forall fuel inp vs rest,
    (forall i val r, length i <= length inp ->
                     v i = Some (val, r) -> length r < length i) ->
    elements fuel v inp = Some (vs, rest) -> length rest < length inp.
Proof.
  induction fuel as [|fuel IH]; intros inp vs rest Hv H; [discriminate|].
  cbn [elements] in H.
  destruct (skipWhiteSpace inp) as [|c w] eqn:E; [discriminate|].
  use_white.
  assert (Hnext : forall vs0,
             match v w with
             | Some (v0, rest') =>
                 match elements fuel v rest' with
                 | Some (vs1, rest'') => Some (v0 :: vs1, rest'')
                 | None => None
                 end
             | None => None
             end = Some (vs0, rest) -> length rest < length inp).
  { intros vs0 H0.
    destruct (v w) as [[v0 r1]|] eqn:Ev; [|discriminate].
    apply Hv in Ev; [|done_length].
    destruct (elements fuel v r1) as [[vs1 r2]|] eqn:Ee; [|discriminate].
    apply IH in Ee; [|intros; eapply Hv; [|eassumption]; done_length].
    inversion H0. done_length. }
  ascii_cases c; try discriminate H; try exact (Hnext _ H).
  inversion H. done_length.
Qed.

Lemma elements_fuel v1 v2 :
  forall fuel1 fuel2 inp,
    length inp < fuel1 -> length inp < fuel2 ->
    (forall i val r, length i <= length inp ->
                     v1 i = Some (val, r) -> length r < length i) ->
    (forall i, length i < length inp -> v1 i = v2 i) ->
    elements fuel1 v1 inp = elements fuel2 v2 inp.
Proof.
  induction fuel1 as [|fuel1 IH]; intros fuel2 inp H1 H2 Hv Hext; [lia|].
  destruct fuel2 as [|fuel2]; [lia|]. cbn [elements].
  destruct (skipWhiteSpace inp) as [|c w] eqn:E; [reflexivity|].
  use_white.
  assert (Hnext : match v1 w with
                  | Some (v0, rest') =>
                      match elements fuel1 v1 rest' with
                      | Some (vs1, rest'') => Some (v0 :: vs1, rest'')
                      | None => None
                      end
                  | None => None
                  end
                  = match v2 w with
                    | Some (v0, rest') =>
                        match elements fuel2 v2 rest' with
                        | Some (vs1, rest'') => Some (v0 :: vs1, rest'')
                        | None => None
                        end
                    | None => None
                    end).
  { rewrite <- Hext by done_length.
    destruct (v1 w) as [[v0 r1]|] eqn:Ev; [|reflexivity].
    apply Hv in Ev; [|done_length].
    rewrite (IH fuel2 r1); [reflexivity | done_length | done_length | |].
    - intros; eapply Hv; [|eassumption]. done_length.
    - intros; apply Hext. done_length. }
  ascii_cases c; try reflexivity; exact Hnext.
Qed.

Lemma members_length v :
  forall fuel inp ms rest,
    (forall i val r, length i <= length inp ->
                     v i = Some (val, r) -> length r < length i) ->
    members fuel v inp = Some (ms, rest) -> length rest < length inp.
Proof.
  induction fuel as [|fuel IH]; intros inp ms rest Hv H; [discriminate|].
  cbn [members] in H.
  destruct (skipWhiteSpace inp) as [|c w] eqn:E; [discriminate|].
  use_white.
  assert (Hnext : forall ms0,
             match member v w with
             | Some (m0, rest') =>
                 match members fuel v rest' with
                 | Some (ms1, rest'') => Some (m0 :: ms1, rest'')
                 | None => None
                 end
             | None => None
             end = Some (ms0, rest) -> length rest < length inp).
  { intros ms0 H0.
    destruct (member v w) as [[m0 r1]|] eqn:Ev; [|discriminate].
    apply member_length in Ev;
      [|intros; eapply Hv; [|eassumption]; done_length].
    destruct (members fuel v r1) as [[ms1 r2]|] eqn:Ee; [|discriminate].
    apply IH in Ee; [|intros; eapply Hv; [|eassumption]; done_length].
    inversion H0. done_length. }
  ascii_cases c; try discriminate H; try exact (Hnext _ H).
  inversion H. done_length.
Qed.

Lemma members_fuel v1 v2 :
  forall fuel1 fuel2 inp,
    length inp < fuel1 -> length inp < fuel2 ->
    (forall i val r, length i <= length inp ->
                     v1 i = Some (val, r) -> length r < length i) ->
    (forall i, length i < length inp -> v1 i = v2 i) ->
    members fuel1 v1 inp = members fuel2 v2 inp.
Proof.
  induction fuel1 as [|fuel1 IH]; intros fuel2 inp H1 H2 Hv Hext; [lia|].
  destruct fuel2 as [|fuel2]; [lia|]. cbn [members].
  destruct (skipWhiteSpace inp) as [|c w] eqn:E; [reflexivity|].
  use_white.
  assert (Hnext : match member v1 w with
                  | Some (m0, rest') =>
                      match members fuel1 v1 rest' with
                      | Some (ms1, rest'') => Some (m0 :: ms1, rest'')
                      | None => None
                      end
                  | None => None
                  end
                  = match member v2 w with
                    | Some (m0, rest') =>
                        match members fuel2 v2 rest' with
                        | Some (ms1, rest'') => Some (m0 :: ms1, rest'')
                        | None => None
                        end
                    | None => None
                    end).
  { rewrite <- (member_ext v1 v2) by (intros; apply Hext; done_length).
    destruct (member v1 w) as [[m0 r1]|] eqn:Ev; [|reflexivity].
    apply member_length in Ev;
      [|intros; eapply Hv; [|eassumption]; done_length].
    rewrite (IH fuel2 r1); [reflexivity | done_length | done_length | |].
    - intros; eapply Hv; [|eassumption]. done_length.
    - intros; apply Hext. done_length. }
  ascii_cases c; try reflexivity; exact Hnext.
Qed.

(** A value takes at least one character. *)
Lemma value_length :
  forall fuel inp val rest,
    value fuel inp = Some (val, rest) -> length rest < length inp.
Proof.
  induction fuel as [|fuel IH]; intros inp val rest H; [discriminate|].
  cbn [value] in H. unfold option_map in H.
  assert (Hv : forall n i val0 r,
             length i <= n -> value fuel i = Some (val0, r) ->
             length r < length i) by (intros; eapply IH; eassumption).
  parse_cases H; use_strings;
    repeat match goal with
      | E : value fuel _ = Some _ |- _ => apply IH in E
      | E : elements fuel _ _ = Some _ |- _ =>
          apply elements_length in E; [|apply Hv]
      | E : member _ _ = Some _ |- _ =>
          apply member_length in E; [|apply Hv]
      | E : members fuel _ _ = Some _ |- _ =>
          apply members_length in E; [|apply Hv]
      end;
    use_white; done_length.
Qed.

(** [value] gives the same result whatever the fuel, once it exceeds the
    length of the input: the fuel [parse] gives it is enough. *)
Lemma value_fuel :
  forall fuel1 fuel2 inp,
    length inp < fuel1 -> length inp < fuel2 ->
    value fuel1 inp = value fuel2 inp.
Proof.
  induction fuel1 as [|fuel1 IH]; intros fuel2 inp H1 H2; [lia|].
  destruct fuel2 as [|fuel2]; [lia|]. cbn [value].
  assert (Hv : forall n i val0 r,
             length i <= n -> value fuel1 i = Some (val0, r) ->
             length r < length i) by (intros; eapply value_length; eassumption).
  destruct (skipWhiteSpace inp) as [|c w] eqn:E; [reflexivity|].
  use_white.
  assert (Harray : forall r,
             length r <= length w ->
             match value fuel1 r with
             | Some (v, rest'') =>
                 match elements fuel1 (value fuel1) rest'' with
                 | Some (vs, rest3) => Some (VArray (v :: vs), rest3)
                 | None => None
                 end
             | None => None
             end
             = match value fuel2 r with
               | Some (v, rest'') =>
                   match elements fuel2 (value fuel2) rest'' with
                   | Some (vs, rest3) => Some (VArray (v :: vs), rest3)
                   | None => None
                   end
               | None => None
               end).
  { intros r Hr. rewrite <- (IH fuel2 r) by done_length.
    destruct (value fuel1 r) as [[v r1]|] eqn:Ev; [|reflexivity].
    apply value_length in Ev.
    rewrite (elements_fuel (value fuel1) (value fuel2) fuel1 fuel2 r1);
      [reflexivity | done_length | done_length | apply Hv |].
    intros; apply IH; done_length. }
  assert (Hobject : forall r,
             length r <= length w ->
             match member (value fuel1) r with
             | Some (m, rest'') =>
                 match members fuel1 (value fuel1) rest'' with
                 | Some (ms, rest3) => Some (VObject (m :: ms), rest3)
                 | None => None
                 end
             | None => None
             end
             = match member (value fuel2) r with
               | Some (m, rest'') =>
                   match members fuel2 (value fuel2) rest'' with
                   | Some (ms, rest3) => Some (VObject (m :: ms), rest3)
                   | None => None
                   end
               | None => None
               end).
  { intros r Hr.
    rewrite <- (member_ext (value fuel1) (value fuel2))
      by (intros; apply IH; done_length).
    destruct (member (value fuel1) r) as [[m r1]|] eqn:Ev; [|reflexivity].
    apply member_length in Ev; [|apply Hv].
    rewrite (members_fuel (value fuel1) (value fuel2) fuel1 fuel2 r1);
      [reflexivity | done_length | done_length | apply Hv |].
    intros; apply IH; done_length. }
  ascii_cases c; try reflexivity;
    (destruct (skipWhiteSpace w) as [|c2 w2] eqn:E2;
     [ first [apply Harray | apply Hobject]; done_length |];
     use_white;
     ascii_cases c2; try reflexivity;
     first [apply Harray | apply Hobject]; done_length).
Qed.

Lemma parse_fuel text extra :
  let inp := JSString.chars text in
  value (S (length inp) + extra) inp = value (S (length inp)) inp.
Proof. cbv zeta. apply value_fuel; lia. Qed.

End JSONFuel.

(** ** The matcher reads forward, and its fuel is enough *)

Lemma Extends_refl x : Extends x x.
Proof. split; lia. Qed.

Lemma Extends_trans x y z : Extends x y -> Extends y z -> Extends x z.
Proof. unfold Extends. lia. Qed.

Lemma Extends_captures x y caps :
  Extends x y -> Extends x (RegExp.withCaptures y caps).
Proof. intros H. exact H. Qed.

Lemma advance_Extends x c y : RegExp.advance x = Some (c, y) -> Extends x y.
Proof.
  unfold RegExp.advance. destruct x as [i p rest caps]. cbn.
  destruct rest as [|d rest]; [discriminate|]. intros [= <- <-].
  unfold Extends. cbn. lia.
Qed.

Lemma advanceBy_Extends n : forall x y, RegExp.advanceBy n x = Some y -> Extends x y.
Proof.
  induction n as [|n IH]; intros x y; cbn.
  - intros [= <-]. apply Extends_refl.
  - destruct (RegExp.advance x) as [[c z]|] eqn:E; [|discriminate].
    intros H. eapply Extends_trans; [eapply advance_Extends; eassumption | now apply IH].
Qed.

Lemma RepeatMatcher_Extends m parens greedy :
  (forall x y, In y (m x) -> Extends x y) ->
  forall fuel min max x y,
    In y (RegExp.RepeatMatcher m parens fuel min max greedy x) -> Extends x y.
Proof.
  intros Hm. induction fuel as [|fuel IH]; intros min max x y; cbn [RegExp.RepeatMatcher].
  - intros [].
  - assert (Hiter : In y (flat_map
               (fun y0 => if Nat.eqb min 0 && Nat.eqb (RegExp.endIndex y0) (RegExp.endIndex x)
                          then []
                          else RegExp.RepeatMatcher m parens fuel (pred min) (RegExp.decr max) greedy y0)
               (m (RegExp.withCaptures x (RegExp.clearCaptures parens (RegExp.captures x))))) ->
             Extends x y).
    { intros H. apply in_flat_map in H as (z & Hz & Hy).
      apply Hm in Hz.
      destruct (Nat.eqb min 0 && Nat.eqb (RegExp.endIndex z) (RegExp.endIndex x));
        [destruct Hy|]. apply IH in Hy. eapply Extends_trans; eassumption. }
    destruct max as [[|max]|].
    + intros [<-|[]]. apply Extends_refl.
    + destruct (Nat.eqb min 0); cbn [negb]; [|exact Hiter].
      destruct greedy.
      * intros H. apply in_app_or in H as [H|[<-|[]]]; [now apply Hiter | apply Extends_refl].
      * intros [<-|H]; [apply Extends_refl | now apply Hiter].
    + destruct (Nat.eqb min 0); cbn [negb]; [|exact Hiter].
      destruct greedy.
      * intros H. apply in_app_or in H as [H|[<-|[]]]; [now apply Hiter | apply Extends_refl].
      * intros [<-|H]; [apply Extends_refl | now apply Hiter].
Qed.

(** The matcher only reads forward. *)
Lemma run_Extends r : forall x y, In y (RegExp.run r x) -> Extends x y.
Proof.
  induction r as [|A invert|a IHa b IHb|a IHa b IHb|a IHa min max greedy
                 |n a IHa|n| | |negated|negated a IHa]; intros x y; cbn [RegExp.run].
  - intros [<-|[]]. apply Extends_refl.
  - destruct (RegExp.advance x) as [[c z]|] eqn:E; [|intros []].
    destruct (xorb _ _); [|intros []]. intros [<-|[]]. eapply advance_Extends; eassumption.
  - intros H. apply in_flat_map in H as (z & Hz & Hy).
    eapply Extends_trans; [apply IHa | apply IHb]; eassumption.
  - intros H. apply in_app_or in H as [H|H]; [now apply IHa | now apply IHb].
  - apply RepeatMatcher_Extends. exact IHa.
  - intros H. apply in_map_iff in H as (z & <- & Hz). apply IHa in Hz. exact Hz.
  - destruct (RegExp.getCapture _ _) as [s|]; [|intros [<-|[]]; apply Extends_refl].
    destruct (RegExp.ciPrefix _ _); [|intros []].
    destruct (RegExp.advanceBy _ _) as [z|] eqn:E; [|intros []].
    intros [<-|[]]. eapply advanceBy_Extends; eassumption.
  - destruct (Nat.eqb _ _); [intros [<-|[]]; apply Extends_refl | intros []].
  - destruct (RegExp.remaining x); [intros [<-|[]]; apply Extends_refl | intros []].
  - destruct (xorb _ _); [intros [<-|[]]; apply Extends_refl | intros []].
  - destruct (RegExp.run a x) as [|z zs]; destruct negated; cbn [In];
      intros H; repeat (destruct H as [<-|H]; [split; cbn; lia|]); destruct H.
Qed.

Lemma flat_map_ext_In {A B} (f g : A -> list B) l :
  (forall a, In a l -> f a = g a) -> flat_map f l = flat_map g l.
Proof.
  induction l as [|a l IH]; intros H; cbn; [reflexivity|].
  rewrite (H a) by now left. rewrite IH; [reflexivity|].
  intros b Hb. apply H. now right.
Qed.

(** More fuel than [min] plus the length of the input left changes nothing:
    the fuel [run] gives [RepeatMatcher] never runs out. *)
Lemma RepeatMatcher_fuel m parens greedy :
  (forall x y, In y (m x) -> Extends x y) ->
  forall fuel1 fuel2 min max x,
    min + length (RegExp.remaining x) < fuel1 ->
    min + length (RegExp.remaining x) < fuel2 ->
    RegExp.RepeatMatcher m parens fuel1 min max greedy x =
    RegExp.RepeatMatcher m parens fuel2 min max greedy x.
Proof.
  intros Hm. induction fuel1 as [|fuel1 IH]; intros fuel2 min max x H1 H2; [lia|].
  destruct fuel2 as [|fuel2]; [lia|]. cbn [RegExp.RepeatMatcher].
  set (xr := RegExp.withCaptures x (RegExp.clearCaptures parens (RegExp.captures x))).
  assert (Heq : flat_map
            (fun y => if Nat.eqb min 0 && Nat.eqb (RegExp.endIndex y) (RegExp.endIndex x)
                      then []
                      else RegExp.RepeatMatcher m parens fuel1 (pred min) (RegExp.decr max) greedy y)
            (m xr) =
          flat_map
            (fun y => if Nat.eqb min 0 && Nat.eqb (RegExp.endIndex y) (RegExp.endIndex x)
                      then []
                      else RegExp.RepeatMatcher m parens fuel2 (pred min) (RegExp.decr max) greedy y)
            (m xr)).
  { apply flat_map_ext_In. intros y Hy. apply Hm in Hy. destruct Hy as [Hle Hsum].
    change (RegExp.endIndex xr) with (RegExp.endIndex x) in *.
    change (RegExp.remaining xr) with (RegExp.remaining x) in *.
    destruct (Nat.eqb_spec min 0) as [->|Hmin]; cbn [andb].
    - destruct (Nat.eqb_spec (RegExp.endIndex y) (RegExp.endIndex x)); [reflexivity|].
      apply IH; cbn; lia.
    - apply IH; lia. }
  now rewrite Heq.
Qed.

Lemma run_quantifier_fuel a min max greedy x extra :
  RegExp.run (RegExp.Quant a min max greedy) x =
  RegExp.RepeatMatcher (RegExp.run a) (RegExp.groupsOf a)
    (min + length (RegExp.remaining x) + 1 + extra) min max greedy x.
Proof.
  cbn [RegExp.run]. apply RepeatMatcher_fuel; [apply run_Extends | lia | lia].
Qed.

(** ** The matcher on literal characters and on [[^c]*] *)

Lemma last_nonempty {A} (y : A) l d d' : last (y :: l) d = last (y :: l) d'.
Proof.
  revert y. induction l as [|z l IH]; intros y; [reflexivity|].
  change (last (z :: l) d = last (z :: l) d'). apply IH.
Qed.

Lemma last_app_default {A} (l1 l2 : list A) d :
  last (l1 ++ l2) d = last l2 (last l1 d).
Proof.
  induction l1 as [|x l1 IH]; [reflexivity|].
  destruct l1 as [|y l1].
  - destruct l2 as [|z l2]; [reflexivity|]. cbn [app].
    change (last (z :: l2) d = last (z :: l2) x). apply last_nonempty.
  - change (last ((y :: l1) ++ l2) d = last l2 (last (y :: l1) d)). apply IH.
Qed.

Lemma lastOf_app a w p : lastOf (a ++ w) p = lastOf w (lastOf a p).
Proof. unfold lastOf. rewrite map_app. apply last_app_default. Qed.

Lemma lastOf_cons d w p : lastOf (d :: w) p = lastOf w (Some d).
Proof. exact (lastOf_app [d] w p). Qed.

Lemma run_lit c i p input caps :
  RegExp.run (RegExp.lit c) (RegExp.mkState i p input caps) =
  match input with
  | d :: rest =>
      if RegExp.ciEqual c d then [RegExp.mkState (S i) (Some d) rest caps] else []
  | [] => []
  end.
Proof.
  destruct input as [|d rest]; [reflexivity|].
  unfold RegExp.lit.
  cbn [RegExp.run RegExp.advance RegExp.remaining RegExp.endIndex RegExp.captures].
  now rewrite CharSetMatches_single, xorb_false_r.
Qed.

Lemma repeat_skip c y fuel :
  forall input i p caps,
    length input < fuel ->
    In y (RegExp.RepeatMatcher
            (RegExp.run (RegExp.Char [RegExp.AChar (JSString.code c)] true))
            [] fuel 0 None true (RegExp.mkState i p input caps)) <->
    exists a rest,
      input = a ++ rest /\ Forall (fun d => RegExp.ciEqual c d = false) a /\
      y = RegExp.mkState (i + length a) (lastOf a p) rest caps.
Proof.
  induction fuel as [|fuel IH]; intros input i p caps Hlen; [lia|].
  cbn [RegExp.RepeatMatcher]. unfold RegExp.withCaptures. cbn [RegExp.captures
    RegExp.endIndex RegExp.previous RegExp.remaining].
  rewrite clearCaptures_nil. cbn [Nat.eqb negb andb].
  destruct input as [|d input].
  - cbn. split.
    + intros [<-|[]]. exists [], []. cbn. rewrite Nat.add_0_r. repeat split. constructor.
    + intros (a & rest & Happ & _ & ->).
      symmetry in Happ. apply app_eq_nil in Happ as [-> ->]. cbn.
      rewrite Nat.add_0_r. now left.
  - cbn [RegExp.run RegExp.advance RegExp.remaining RegExp.endIndex RegExp.captures].
    rewrite CharSetMatches_single.
    destruct (RegExp.ciEqual c d) eqn:E; cbn [xorb negb flat_map app].
    + split.
      * intros [<-|[]]. exists [], (d :: input). cbn. rewrite Nat.add_0_r.
        repeat split. constructor.
      * intros (a & rest & Happ & Hall & ->). destruct a as [|x a].
        -- cbn in *. subst rest. rewrite Nat.add_0_r. now left.
        -- cbn in Happ. injection Happ as <- _. inversion Hall; congruence.
    + cbn [RegExp.endIndex]. rewrite (proj2 (Nat.eqb_neq (S i) i)) by lia.
      rewrite app_nil_r, in_app_iff. cbn in Hlen.
      rewrite (IH input (S i) (Some d) caps) by lia. split.
      * intros [(a & rest & -> & Hall & ->)|[<-|[]]].
        -- exists (d :: a), rest. cbn [app length]. rewrite lastOf_cons.
           repeat split; [now constructor|]. f_equal. lia.
        -- exists [], (d :: input). cbn. rewrite Nat.add_0_r. repeat split. constructor.
      * intros (a & rest & Happ & Hall & ->). destruct a as [|x a].
        -- right. cbn in *. subst rest. rewrite Nat.add_0_r. now left.
        -- left. cbn in Happ. injection Happ as <- ->.
           exists a, rest. inversion Hall; subst. rewrite lastOf_cons.
           repeat split; [assumption|]. cbn [length]. f_equal. lia.
Qed.

Lemma run_skip c y i p input caps :
  In y (RegExp.run (Template.regexOf (Template.Skip c)) (RegExp.mkState i p input caps)) <->
  exists a rest,
    input = a ++ rest /\ Forall (fun d => RegExp.ciEqual c d = false) a /\
    y = RegExp.mkState (i + length a) (lastOf a p) rest caps.
Proof.
  cbn [Template.regexOf RegExp.run RegExp.groupsOf RegExp.remaining].
  apply repeat_skip. lia.
Qed.

Lemma run_build items r y :
  forall i p input caps,
    In y (RegExp.run (Template.build items r) (RegExp.mkState i p input caps)) <->
    exists w rest,
      input = w ++ rest /\ Template.Spans items w /\
      In y (RegExp.run r (RegExp.mkState (i + length w) (lastOf w p) rest caps)).
Proof.
  induction items as [|it items IH]; intros i p input caps.
  - cbn [Template.build fold_right Template.Spans]. split.
    + intros H. exists [], input. cbn. rewrite Nat.add_0_r. now repeat split.
    + intros (w & rest & -> & -> & H). cbn in H. now rewrite Nat.add_0_r in H.
  - change (Template.build (it :: items) r)
      with (RegExp.Seq (Template.regexOf it) (Template.build items r)).
    cbn [RegExp.run]. rewrite in_flat_map. destruct it as [c|c].
    + cbn [Template.regexOf Template.Spans]. split.
      * intros (z & Hz & Hy). rewrite run_lit in Hz.
        destruct input as [|d input]; [destruct Hz|].
        destruct (RegExp.ciEqual c d) eqn:E; [|destruct Hz].
        destruct Hz as [<-|[]]. apply IH in Hy as (w & rest & -> & Hs & Hy).
        exists (d :: w), rest. rewrite lastOf_cons. cbn [app length].
        replace (i + S (length w)) with (S i + length w) by lia.
        repeat split; [|assumption]. now exists d, w.
      * intros (w & rest & -> & (d & w' & -> & E & Hs) & Hy).
        exists (RegExp.mkState (S i) (Some d) (w' ++ rest) caps). split.
        -- rewrite run_lit. cbn. rewrite E. now left.
        -- apply IH. exists w', rest. rewrite lastOf_cons in Hy. cbn [length] in Hy.
           replace (i + S (length w')) with (S i + length w') in Hy by lia.
           now repeat split.
    + cbn [Template.Spans]. split.
      * intros (z & Hz & Hy). apply run_skip in Hz as (a & rest0 & -> & Hall & ->).
        apply IH in Hy as (w & rest & -> & Hs & Hy).
        exists (a ++ w), rest. rewrite <- app_assoc, lastOf_app, length_app, Nat.add_assoc.
        repeat split; [|assumption]. now exists a, w.
      * intros (w & rest & -> & (a & w' & -> & Hall & Hs) & Hy).
        exists (RegExp.mkState (i + length a) (lastOf a p) (w' ++ rest) caps). split.
        -- apply run_skip. exists a, (w' ++ rest). now rewrite <- app_assoc.
        -- apply IH. exists w', rest.
           rewrite lastOf_app, length_app, Nat.add_assoc in Hy. now repeat split.
Qed.

(** ** Searching for a match *)

Lemma search_first r j y :
  forall input i p,
    RegExp.search r i p input = Some (j, y) <->
    exists pre suf ys,
      input = pre ++ suf /\ j = i + length pre /\
      RegExp.run r (stateAt i p pre suf) = y :: ys /\
      forall pre' suf',
        input = pre' ++ suf' -> length pre' < length pre ->
        RegExp.run r (stateAt i p pre' suf') = [].
Proof.
  unfold stateAt.
  induction input as [|c input IH]; intros i p; cbn [RegExp.search].
  - destruct (RegExp.run r (RegExp.mkState i p [] [])) as [|y0 ys0] eqn:E; split.
    + discriminate.
    + intros (pre & suf & ys & Happ & _ & Hrun & _).
      symmetry in Happ. apply app_eq_nil in Happ as [-> ->].
      cbn in Hrun. rewrite Nat.add_0_r in Hrun. congruence.
    + intros [= <- <-]. exists [], [], ys0. cbn. rewrite Nat.add_0_r.
      repeat split; [assumption|]. intros pre' suf' _ Hlt. cbn in Hlt. lia.
    + intros (pre & suf & ys & Happ & -> & Hrun & _).
      symmetry in Happ. apply app_eq_nil in Happ as [-> ->].
      cbn in Hrun. rewrite Nat.add_0_r in *. congruence.
  - destruct (RegExp.run r (RegExp.mkState i p (c :: input) [])) as [|y0 ys0] eqn:E.
    + rewrite IH. split.
      * intros (pre & suf & ys & -> & -> & Hrun & Hmin).
        exists (c :: pre), suf, ys. rewrite lastOf_cons. cbn [app length].
        replace (i + S (length pre)) with (S i + length pre) by lia.
        repeat split; [assumption|].
        intros pre' suf' Happ Hlt. destruct pre' as [|c' pre'].
        -- cbn in *. subst suf'. now rewrite Nat.add_0_r.
        -- cbn in Happ. injection Happ as -> Happ. rewrite lastOf_cons.
           cbn [length] in *.
           replace (i + S (length pre')) with (S i + length pre') by lia.
           apply Hmin; [assumption | lia].
      * intros (pre & suf & ys & Happ & -> & Hrun & Hmin).
        destruct pre as [|c' pre].
        -- cbn in *. subst suf. rewrite Nat.add_0_r in Hrun. congruence.
        -- cbn in Happ. injection Happ as <- ->.
           exists pre, suf, ys. rewrite lastOf_cons in Hrun. cbn [length] in *.
           replace (i + S (length pre)) with (S i + length pre) in * by lia.
           repeat split; [assumption|].
           intros pre' suf' Happ Hlt.
           specialize (Hmin (c :: pre') suf'). rewrite lastOf_cons in Hmin.
           cbn [length app] in Hmin.
           replace (i + S (length pre')) with (S i + length pre') in Hmin by lia.
           apply Hmin; [now rewrite Happ | lia].
    + split.
      * intros [= <- <-]. exists [], (c :: input), ys0. cbn. rewrite Nat.add_0_r.
        repeat split; [assumption|]. intros pre' suf' _ Hlt. cbn in Hlt. lia.
      * intros (pre & suf & ys & Happ & -> & Hrun & Hmin).
        destruct pre as [|c' pre].
        -- cbn in *. subst suf. rewrite Nat.add_0_r in *. congruence.
        -- specialize (Hmin [] (c :: input) eq_refl). cbn in Hmin.
           rewrite Nat.add_0_r in Hmin. rewrite Hmin in E by lia. discriminate.
Qed.

Lemma search_some r :
  forall input i p,
    RegExp.search r i p input <> None <->
    exists pre suf,
      input = pre ++ suf /\ RegExp.run r (stateAt i p pre suf) <> [].
Proof.
  unfold stateAt.
  induction input as [|c input IH]; intros i p; cbn [RegExp.search].
  - destruct (RegExp.run r (RegExp.mkState i p [] [])) as [|y0 ys0] eqn:E; split.
    + congruence.
    + intros (pre & suf & Happ & Hrun).
      symmetry in Happ. apply app_eq_nil in Happ as [-> ->].
      cbn in Hrun. rewrite Nat.add_0_r in Hrun. congruence.
    + intros _. exists [], []. cbn. rewrite Nat.add_0_r, E. split; [reflexivity|discriminate].
    + discriminate.
  - destruct (RegExp.run r (RegExp.mkState i p (c :: input) [])) as [|y0 ys0] eqn:E.
    + rewrite IH. split.
      * intros (pre & suf & -> & Hrun).
        exists (c :: pre), suf. rewrite lastOf_cons. cbn [app length].
        replace (i + S (length pre)) with (S i + length pre) by lia. now split.
      * intros (pre & suf & Happ & Hrun). destruct pre as [|c' pre].
        -- cbn in *. subst suf. rewrite Nat.add_0_r in Hrun. congruence.
        -- cbn in Happ. injection Happ as <- ->.
           exists pre, suf. rewrite lastOf_cons in Hrun. cbn [length] in *.
           replace (i + S (length pre)) with (S i + length pre) in * by lia.
           now split.
    + split; [|discriminate].
      intros _. exists [], (c :: input). cbn. rewrite Nat.add_0_r, E.
      split; [reflexivity|discriminate].
Qed.

Lemma test_true r s :
  RegExp.test r s = true <->
  exists pre suf,
    JSString.chars s = pre ++ suf /\ RegExp.run r (stateAt 0 None pre suf) <> [].
Proof.
  rewrite <- search_some. unfold RegExp.test, RegExp.exec.
  destruct (RegExp.search r 0 None (JSString.chars s)) as [[i y]|]; split;
    congruence.
Qed.

Lemma nonempty_In {A} (l : list A) : l <> [] <-> exists y, In y l.
Proof.
  destruct l as [|x l]; split.
  - congruence.
  - intros [y []].
  - intros _. exists x. now left.
  - discriminate.
Qed.

(** A pattern made of literal characters and [[^c]*] is found where its
    template spans a part of the body. *)
Lemma test_build items s :
  RegExp.test (Template.build items RegExp.Empty) s = true <->
  exists pre w suf,
    JSString.chars s = pre ++ w ++ suf /\ Template.Spans items w.
Proof.
  rewrite test_true. unfold stateAt. split.
  - intros (pre & suf & Hs & Hrun). apply nonempty_In in Hrun as [y Hy].
    apply run_build in Hy as (w & rest & -> & Hsp & _). now exists pre, w, rest.
  - intros (pre & w & suf & Hs & Hsp). exists pre, (w ++ suf). split; [assumption|].
    apply nonempty_In. eexists. apply run_build. exists w, suf.
    repeat split; [assumption|]. cbn. now left.
Qed.

(** ** Templates *)

Lemma Spans_app i1 i2 w :
  Template.Spans (i1 ++ i2) w <->
  exists w1 w2, w = w1 ++ w2 /\ Template.Spans i1 w1 /\ Template.Spans i2 w2.
Proof.
  revert w. induction i1 as [|it i1 IH]; intros w.
  - cbn. split.
    + intros H. now exists [], w.
    + intros (w1 & w2 & -> & -> & H). exact H.
  - destruct it as [c|c]; cbn [app Template.Spans]; split.
    + intros (d & w' & -> & E & H). apply IH in H as (w1 & w2 & -> & H1 & H2).
      exists (d :: w1), w2. repeat split; [|assumption]. now exists d, w1.
    + intros (w1 & w2 & -> & (d & w' & -> & E & H1) & H2).
      exists d, (w' ++ w2). repeat split; [assumption|]. apply IH. now exists w', w2.
    + intros (a & w' & -> & Ha & H). apply IH in H as (w1 & w2 & -> & H1 & H2).
      exists (a ++ w1), w2. rewrite app_assoc. repeat split; [|assumption].
      now exists a, w1.
    + intros (w1 & w2 & -> & (a & w' & -> & Ha & H1) & H2).
      exists a, (w' ++ w2). rewrite app_assoc. repeat split; [assumption|].
      apply IH. now exists w', w2.
Qed.

Lemma Spans_lits s w :
  Template.Spans (Template.lits s) w <->
  Forall2 (fun x y => RegExp.ciEqual x y = true) (JSString.chars s) w.
Proof.
  unfold Template.lits. generalize (JSString.chars s) as l. intros l. revert w.
  induction l as [|c l IH]; intros w; cbn [map Template.Spans]; split.
  - intros ->. constructor.
  - intros H. now inversion H.
  - intros (d & w' & -> & E & H). constructor; [assumption | now apply IH].
  - intros H. inversion H as [|x y l' w' E H']; subst.
    exists y, w'. repeat split; [assumption | now apply IH].
Qed.

Lemma Spans_skip c w :
  Template.Spans [Template.Skip c] w <->
  Forall (fun d => RegExp.ciEqual c d = false) w.
Proof.
  cbn. split.
  - intros (a & w' & -> & Ha & ->). now rewrite app_nil_r.
  - intros H. exists w, []. now rewrite app_nil_r.
Qed.

(** The brackets and the quote have no other case. *)
Lemma ciEqual_caseless c d :
  In c ["<"%char; ">"%char; "034"%char] ->
  RegExp.ciEqual c d = Ascii.eqb c d.
Proof.
  intros [<-|[<-|[<-|[]]]];
    destruct d as [[] [] [] [] [] [] [] []]; vm_compute; reflexivity.
Qed.

Lemma Forall_caseless c w :
  In c ["<"%char; ">"%char; "034"%char] ->
  Forall (fun d => RegExp.ciEqual c d = false) w <-> ~ In c w.
Proof.
  intros Hc. rewrite Forall_forall. split.
  - intros H Hin. specialize (H c Hin). rewrite ciEqual_caseless in H by assumption.
    now rewrite Ascii.eqb_refl in H.
  - intros H d Hd. rewrite ciEqual_caseless by assumption.
    apply Ascii.eqb_neq. intros ->. contradiction.
Qed.

Lemma Forall2_caseless c w :
  In c ["<"%char; ">"%char; "034"%char] ->
  Forall2 (fun x y => RegExp.ciEqual x y = true) [c] w <-> w = [c].
Proof.
  intros Hc. split.
  - intros H. inversion H as [|x y l l' E H']; subst. inversion H'; subst.
    rewrite ciEqual_caseless in E by assumption. apply Ascii.eqb_eq in E. now subst.
  - intros ->. constructor; [|constructor].
    rewrite ciEqual_caseless by assumption. apply Ascii.eqb_refl.
Qed.

(** ** Strings and their characters *)

Lemma chars_app (a b : string) :
  JSString.chars (a ++ b)%string = JSString.chars a ++ JSString.chars b.
Proof.
  unfold JSString.chars. induction a as [|c a IH]; cbn; [reflexivity|].
  now rewrite IH.
Qed.

Lemma chars_of_list l : JSString.chars (string_of_list_ascii l) = l.
Proof. apply list_ascii_of_string_of_list_ascii. Qed.

Lemma of_list_chars s : string_of_list_ascii (JSString.chars s) = s.
Proof. apply string_of_list_ascii_of_string. Qed.

Lemma chars_inj a b : JSString.chars a = JSString.chars b -> a = b.
Proof.
  intros H. rewrite <- (of_list_chars a), <- (of_list_chars b). now f_equal.
Qed.

Lemma chars_length s : length (JSString.chars s) = String.length s.
Proof. unfold JSString.chars. induction s; cbn; congruence. Qed.

(** ** The parser on templates *)

Lemma quantifier_plain c rest :
  isSyntaxCharacter c = false ->
  RegExp.quantifier (c :: rest) = RegExp.Ok (None, c :: rest) /\
  RegExp.lazySuffix (c :: rest) = (true, c :: rest).
Proof.
  destruct c as [[] [] [] [] [] [] [] []]; intros H;
    try discriminate H; split; reflexivity.
Qed.

Lemma disjunction_plain fuel ncap c rest gi :
  isSyntaxCharacter c = false ->
  RegExp.quantifier rest = RegExp.Ok (None, rest) ->
  RegExp.disjunction (S fuel) ncap (c :: rest) gi =
  thenSeq (RegExp.lit c) (RegExp.disjunction fuel ncap rest gi).
Proof.
  intros Hc Hq.
  destruct c as [[] [] [] [] [] [] [] []]; try discriminate Hc;
    cbn [RegExp.disjunction RegExp.term]; unfold RegExp.quantified;
    rewrite Hq; reflexivity.
Qed.

Lemma disjunction_skip fuel ncap c rest gi :
  In c ["<"%char; ">"%char; "034"%char] ->
  RegExp.lazySuffix rest = (true, rest) ->
  RegExp.disjunction (S fuel) ncap
    ("["%char :: "^"%char :: c :: "]"%char :: "*"%char :: rest) gi =
  thenSeq (Template.regexOf (Template.Skip c)) (RegExp.disjunction fuel ncap rest gi).
Proof.
  intros [<-|[<-|[<-|[]]]] Hl;
    cbn [RegExp.disjunction RegExp.term RegExp.characterClass RegExp.classRanges
         length RegExp.classAtom RegExp.bindParsed Ascii.eqb Bool.eqb];
    unfold RegExp.quantified; cbn [RegExp.quantifier]; rewrite Hl; reflexivity.
Qed.

Lemma render_ahead items :
  Forall goodItem items ->
  RegExp.quantifier (Template.render items) = RegExp.Ok (None, Template.render items) /\
  RegExp.lazySuffix (Template.render items) = (true, Template.render items).
Proof.
  intros H. destruct H as [|it items Hit _]; [now split|].
  destruct it as [c|c]; cbn [Template.render flat_map Template.textOf app].
  - now apply quantifier_plain.
  - now split.
Qed.

Lemma disjunction_render items :
  Forall goodItem items ->
  forall fuel ncap gi,
    length (Template.render items) < fuel ->
    RegExp.disjunction fuel ncap (Template.render items) gi =
    RegExp.Ok (Template.build items RegExp.Empty, None, [], gi).
Proof.
  induction 1 as [|it items Hit Hitems IH]; intros fuel ncap gi Hlen.
  - destruct fuel; [cbn in Hlen; lia | reflexivity].
  - destruct fuel as [|fuel]; [lia|].
    destruct (render_ahead items Hitems) as [Hq Hl].
    assert (Hlen' : length (Template.render items) < fuel).
    { change (Template.render (it :: items))
        with (Template.textOf it ++ Template.render items) in Hlen.
      rewrite length_app in Hlen. destruct it; cbn in Hlen; lia. }
    change (Template.render (it :: items))
      with (Template.textOf it ++ Template.render items).
    destruct it as [c|c]; cbn [Template.textOf app].
    + rewrite disjunction_plain by assumption. rewrite IH by assumption. reflexivity.
    + rewrite disjunction_skip by assumption. rewrite IH by assumption. reflexivity.
Qed.

Lemma compile_render items pattern :
  Forall goodItem items ->
  JSString.chars pattern = Template.render items ->
  RegExp.compile pattern = RegExp.Ok (Template.build items RegExp.Empty).
Proof.
  intros Hgood Hp. unfold RegExp.compile. rewrite Hp.
  rewrite disjunction_render by (assumption || lia). reflexivity.
Qed.

(** ** The three patterns of an element check *)

Lemma render_lits s : Template.render (Template.lits s) = JSString.chars s.
Proof.
  unfold Template.render, Template.lits.
  induction (JSString.chars s) as [|c l IH]; cbn; congruence.
Qed.

Lemma render_app i1 i2 :
  Template.render (i1 ++ i2) = Template.render i1 ++ Template.render i2.
Proof. apply flat_map_app. Qed.

Lemma good_lits s : plainToken s = true -> Forall goodItem (Template.lits s).
Proof.
  unfold plainToken, Template.lits. rewrite forallb_forall, Forall_forall.
  intros H it Hit. apply in_map_iff in Hit as (c & <- & Hc).
  cbn. apply negb_true_iff. now apply H.
Qed.

Lemma good_skip c :
  In c ["<"%char; ">"%char; "034"%char] -> Forall goodItem [Template.Skip c].
Proof. intros H. constructor; [exact H | constructor]. Qed.

Ltac good :=
  repeat (apply Forall_app; split);
  first [ apply good_lits; (assumption || reflexivity)
        | apply good_skip; cbn; tauto ].

Ltac rendered :=
  rewrite ?render_app, ?render_lits, ?chars_app; reflexivity.

Lemma classPattern_compiles token :
  plainToken token = true ->
  newRegExp (classPattern token) =
  Normal (Template.build (Template.classItems token) RegExp.Empty).
Proof.
  intros H. unfold newRegExp.
  rewrite (compile_render (Template.classItems token)); [reflexivity| |].
  - unfold Template.classItems. good.
  - unfold classPattern, Template.classItems. rendered.
Qed.

Lemma idPattern_compiles token :
  plainToken token = true ->
  newRegExp (idPattern token) =
  Normal (Template.build (Template.idItems token) RegExp.Empty).
Proof.
  intros H. unfold newRegExp.
  rewrite (compile_render (Template.idItems token)); [reflexivity| |].
  - unfold Template.idItems. good.
  - unfold idPattern, Template.idItems. rendered.
Qed.

Lemma tagPattern_compiles token :
  plainToken token = true ->
  newRegExp (tagPattern token) =
  Normal (Template.build (Template.tagItems token) RegExp.Empty).
Proof.
  intros H. unfold newRegExp.
  rewrite (compile_render (Template.tagItems token)); [reflexivity| |].
  - unfold Template.tagItems. good.
  - unfold tagPattern, Template.tagItems. rendered.
Qed.

Ltac spans :=
  repeat match goal with
    | H : Template.Spans (_ ++ _) _ |- _ =>
        apply Spans_app in H as (? & ? & -> & ? & ?)
    | H : Template.Spans (Template.lits _) _ |- _ => apply Spans_lits in H
    | H : Template.Spans [Template.Skip _] _ |- _ =>
        apply Spans_skip, Forall_caseless in H; [|cbn; tauto]
    | H : Forall2 _ (JSString.chars "<") _ |- _ =>
        apply (Forall2_caseless "<") in H; [subst|cbn; tauto]
    | H : Forall2 _ (JSString.chars ">") _ |- _ =>
        apply (Forall2_caseless ">") in H; [subst|cbn; tauto]
    | H : Forall2 _ (JSString.chars DQ) _ |- _ =>
        apply (Forall2_caseless "034") in H; [subst|cbn; tauto]
    end.

Lemma Spans_char c :
  In c ["<"%char; ">"%char; "034"%char] ->
  Template.Spans (Template.lits (String c EmptyString)) [c].
Proof. intros H. apply Spans_lits. now apply Forall2_caseless. Qed.

Lemma Spans_without c s :
  In c ["<"%char; ">"%char; "034"%char] ->
  without c s -> Template.Spans [Template.Skip c] (JSString.chars s).
Proof. intros Hc H. apply Spans_skip. now apply Forall_caseless. Qed.

Ltac strings :=
  apply chars_inj; repeat rewrite ?chars_app, ?chars_of_list;
  cbn [JSString.chars list_ascii_of_string DQ];
  repeat rewrite <- ?app_assoc; cbn [app]; try assumption; try reflexivity.

Lemma classPattern_occurs html token :
  (exists pre w suf,
      JSString.chars html = pre ++ w ++ suf /\
      Template.Spans (Template.classItems token) w) <->
  ClassPatternOccurs html token.
Proof.
  unfold Template.classItems, ClassPatternOccurs. split.
  - intros (pre & w & suf & Hhtml & Hs).
    apply Spans_app in Hs as (w1 & r1 & -> & H1 & Hs).
    apply Spans_app in Hs as (w2 & r2 & -> & H2 & Hs).
    apply Spans_app in Hs as (w3 & r3 & -> & H3 & Hs).
    apply Spans_app in Hs as (w4 & r4 & -> & H4 & Hs).
    apply Spans_app in Hs as (w5 & r5 & -> & H5 & Hs).
    apply Spans_app in Hs as (w6 & w7 & -> & H6 & H7).
    spans.
    exists (string_of_list_ascii pre), (string_of_list_ascii w2),
      (string_of_list_ascii w3), (string_of_list_ascii w4),
      (string_of_list_ascii w5), (string_of_list_ascii w6),
      (string_of_list_ascii suf).
    unfold sameLetters, without. rewrite !chars_of_list.
    repeat split; try assumption.
    strings. rewrite Hhtml. repeat rewrite <- ?app_assoc. reflexivity.
  - intros (before & attrs & key & left & tok & right & rest & -> & Ha & Hk & Hl & Ht & Hr).
    exists (JSString.chars before),
      ("<"%char :: JSString.chars attrs ++ JSString.chars key ++ JSString.chars left
                ++ JSString.chars tok ++ JSString.chars right ++ ["034"%char]),
      (JSString.chars rest).
    split.
    + rewrite !chars_app. cbn. repeat rewrite <- ?app_assoc. reflexivity.
    + apply Spans_app. exists ["<"%char]. eexists. split; [reflexivity|].
      split; [apply (Spans_char "<"); cbn; tauto|].
      apply Spans_app. do 2 eexists. split; [reflexivity|].
      split; [apply Spans_without; [cbn; tauto | assumption]|].
      apply Spans_app. do 2 eexists. split; [reflexivity|].
      split; [apply Spans_lits; exact Hk|].
      apply Spans_app. do 2 eexists. split; [reflexivity|].
      split; [apply Spans_without; [cbn; tauto | assumption]|].
      apply Spans_app. do 2 eexists. split; [reflexivity|].
      split; [apply Spans_lits; exact Ht|].
      apply Spans_app. do 2 eexists. split; [reflexivity|].
      split; [apply Spans_without; [cbn; tauto | assumption]|].
      apply (Spans_char "034"); cbn; tauto.
Qed.

Lemma idPattern_occurs html token :
  (exists pre w suf,
      JSString.chars html = pre ++ w ++ suf /\
      Template.Spans (Template.idItems token) w) <->
  IdPatternOccurs html token.
Proof.
  unfold Template.idItems, IdPatternOccurs. split.
  - intros (pre & w & suf & Hhtml & Hs).
    apply Spans_app in Hs as (w1 & r1 & -> & H1 & Hs).
    apply Spans_app in Hs as (w2 & r2 & -> & H2 & Hs).
    apply Spans_app in Hs as (w3 & r3 & -> & H3 & Hs).
    apply Spans_app in Hs as (w4 & w5 & -> & H4 & H5).
    spans.
    exists (string_of_list_ascii pre), (string_of_list_ascii w2),
      (string_of_list_ascii w3), (string_of_list_ascii w4),
      (string_of_list_ascii suf).
    unfold sameLetters, without. rewrite !chars_of_list.
    repeat split; try assumption.
    strings. rewrite Hhtml. repeat rewrite <- ?app_assoc. reflexivity.
  - intros (before & attrs & key & tok & rest & -> & Ha & Hk & Ht).
    exists (JSString.chars before),
      ("<"%char :: JSString.chars attrs ++ JSString.chars key
                ++ JSString.chars tok ++ ["034"%char]),
      (JSString.chars rest).
    split.
    + rewrite !chars_app. cbn. repeat rewrite <- ?app_assoc. reflexivity.
    + apply Spans_app. exists ["<"%char]. eexists. split; [reflexivity|].
      split; [apply (Spans_char "<"); cbn; tauto|].
      apply Spans_app. do 2 eexists. split; [reflexivity|].
      split; [apply Spans_without; [cbn; tauto | assumption]|].
      apply Spans_app. do 2 eexists. split; [reflexivity|].
      split; [apply Spans_lits; exact Hk|].
      apply Spans_app. do 2 eexists. split; [reflexivity|].
      split; [apply Spans_lits; exact Ht|].
      apply (Spans_char "034"); cbn; tauto.
Qed.

Lemma tagPattern_occurs html token :
  (exists pre w suf,
      JSString.chars html = pre ++ w ++ suf /\
      Template.Spans (Template.tagItems token) w) <->
  TagPatternOccurs html token.
Proof.
  unfold Template.tagItems, TagPatternOccurs. split.
  - intros (pre & w & suf & Hhtml & Hs).
    apply Spans_app in Hs as (w1 & r1 & -> & H1 & Hs).
    apply Spans_app in Hs as (w2 & r2 & -> & H2 & Hs).
    apply Spans_app in Hs as (w3 & w4 & -> & H3 & H4).
    spans.
    exists (string_of_list_ascii pre), (string_of_list_ascii w2),
      (string_of_list_ascii w3), (string_of_list_ascii suf).
    unfold sameLetters, without. rewrite !chars_of_list.
    repeat split; try assumption.
    strings. rewrite Hhtml. repeat rewrite <- ?app_assoc. reflexivity.
  - intros (before & tok & attrs & rest & -> & Ht & Ha).
    exists (JSString.chars before),
      ("<"%char :: JSString.chars tok ++ JSString.chars attrs ++ [">"%char]),
      (JSString.chars rest).
    split.
    + rewrite !chars_app. cbn. repeat rewrite <- ?app_assoc. reflexivity.
    + apply Spans_app. exists ["<"%char]. eexists. split; [reflexivity|].
      split; [apply (Spans_char "<"); cbn; tauto|].
      apply Spans_app. do 2 eexists. split; [reflexivity|].
      split; [apply Spans_lits; exact Ht|].
      apply Spans_app. do 2 eexists. split; [reflexivity|].
      split; [apply Spans_without; [cbn; tauto | assumption]|].
      apply (Spans_char ">"); cbn; tauto.
Qed.

(** ** Substrings *)

Lemma startsWith_true s sub :
  JSString.startsWith s sub = true <-> exists r, s = sub ++ r.
Proof.
  revert s. induction sub as [|p sub IH]; intros s; cbn.
  - split; [intros _; now exists s | reflexivity].
  - destruct s as [|c s]; split.
    + discriminate.
    + intros [r H]. discriminate H.
    + intros H. apply andb_true_iff in H as [Hp Hs]. apply Ascii.eqb_eq in Hp as ->.
      apply IH in Hs as [r ->]. now exists r.
    + intros [r H]. injection H as -> ->. rewrite Ascii.eqb_refl. cbn.
      apply IH. now exists r.
Qed.

Lemma includes_chars_true s sub :
  JSString.includes_chars s sub = true <-> exists l r, s = l ++ sub ++ r.
Proof.
  induction s as [|c s IH]; cbn [JSString.includes_chars].
  - rewrite orb_false_r, startsWith_true. split.
    + intros [r H]. now exists [], r.
    + intros (l & r & H). destruct l as [|x l]; [now exists r | discriminate H].
  - rewrite orb_true_iff, startsWith_true, IH. split.
    + intros [[r H]|(l & r & H)].
      * now exists [], r.
      * exists (c :: l), r. now rewrite H.
    + intros (l & r & H). destruct l as [|x l].
      * left. now exists r.
      * right. injection H as -> ->. now exists l, r.
Qed.

(** [includes] holds exactly of the texts in which the argument occurs. *)
Lemma includes_true s sub :
  JSString.includes s sub = true <-> occursIn sub s.
Proof.
  unfold JSString.includes, occursIn. rewrite includes_chars_true. split.
  - intros (l & r & H). exists (string_of_list_ascii l), (string_of_list_ascii r).
    apply chars_inj. now rewrite !chars_app, !chars_of_list.
  - intros (l & r & ->). exists (JSString.chars l), (JSString.chars r).
    now rewrite !chars_app.
Qed.

(** ** The pattern of a title check *)

Lemma titlePattern_compiles : newRegExp titlePattern = Normal titleRegex.
Proof. reflexivity. Qed.

Lemma firstn_exact {A} (w rest : list A) n :
  n = length w -> firstn n (w ++ rest) = w.
Proof.
  intros ->. rewrite <- (Nat.add_0_r (length w)), firstn_app_2. cbn.
  apply app_nil_r.
Qed.

(** Where the title pattern matches, and what its group captures. *)
Lemma run_title y i p input :
  In y (RegExp.run titleRegex (RegExp.mkState i p input [])) <->
  exists o text c rest,
    input = o ++ text ++ c ++ rest /\
    Template.Spans openingItems o /\ ~ In "<"%char text /\
    Template.Spans closingItems c /\
    y = RegExp.mkState (i + length o + length text + length c)
                       (lastOf c (lastOf text (lastOf o p))) rest [(1, text)].
Proof.
  unfold titleRegex. rewrite run_build. split.
  - intros (o & rest1 & -> & Ho & Hy).
    cbn [RegExp.run] in Hy. apply in_flat_map in Hy as (z & Hz & Hy).
    apply in_map_iff in Hz as (y0 & <- & Hy0).
    apply run_build in Hy0 as (text & rest2 & Hrest & Ht & Hy0).
    cbn [RegExp.run In] in Hy0. destruct Hy0 as [<-|[]].
    cbn [RegExp.remaining] in Hrest. subst rest1.
    unfold RegExp.withCaptures in Hy.
    cbn [RegExp.endIndex RegExp.previous RegExp.remaining RegExp.captures] in Hy.
    rewrite firstn_exact in Hy by lia.
    apply run_build in Hy as (c & rest & -> & Hc & Hy).
    cbn [RegExp.run In] in Hy. destruct Hy as [<-|[]].
    exists o, text, c, rest. repeat split; try assumption.
    apply Spans_skip, Forall_caseless in Ht; [assumption | cbn; tauto].
  - intros (o & text & c & rest & -> & Ho & Ht & Hc & ->).
    exists o, (text ++ c ++ rest). repeat split; [assumption|].
    cbn [RegExp.run]. apply in_flat_map.
    exists (RegExp.mkState (i + length o + length text) (lastOf text (lastOf o p))
                           (c ++ rest) [(1, text)]).
    split.
    + apply in_map_iff.
      exists (RegExp.mkState (i + length o + length text) (lastOf text (lastOf o p))
                             (c ++ rest) []).
      split.
      * unfold RegExp.withCaptures.
        cbn [RegExp.endIndex RegExp.previous RegExp.remaining RegExp.captures].
        rewrite firstn_exact by lia. reflexivity.
      * apply run_build. exists text, (c ++ rest). repeat split.
        -- apply Spans_skip, Forall_caseless; [cbn; tauto | assumption].
        -- cbn. now left.
    + apply run_build. exists c, rest. repeat split; [assumption|]. cbn. now left.
Qed.

(** A decomposition of the body is a title match exactly when the template
    of the pattern spans its parts. *)
Lemma titleMatch_spans html before text :
  TitleMatch html before text <->
  exists o c rest,
    JSString.chars html =
      JSString.chars before ++ o ++ JSString.chars text ++ c ++ rest /\
    Template.Spans openingItems o /\ ~ In "<"%char (JSString.chars text) /\
    Template.Spans closingItems c.
Proof.
  unfold TitleMatch, openingItems, closingItems. split.
  - intros (opening & attrs & closing & rest & -> & Ho & Ha & Ht & Hc).
    exists (JSString.chars opening ++ JSString.chars attrs ++ [">"%char]),
      (JSString.chars closing), (JSString.chars rest).
    repeat split.
    + rewrite !chars_app. cbn. repeat rewrite <- ?app_assoc. reflexivity.
    + apply Spans_app. do 2 eexists. split; [reflexivity|].
      split; [apply Spans_lits; exact Ho|].
      apply Spans_app. do 2 eexists. split; [reflexivity|].
      split; [apply Spans_without; [cbn; tauto | assumption]|].
      apply (Spans_char ">"); cbn; tauto.
    + exact Ht.
    + apply Spans_lits. exact Hc.
  - intros (o & c & rest & Hhtml & Ho & Ht & Hc).
    apply Spans_app in Ho as (w1 & r1 & -> & H1 & Ho).
    apply Spans_app in Ho as (w2 & w3 & -> & H2 & H3).
    spans.
    exists (string_of_list_ascii w1), (string_of_list_ascii w2),
      (string_of_list_ascii c), (string_of_list_ascii rest).
    unfold sameLetters, without. rewrite !chars_of_list.
    repeat split; try assumption.
    strings. rewrite Hhtml. repeat rewrite <- ?app_assoc. reflexivity.
Qed.

Lemma app_same_length {A} (a b x y : list A) :
  length a = length b -> a ++ x = b ++ y -> a = b /\ x = y.
Proof.
  revert b. induction a as [|u a IH]; intros [|v b] Hlen H; try discriminate Hlen.
  - now split.
  - injection H as -> H. injection Hlen as Hlen.
    destruct (IH b Hlen H) as [-> ->]. now split.
Qed.

Lemma split_unique {A} (c : A) a1 a2 x1 x2 :
  ~ In c a1 -> ~ In c a2 -> a1 ++ c :: x1 = a2 ++ c :: x2 -> a1 = a2 /\ x1 = x2.
Proof.
  revert a2. induction a1 as [|u a1 IH]; intros [|v a2] H1 H2 H.
  - injection H as ->. now split.
  - injection H as -> _. exfalso. apply H2. now left.
  - injection H as -> _. exfalso. apply H1. now left.
  - injection H as -> H.
    destruct (IH a2) as [-> ->]; [ | | assumption | now split].
    + intros Hin. apply H1. now right.
    + intros Hin. apply H2. now right.
Qed.

Lemma Forall2_same_length {A B} (R : A -> B -> Prop) l1 l2 :
  Forall2 R l1 l2 -> length l1 = length l2.
Proof. induction 1; cbn; congruence. Qed.

(** From a given position the title pattern captures one text only. *)
Lemma title_text_unique o1 t1 c1 r1 o2 t2 c2 r2 :
  o1 ++ t1 ++ c1 ++ r1 = o2 ++ t2 ++ c2 ++ r2 ->
  Template.Spans openingItems o1 -> Template.Spans openingItems o2 ->
  ~ In "<"%char t1 -> ~ In "<"%char t2 ->
  Template.Spans closingItems c1 -> Template.Spans closingItems c2 ->
  t1 = t2.
Proof.
  unfold openingItems, closingItems. intros H Ho1 Ho2 Ht1 Ht2 Hc1 Hc2.
  apply Spans_app in Ho1 as (w1 & r & -> & Hw1 & Ho1).
  apply Spans_app in Ho1 as (a1 & g1 & -> & Ha1 & Hg1).
  apply Spans_app in Ho2 as (w2 & r & -> & Hw2 & Ho2).
  apply Spans_app in Ho2 as (a2 & g2 & -> & Ha2 & Hg2).
  spans.
  apply Forall2_same_length in Hw1, Hw2.
  repeat rewrite <- app_assoc in H.
  apply app_same_length in H as [_ H]; [|congruence].
  cbn [app] in H. apply split_unique in H as [_ H]; [|assumption|assumption].
  inversion Hc1 as [|x d1 l c1' E1 _]; subst.
  inversion Hc2 as [|x d2 l c2' E2 _]; subst.
  rewrite ciEqual_caseless in E1, E2 by (cbn; tauto).
  apply Ascii.eqb_eq in E1, E2. subst d1 d2.
  cbn [app] in H. now apply split_unique in H as [H _].
Qed.

Lemma exec_title html :
  match RegExp.exec titleRegex html with
  | None =>
      forall before text, ~ TitleMatch html before text
  | Some m =>
      exists text,
        RegExp.group m 1 = Some text /\ FirstTitleMatch html text
  end.
Proof.
  unfold RegExp.exec.
  destruct (RegExp.search titleRegex 0 None (JSString.chars html))
    as [[j y]|] eqn:E.
  - apply search_first in E as (pre & suf & ys & Hhtml & -> & Hrun & Hmin).
    assert (Hy : In y (RegExp.run titleRegex (stateAt 0 None pre suf)))
      by (rewrite Hrun; now left).
    apply run_title in Hy as (o & text & c & rest & -> & Ho & Ht & Hc & ->).
    exists (string_of_list_ascii text). split; [reflexivity|].
    exists (string_of_list_ascii pre). split.
    + apply titleMatch_spans. exists o, c, rest. rewrite !chars_of_list.
      now repeat split.
    + intros before' text' H'.
      apply titleMatch_spans in H' as (o' & c' & rest' & Hhtml' & Ho' & Ht' & Hc').
      rewrite <- !chars_length, chars_of_list.
      destruct (Nat.le_gt_cases (length pre) (length (JSString.chars before')))
        as [Hle|Hgt]; [assumption|exfalso].
      specialize (Hmin _ _ Hhtml' Hgt).
      assert (Hin : In (RegExp.mkState
                          (0 + length (JSString.chars before') + length o'
                           + length (JSString.chars text') + length c')
                          (lastOf c' (lastOf (JSString.chars text')
                             (lastOf o' (lastOf (JSString.chars before') None))))
                          rest' [(1, JSString.chars text')])
                       (RegExp.run titleRegex
                          (stateAt 0 None (JSString.chars before')
                                   (o' ++ JSString.chars text' ++ c' ++ rest')))).
      { apply run_title. exists o', (JSString.chars text'), c', rest'.
        now repeat split. }
      rewrite Hmin in Hin. destruct Hin.
  - intros before text H.
    apply titleMatch_spans in H as (o & c & rest & Hhtml & Ho & Ht & Hc).
    assert (Hsome : RegExp.search titleRegex 0 None (JSString.chars html) <> None).
    { apply search_some. exists (JSString.chars before), (o ++ JSString.chars text ++ c ++ rest).
      split; [assumption|]. apply nonempty_In. eexists. apply run_title.
      exists o, (JSString.chars text), c, rest. now repeat split. }
    congruence.
Qed.

Lemma firstTitleMatch_unique html text1 text2 :
  FirstTitleMatch html text1 -> FirstTitleMatch html text2 -> text1 = text2.
Proof.
  intros (b1 & H1 & M1) (b2 & H2 & M2).
  pose proof (M1 _ _ H2) as L1. pose proof (M2 _ _ H1) as L2.
  apply titleMatch_spans in H1 as (o1 & c1 & r1 & E1 & Ho1 & Ht1 & Hc1).
  apply titleMatch_spans in H2 as (o2 & c2 & r2 & E2 & Ho2 & Ht2 & Hc2).
  rewrite E1 in E2. apply app_same_length in E2 as [_ E2];
    [|rewrite !chars_length; lia].
  apply chars_inj. eapply title_text_unique; eassumption.
Qed.

Local Open Scope string_scope.

Lemma without_computed c s :
  existsb (Ascii.eqb c) (JSString.chars s) = false -> without c s.
Proof.
  intros H Hin. apply not_true_iff_false in H. apply H.
  apply existsb_exists. exists c. split; [assumption | apply Ascii.eqb_refl].
Qed.

(** ** Element checks *)

(** C2, as stated, fails: the tag pattern accepts a tag whose name merely
    begins with the token.  The body [<html>] has no class, no id and no tag
    named [h], yet the element check for [h] is found. *)
Lemma element_check_accepts_longer_tag_name :
  elementFound "<html>" "h" = Normal true /\
  Markup.elementPresent "<html>" "h" = false.
Proof. split; vm_compute; reflexivity. Qed.

(** C2, amended.  For a token without regular-expression syntax characters
    the element check never throws, and it is found exactly when one of the
    three patterns occurs in the body, letters compared without regard to
    case: a [<], text without [>], [class=] and a quote, and up to the next
    quote a text that contains the token; or a [<], text without [>], [id=],
    the token between quotes; or a [<] followed at once by the token, text
    without [>], and a [>]. *)
Theorem element_check_on_plain_token (html token : string) :
  plainToken token = true ->
  (exists b, elementFound html token = Normal b) /\
  (elementFound html token = Normal true <->
   ClassPatternOccurs html token \/ IdPatternOccurs html token
   \/ TagPatternOccurs html token).
Proof.
  intros Hplain. unfold elementFound.
  rewrite classPattern_compiles, idPattern_compiles, tagPattern_compiles
    by assumption.
  split; [eexists; reflexivity|].
  rewrite <- classPattern_occurs, <- idPattern_occurs, <- tagPattern_occurs.
  rewrite <- !test_build. split.
  - intros [= H]. apply orb_true_iff in H as [H|H]; [|now right; right].
    apply orb_true_iff in H as [H|H]; [now left | now right; left].
  - intros [H|[H|H]]; rewrite H; now rewrite ?orb_true_r.
Qed.

Lemma element_check_on_plain_token_witness :
  exists b, elementFound "<html>" "stats-grid" = Normal b.
Proof.
  apply (element_check_on_plain_token "<html>" "stats-grid"). reflexivity.
Defined.

(** ** Title checks *)

Lemma titleFound_exec html v :
  match RegExp.exec titleRegex html with
  | None => titleFound html v = Normal false
  | Some m =>
      exists text, RegExp.group m 1 = Some text /\
                   titleFound html v = Normal (JSString.includes text v)
  end.
Proof.
  unfold titleFound. rewrite titlePattern_compiles. cbv beta iota.
  pose proof (exec_title html) as H.
  destruct (RegExp.exec titleRegex html) as [m|]; [|reflexivity].
  destruct H as (text & Hg & _). exists text. now rewrite Hg.
Qed.

Lemma titleFound_returns html v : exists b, titleFound html v = Normal b.
Proof.
  pose proof (titleFound_exec html v) as H.
  destruct (RegExp.exec titleRegex html) as [m|].
  - destruct H as (text & _ & ->). eexists. reflexivity.
  - eexists. eassumption.
Qed.

(** C4.  The title check never throws.  It is found exactly when the body
    has a title match ([<title], attributes, [>], a text without [<],
    [</title>], the tag names in either case) and the text of the first such
    match contains the expected text, code unit for code unit.  So a first
    title of "Future Agent - Cannabis Industry Knowledge" satisfies the
    expected text "Cannabis Industry Knowledge", whatever the case of the
    tags, and does not satisfy the same words in lower case. *)
Theorem title_check_finds_expected_text (html value : string) :
  (exists b, titleFound html value = Normal b) /\
  (titleFound html value = Normal true <->
   exists text, FirstTitleMatch html text /\ occursIn value text) /\
  (FirstTitleMatch html "Future Agent - Cannabis Industry Knowledge" ->
   titleFound html "Cannabis Industry Knowledge" = Normal true /\
   titleFound html "cannabis industry knowledge" = Normal false) /\
  titleFound "<HTML><TITLE>Future Agent - Cannabis Industry Knowledge</TITLE></HTML>"
             "Cannabis Industry Knowledge" = Normal true.
Proof.
  pose proof (titleFound_exec html) as Hfound.
  assert (Hiff : forall v,
             titleFound html v = Normal true <->
             exists text, FirstTitleMatch html text /\ occursIn v text).
  { intros v. specialize (Hfound v). pose proof (exec_title html) as H.
    destruct (RegExp.exec titleRegex html) as [m|].
    - destruct H as (text & Hg & Hfirst). destruct Hfound as (text' & Hg' & ->).
      assert (text' = text) by congruence. subst text'. split.
      + intros [= Hinc]. exists text. split; [assumption|]. now apply includes_true.
      + intros (text2 & H2 & Hocc).
        rewrite (firstTitleMatch_unique _ _ _ Hfirst H2).
        f_equal. now apply includes_true.
    - rewrite Hfound. split; [discriminate|].
      intros (text & (before & Hm & _) & _). exfalso. eapply H. eassumption. }
  split; [|split; [|split]].
  - apply titleFound_returns.
  - apply Hiff.
  - intros Hfirst. split.
    + apply Hiff. eexists. split; [eassumption|].
      exists "Future Agent - ", EmptyString. reflexivity.
    + specialize (Hfound "cannabis industry knowledge").
      pose proof (exec_title html) as H.
      destruct (RegExp.exec titleRegex html) as [m|].
      * destruct H as (text & Hg & Hfirst'). destruct Hfound as (text' & Hg' & ->).
        assert (text' = text) by congruence. subst text'.
        rewrite (firstTitleMatch_unique _ _ _ Hfirst' Hfirst). reflexivity.
      * assumption.
  - reflexivity.
Qed.

Lemma title_check_finds_expected_text_witness :
  titleFound "<title>Future Agent - Cannabis Industry Knowledge</title>"
             "Cannabis Industry Knowledge" = Normal true.
Proof.
  destruct (title_check_finds_expected_text
              "<title>Future Agent - Cannabis Industry Knowledge</title>"
              "Cannabis Industry Knowledge") as (_ & _ & H & _).
  apply H. exists EmptyString. split.
  - exists "<title", EmptyString, "</title>", EmptyString.
    split; [reflexivity|]. split; [repeat constructor|].
    split; [intros []|]. split; [|repeat constructor].
    apply without_computed. reflexivity.
  - intros before' text' _. apply Nat.le_0_l.
Defined.

(** ** JSON checks *)

Lemma jsonFound_unparsable body key :
  JSON.parse body = None -> jsonFound body key = false.
Proof. unfold jsonFound. now intros ->. Qed.

Lemma jsonFound_object body key members :
  JSON.parse body = Some (JSON.VObject members) ->
  JSON.hasKey (JSString.units "hasOwnProperty") members = false ->
  jsonFound body key = JSON.hasKey (JSString.units key) members.
Proof. unfold jsonFound, JSON.hasOwnProperty. intros -> H. now rewrite H. Qed.

Lemma jsonFound_examples :
  jsonFound countedBody "total_questions" = true /\
  jsonFound resultsBody "total_questions" = false /\
  jsonFound "not json" "total_questions" = false.
Proof. repeat split; vm_compute; reflexivity. Qed.

(** C3.  The body parses to an object that has the key [total_questions],
    and the check does not find it: the object also has a member named
    [hasOwnProperty], so line 90 calls a number, and the [catch] of line 91
    turns the [TypeError] into "not found". *)
Theorem json_check_misses_key_beside_hasOwnProperty :
  (exists members,
      JSON.parse keyedBody = Some (JSON.VObject members) /\
      JSON.hasKey (JSString.units "total_questions") members = true) /\
  jsonFound keyedBody "total_questions" = false.
Proof.
  split; [eexists; split|]; vm_compute; reflexivity.
Qed.

(** ** checkContent *)

Lemma evaluate_returns html c :
  validCheck c = true -> exists b, evaluate html c = Normal b.
Proof.
  unfold validCheck, evaluate. destruct (type c).
  - intros _. apply titleFound_returns.
  - intros _. eexists. reflexivity.
  - unfold validToken, elementFound.
    destruct (newRegExp (classPattern (value c))); [|discriminate].
    destruct (newRegExp (idPattern (value c))); [|discriminate].
    destruct (newRegExp (tagPattern (value c))); [|discriminate].
    intros _. eexists. reflexivity.
  - intros _. eexists. reflexivity.
Qed.

Lemma checkLoop_returns html todo :
  Forall (fun c => exists b, evaluate html c = Normal b) todo ->
  forall results,
  exists added,
    checkLoop html todo results = Normal (results ++ added)%list /\
    map check added = todo /\
    Forall (fun r => evaluate html (check r) = Normal (found r)) added.
Proof.
  induction 1 as [|c todo [b Hc] _ IH]; intros results.
  - exists []%list. cbn. rewrite app_nil_r. repeat split. constructor.
  - cbn [checkLoop]. rewrite Hc.
    destruct (IH (results ++ [mkOutcome c b])%list) as (added & -> & Hmap & Hall).
    exists (mkOutcome c b :: added)%list. rewrite <- app_assoc. cbn.
    repeat split; [now f_equal | now constructor].
Qed.





(** ** runTest *)

Lemma report_result results :
  forall allPassed w,
    report results allPassed w =
    (allPassed && forallb found results,
     mkWorld (network w) (requested w) (console w ++ map reportLine results)%list).
Proof.
  induction results as [|r rs IH]; intros allPassed w.
  - cbn. unfold ret. rewrite andb_true_r, app_nil_r. now destruct w.
  - cbn [report]. unfold bind, console_log, reportLine.
    destruct (found r) eqn:E; cbn [forallb map]; rewrite IH, E; cbn;
      rewrite <- app_assoc; [|rewrite andb_false_r]; reflexivity.
Qed.

Lemma last_snoc (lines : list string) line :
  last (map Some (lines ++ [line])%list) None = Some line.
Proof. rewrite map_app. cbn [map]. apply last_last. Qed.

Lemma runTest_200 test w data headers :
  nextOutcome w = Responded 200 data headers ->
  let ending :=
    match checkContent data (checks test) with
    | Throw e => (false, errorLine e)
    | Normal results =>
        (forallb found results,
         if forallb found results then passedLine test else partialLine test)
    end in
  fst (runTest test w) = fst ending /\
  lastLine (snd (runTest test w)) = Some (snd ending).
Proof.
  intros Hout. unfold runTest, bind, console_log, makeRequest, ret. cbn.
  unfold nextOutcome in Hout. rewrite Hout. cbn.
  destruct (JSString.includes (url test) ".json"); cbn;
    (destruct (checkContent data (checks test)) as [results|e]; cbn;
     [rewrite report_result; cbn; destruct (forallb found results); cbn
     |]);
    (split; [reflexivity | apply last_snoc]).
Qed.






(** ** The success rate *)


(** *** Doubles

    [Number.ofNat], [Number.div] and [Number.mul] round to the nearest
    double, ties to even.  What follows bounds the error of one rounding:
    first on the integers, by following the mantissa through the shifts of
    [binary_round_aux], then in the reals. *)

Section Doubles.

Local Open Scope Z_scope.

Ltac zcmp :=
  repeat match goal with
    | H : _ /\ _ |- _ => destruct H
    | |- _ /\ _ => split
    end;
  repeat match goal with
    | H : Z.compare ?a ?b = Lt |- _ => change (a < b) in H
    | H : Z.compare ?a ?b = Gt |- _ => change (a > b) in H
    | H : Z.compare _ _ = Eq |- _ => apply Z.compare_eq_iff in H
    | |- Z.compare ?a ?b = Lt => change (a < b)
    | |- Z.compare ?a ?b = Gt => change (a > b)
    | |- Z.compare _ _ = Eq => apply Z.compare_eq_iff
    end.

Lemma shr_1_located rec num den :
  0 <= shr_m rec ->
  Located (shr_m rec) (loc_of_shr_record rec) num den ->
  Located (shr_m (shr_1 rec)) (loc_of_shr_record (shr_1 rec)) num (2 * den) /\
  shr_m (shr_1 rec) = shr_m rec / 2.
Proof.
  destruct rec as [m r s]. cbn [shr_m]. intros Hm.
  assert (Hcases : m = 0 \/ m = 1 \/ (exists p, m = Z.pos p~0) \/ (exists p, m = Z.pos p~1)).
  { destruct m as [|[p|p|]|p]; try lia; eauto. }
  unfold Located.
  destruct Hcases as [->|[->|[[p ->]|[p ->]]]]; intros (Hden & Hin & Hloc).
  - split; [|reflexivity].
    destruct r, s; cbn [shr_1 shr_m loc_of_shr_record orb] in *; zcmp; lia.
  - split; [|reflexivity].
    destruct r, s; cbn [shr_1 shr_m loc_of_shr_record orb] in *; zcmp; lia.
  - split.
    + destruct r, s; cbn [shr_1 shr_m loc_of_shr_record orb] in *;
        rewrite (Pos2Z.inj_xO p) in *; zcmp; lia.
    + cbn [shr_1 shr_m]. rewrite (Pos2Z.inj_xO p).
      apply Z.div_unique with 0; lia.
  - split.
    + destruct r, s; cbn [shr_1 shr_m loc_of_shr_record orb] in *;
        rewrite (Pos2Z.inj_xI p) in *; zcmp; lia.
    + cbn [shr_1 shr_m]. rewrite (Pos2Z.inj_xI p).
      apply Z.div_unique with 1; lia.
Qed.

Lemma shr_record_of_loc_inv m l :
  shr_m (shr_record_of_loc m l) = m /\
  loc_of_shr_record (shr_record_of_loc m l) = l.
Proof. destruct l as [|[]]; now split. Qed.

Lemma iter_pos_nat {A} (f : A -> A) p x :
  SpecFloat.iter_pos f p x = Nat.iter (Pos.to_nat p) f x.
Proof.
  revert x. induction p as [p IH|p IH|]; intros x; cbn [SpecFloat.iter_pos].
  - rewrite !IH, Pos2Nat.inj_xI.
    replace (2 * Pos.to_nat p)%nat with (Pos.to_nat p + Pos.to_nat p)%nat by lia.
    rewrite <- Nat.add_1_r, <- Nat.add_assoc, !Nat.iter_add. reflexivity.
  - rewrite !IH, Pos2Nat.inj_xO.
    replace (2 * Pos.to_nat p)%nat with (Pos.to_nat p + Pos.to_nat p)%nat by lia.
    now rewrite Nat.iter_add.
  - reflexivity.
Qed.

Lemma shr_iter_located num den k :
  forall rec,
    0 <= shr_m rec ->
    Located (shr_m rec) (loc_of_shr_record rec) num den ->
    let rec' := Nat.iter k shr_1 rec in
    Located (shr_m rec') (loc_of_shr_record rec') num (2 ^ Z.of_nat k * den) /\
    shr_m rec' = shr_m rec / 2 ^ Z.of_nat k.
Proof.
  induction k as [|k IH]; intros rec Hm Hloc; cbv zeta.
  - change (Nat.iter 0 shr_1 rec) with rec. change (2 ^ Z.of_nat 0) with 1. rewrite Z.mul_1_l, Z.div_1_r.
    now split.
  - change (Nat.iter (S k) shr_1 rec) with (shr_1 (Nat.iter k shr_1 rec)).
    destruct (IH rec Hm Hloc) as [Hl Hv]. cbv zeta in Hl, Hv.
    assert (H0 : 0 <= shr_m (Nat.iter k shr_1 rec)).
    { rewrite Hv. apply Z.div_pos; [assumption | apply Z.pow_pos_nonneg; lia]. }
    destruct (shr_1_located _ _ _ H0 Hl) as [Hl' Hv'].
    rewrite Nat2Z.inj_succ, Z.pow_succ_r by lia. split.
    + now rewrite <- Z.mul_assoc.
    + rewrite Hv', Hv, Z.div_div by (try apply Z.pow_pos_nonneg; lia).
      f_equal. lia.
Qed.

Lemma digits2_pos_size p : digits2_pos p = Pos.size p.
Proof. induction p; cbn; congruence. Qed.

(** A positive number of [d] binary digits lies between [2^(d-1)] and [2^d]. *)
Lemma digits_bounds p :
  2 ^ (Z.pos (digits2_pos p) - 1) <= Z.pos p < 2 ^ Z.pos (digits2_pos p).
Proof.
  rewrite digits2_pos_size. split.
  - pose proof (Pos.size_le p) as H.
    apply Pos2Z.pos_le_pos in H. rewrite Pos2Z.inj_pow in H.
    rewrite (Pos2Z.inj_xO p) in H.
    assert (E : 2 ^ Z.pos (Pos.size p) = 2 * 2 ^ (Z.pos (Pos.size p) - 1)).
    { rewrite <- Z.pow_succ_r by lia. f_equal. lia. }
    rewrite E in H. lia.
  - pose proof (Pos.size_gt p) as H.
    apply Pos2Z.pos_lt_pos in H. now rewrite Pos2Z.inj_pow in H.
Qed.

Lemma digits_unique p k :
  2 ^ (k - 1) <= Z.pos p < 2 ^ k -> Z.pos (digits2_pos p) = k.
Proof.
  intros [Hlo Hhi]. pose proof (digits_bounds p) as [Hlo' Hhi'].
  set (d := Z.pos (digits2_pos p)) in *.
  assert (0 < k).
  { destruct (Z.lt_ge_cases 0 k) as [|Hk]; [assumption|exfalso].
    destruct (Z.eq_dec k 0) as [->|Hk0].
    - change (2 ^ 0) with 1 in Hhi. lia.
    - rewrite Z.pow_neg_r in Hhi by lia. lia. }
  destruct (Z.lt_trichotomy d k) as [Hlt|[Heq|Hgt]]; [exfalso| assumption |exfalso].
  - assert (2 ^ d <= 2 ^ (k - 1)) by (apply Z.pow_le_mono_r; lia). lia.
  - assert (2 ^ k <= 2 ^ (d - 1)) by (apply Z.pow_le_mono_r; lia). lia.
Qed.

Lemma fexp_normal z : -1021 <= z -> fexp 53 1024 z = z - 53.
Proof. unfold fexp, emin. lia. Qed.

(** Shifting a mantissa of at least 53 digits down to 53 digits. *)
Lemma shr_fexp_spec p e l num den :
  Located (Z.pos p) l num den ->
  53 <= Z.pos (digits2_pos p) ->
  -1021 <= Z.pos (digits2_pos p) + e ->
  let n := Z.pos (digits2_pos p) - 53 in
  exists rec,
    shr_fexp 53 1024 (Z.pos p) e l = (rec, e + n) /\
    Located (shr_m rec) (loc_of_shr_record rec) num (2 ^ n * den) /\
    2 ^ 52 <= shr_m rec < 2 ^ 53.
Proof.
  intros Hloc Hdig Hexp n. unfold shr_fexp. cbn [Zdigits2].
  rewrite fexp_normal by assumption.
  replace (Z.pos (digits2_pos p) + e - 53 - e) with n by (unfold n; lia).
  pose proof (digits_bounds p) as [Hlo Hhi].
  destruct (shr_record_of_loc_inv (Z.pos p) l) as [Hm Hl].
  destruct n as [|k|k] eqn:En; [| |lia].
  - exists (shr_record_of_loc (Z.pos p) l). cbn [shr]. rewrite Z.add_0_r.
    rewrite Hm, Hl. change (2 ^ 0) with 1. rewrite Z.mul_1_l.
    split; [reflexivity|]. split; [exact Hloc|]. split.
    + replace (Z.pos (digits2_pos p) - 1) with 52 in Hlo by lia. exact Hlo.
    + replace (Z.pos (digits2_pos p)) with 53 in Hhi by lia. exact Hhi.
  - cbn [shr]. rewrite iter_pos_nat.
    destruct (shr_iter_located num den (Pos.to_nat k) (shr_record_of_loc (Z.pos p) l))
      as [Hl' Hv]; [rewrite Hm; lia | now rewrite Hm, Hl |].
    cbv zeta in Hl', Hv. rewrite positive_nat_Z in Hl', Hv.
    eexists. split; [reflexivity|]. split; [exact Hl'|].
    rewrite Hv, Hm.
    assert (Hk : Z.pos (digits2_pos p) = 53 + Z.pos k) by lia.
    rewrite Hk in Hlo, Hhi.
    replace (53 + Z.pos k - 1) with (52 + Z.pos k) in Hlo by lia.
    rewrite Z.pow_add_r in Hlo, Hhi by lia.
    assert (0 < 2 ^ Z.pos k) by (apply Z.pow_pos_nonneg; lia).
    split.
    + apply Z.div_le_lower_bound; lia.
    + apply Z.div_lt_upper_bound; lia.
Qed.

(** Rounding to nearest, ties to even, moves at most half a unit. *)
Lemma round_nearest_even_spec m l num den :
  Located m l num den ->
  let r := round_nearest_even m l in
  (r = m \/ r = m + 1) /\ - den <= 2 * (r * den - num) <= den.
Proof.
  intros (Hden & Hin & Hloc). cbv zeta. unfold round_nearest_even.
  destruct l as [|[]].
  - split; [now left | lia].
  - destruct Hloc as [_ Hc]. apply Z.compare_eq_iff in Hc.
    destruct (Z.even m); split; try tauto; lia.
  - destruct Hloc as [_ Hc]. change (2 * (num - m * den) < den) in Hc.
    split; [now left | lia].
  - destruct Hloc as [_ Hc]. change (2 * (num - m * den) > den) in Hc.
    split; [now right | lia].
Qed.

(** [binary_round_aux] on a mantissa of at least 53 digits: the result is a
    normal number within half a unit in the last place of the exact value
    [num / den * 2^ex]. *)
Lemma binary_round_aux_spec s p ex lx num den :
  Located (Z.pos p) lx num den ->
  53 <= Z.pos (digits2_pos p) ->
  -1021 <= Z.pos (digits2_pos p) + ex <= 1023 ->
  exists M n,
    binary_round_aux 53 1024 s (Z.pos p) ex lx = S754_finite s M (ex + n) /\
    Z.pos (digits2_pos p) - 53 <= n <= Z.pos (digits2_pos p) - 52 /\
    2 ^ 52 <= Z.pos M < 2 ^ 53 /\
    - (2 ^ n * den) <= 2 * (Z.pos M * 2 ^ n * den - num) <= 2 ^ n * den.
Proof.
  intros Hloc Hdig Hexp. unfold binary_round_aux.
  destruct (shr_fexp_spec p ex lx num den Hloc Hdig ltac:(lia))
    as (rec & -> & Hl & Hrange).
  set (n := Z.pos (digits2_pos p) - 53) in *.
  assert (Hn : n = Z.pos (digits2_pos p) - 53) by reflexivity. clearbody n.
  assert (Hn0 : 0 <= n) by lia.
  destruct (round_nearest_even_spec _ _ _ _ Hl) as [Hr Herr]. cbv zeta in Hr, Herr.
  set (r := round_nearest_even (shr_m rec) (loc_of_shr_record rec)) in *.
  clearbody r.
  assert (Hden : 0 < den) by apply Hloc.
  assert (Hpow : 0 < 2 ^ n) by (apply Z.pow_pos_nonneg; lia).
  assert (Hr' : 2 ^ 52 <= r <= 2 ^ 53) by lia.
  destruct r as [|q|q] eqn:Er; [lia| |lia].
  destruct (Z.eq_dec (Z.pos q) (2 ^ 53)) as [Hcarry|Hno].
  - (* the rounding carried into a 54th digit *)
    assert (Hq : q = 9007199254740992%positive) by (apply Pos2Z.inj; exact Hcarry).
    subst q. unfold shr_fexp. cbn [Zdigits2 digits2_pos Pos.succ].
    rewrite fexp_normal by lia.
    replace (Z.pos 54 + (ex + n) - 53 - (ex + n)) with 1 by lia.
    cbn [shr shr_record_of_loc SpecFloat.iter_pos shr_1 shr_m].
    replace (ex + n + 1 <=? 1024 - 53) with true by (symmetry; apply Z.leb_le; lia).
    exists 4503599627370496%positive, (n + 1).
    rewrite Z.add_assoc. split; [reflexivity|]. split; [lia|]. split; [lia|].
    rewrite Z.pow_add_r by lia. change (2 ^ 1) with 2. lia.
  - assert (Hd : Z.pos (digits2_pos q) = 53) by (apply digits_unique; lia).
    unfold shr_fexp. cbn [Zdigits2]. rewrite Hd.
    rewrite fexp_normal by lia.
    replace (53 + (ex + n) - 53 - (ex + n)) with 0 by lia.
    cbn [shr shr_record_of_loc shr_m].
    replace (ex + n <=? 1024 - 53) with true by (symmetry; apply Z.leb_le; lia).
    exists q, n. split; [reflexivity|]. split; [lia|]. split; [lia|].
    rewrite <- Z.mul_assoc. lia.
Qed.

Lemma round_exact s p e :
  Z.pos (digits2_pos p) = 53 -> -1021 <= 53 + e <= 1024 ->
  binary_round_aux 53 1024 s (Z.pos p) e loc_Exact = S754_finite s p e.
Proof.
  intros Hd He. unfold binary_round_aux, shr_fexp. cbn [Zdigits2]. rewrite Hd.
  rewrite fexp_normal by lia.
  replace (53 + e - 53 - e) with 0 by lia.
  cbn [shr shr_record_of_loc loc_of_shr_record shr_m shr_r shr_s
       round_nearest_even Zdigits2].
  rewrite Hd, fexp_normal by lia.
  replace (53 + e - 53 - e) with 0 by lia.
  cbn [shr shr_record_of_loc shr_m].
  now replace (e <=? 1024 - 53) with true by (symmetry; apply Z.leb_le; lia).
Qed.

Lemma iter_xO p k : Z.pos (Pos.iter xO p k) = Z.pos p * 2 ^ Z.pos k.
Proof.
  induction k as [|k IH] using Pos.peano_ind.
  - cbn [Pos.iter]. rewrite (Pos2Z.inj_xO p). change (2 ^ 1) with 2. lia.
  - rewrite Pos.iter_succ, (Pos2Z.inj_xO (Pos.iter xO p k)), IH.
    rewrite Pos2Z.inj_succ, Z.pow_succ_r by lia. lia.
Qed.

(** A positive integer below [2^53] is a double, with a normalised
    mantissa. *)
Lemma ofNat_normal n :
  0 < Z.of_nat n < 2 ^ 53 ->
  exists M e,
    Number.ofNat n = S754_finite false M e /\
    2 ^ 52 <= Z.pos M < 2 ^ 53 /\
    -52 <= e <= 0 /\
    Z.pos M = Z.of_nat n * 2 ^ (- e).
Proof.
  intros Hn. unfold Number.ofNat, binary_normalize.
  destruct (Z.of_nat n) as [|p|p] eqn:Ep; [lia| |lia].
  unfold Number.prec, Number.emax, binary_round.
  pose proof (digits_bounds p) as [Hlo Hhi].
  set (d := Z.pos (digits2_pos p)) in *.
  assert (Hd : 1 <= d) by (unfold d; lia).
  assert (Hd' : d <= 53).
  { destruct (Z.le_gt_cases d 53) as [|Hgt]; [assumption|exfalso].
    assert (2 ^ 53 <= 2 ^ (d - 1)) by (apply Z.pow_le_mono_r; lia). lia. }
  rewrite Z.add_0_r, fexp_normal by lia. unfold shl_align.
  destruct (d - 53 - 0) as [|k|k] eqn:Ek; [| lia |].
  - exists p, 0. rewrite round_exact by (fold d; lia).
    split; [reflexivity|]. replace d with 53 in * by lia.
    change (2 ^ (53 - 1)) with (2 ^ 52) in Hlo.
    split; [lia|]. split; [lia|]. change (2 ^ (- 0)) with 1. lia.
  - assert (Hk : Z.pos k = 53 - d) by lia.
    assert (Hpow : 2 ^ (d - 1) * 2 ^ Z.pos k = 2 ^ 52).
    { rewrite <- Z.pow_add_r by lia. f_equal. lia. }
    assert (Hpow' : 2 ^ d * 2 ^ Z.pos k = 2 ^ 53).
    { rewrite <- Z.pow_add_r by lia. f_equal. lia. }
    assert (H2k : 0 < 2 ^ Z.pos k) by (apply Z.pow_pos_nonneg; lia).
    assert (Hm : 2 ^ 52 <= Z.pos (Pos.iter xO p k) < 2 ^ 53).
    { rewrite iter_xO. rewrite <- Hpow, <- Hpow'. split.
      - apply Z.mul_le_mono_nonneg_r; lia.
      - apply Z.mul_lt_mono_pos_r; lia. }
    exists (Pos.iter xO p k), (d - 53).
    rewrite round_exact by (try apply digits_unique; lia).
    split; [reflexivity|]. split; [exact Hm|]. split; [lia|].
    rewrite iter_xO. do 2 f_equal. lia.
Qed.

(** The location of a quotient, from its remainder. *)
Lemma new_location_located a b :
  0 <= a -> 0 < b ->
  Located (a / b) (new_location b (a mod b)) a b.
Proof.
  intros Ha Hb. pose proof (Z.div_mod a b ltac:(lia)) as Hdiv.
  pose proof (Z.mod_pos_bound a b Hb) as Hmod.
  unfold Located. split; [assumption|]. split; [nia|].
  unfold new_location, new_location_even, new_location_odd.
  destruct (Z.even b) eqn:Hev; destruct (Z.eqb_spec (a mod b) 0) as [H0|H0];
    try nia.
  - split; [nia|]. f_equal. nia.
  - split; [nia|].
    assert (Hodd : Z.odd b = true) by (rewrite <- Z.negb_even, Hev; reflexivity).
    apply Z.odd_spec in Hodd as [c Hc].
    replace (a - a / b * b) with (a mod b) by nia.
    destruct (2 * (a mod b) + 1 ?= b) eqn:Hcmp.
    + apply Z.compare_eq_iff in Hcmp. apply Z.compare_lt_iff. lia.
    + rewrite Z.compare_lt_iff in Hcmp. apply Z.compare_lt_iff. lia.
    + rewrite Z.compare_gt_iff in Hcmp. apply Z.compare_gt_iff. lia.
Qed.

Ltac push_IZR H :=
  repeat first [ rewrite opp_IZR in H | rewrite mult_IZR in H
               | rewrite minus_IZR in H | rewrite plus_IZR in H ].

Lemma pow2_pos e : (0 < pow2 e)%R.
Proof. apply powerRZ_lt. lra. Qed.

Lemma pow2_add a b : pow2 (a + b) = (pow2 a * pow2 b)%R.
Proof. apply powerRZ_add. lra. Qed.

Lemma pow2_IZR n : 0 <= n -> IZR (2 ^ n) = pow2 n.
Proof.
  intros Hn. destruct n as [|p|p]; [reflexivity| |lia].
  apply Zpower_pos_powerRZ.
Qed.

Lemma pow2_opp e : (pow2 e * pow2 (- e) = 1)%R.
Proof. rewrite <- pow2_add, Z.add_opp_diag_r. reflexivity. Qed.

(** [binary_round_aux], in the reals: the result is within a relative
    [2^-53] of the exact value it is given. *)
Lemma binary_round_aux_value s p ex lx num den :
  Located (Z.pos p) lx num den ->
  53 <= Z.pos (digits2_pos p) ->
  -1021 <= Z.pos (digits2_pos p) + ex <= 1023 ->
  exists M e,
    binary_round_aux 53 1024 s (Z.pos p) ex lx = S754_finite s M e /\
    2 ^ 52 <= Z.pos M < 2 ^ 53 /\
    ex + Z.pos (digits2_pos p) - 53 <= e <= ex + Z.pos (digits2_pos p) - 52 /\
    let V := (IZR (Z.pos M) * pow2 e)%R in
    let X := (IZR num / IZR den * pow2 ex)%R in
    (- (V / 9007199254740992) <= V - X <= V / 9007199254740992)%R.
Proof.
  intros Hloc Hdig Hexp.
  destruct (binary_round_aux_spec s p ex lx num den Hloc Hdig Hexp)
    as (M & n & Heq & Hn & HM & Hlo & Hhi).
  exists M, (ex + n). split; [exact Heq|]. split; [exact HM|]. split; [lia|].
  cbv zeta. rewrite Z.add_comm, pow2_add.
  assert (Hden : (0 < IZR den)%R) by (apply IZR_lt, Hloc).
  assert (Hn0 : 0 <= n) by lia.
  apply IZR_le in Hlo, Hhi.
  push_IZR Hlo. push_IZR Hhi. rewrite (pow2_IZR n Hn0) in Hlo, Hhi.
  destruct HM as [HM _]. apply IZR_le in HM.
  change (IZR (2 ^ 52)) with 4503599627370496%R in HM.
  pose proof (pow2_pos n) as Ha. pose proof (pow2_pos ex) as Ht.
  set (m := IZR (Z.pos M)) in *. set (a := pow2 n) in *. set (t := pow2 ex) in *.
  set (d := IZR den) in *. set (x := (IZR num / d)%R).
  assert (Hx : (IZR num = x * d)%R) by (unfold x; field; lra).
  rewrite Hx in Hlo, Hhi. clearbody m a t d x.
  assert (H1 : (- a <= 2 * (m * a - x))%R).
  { apply Rmult_le_reg_r with d; [assumption|]. lra. }
  assert (H2 : (2 * (m * a - x) <= a)%R).
  { apply Rmult_le_reg_r with d; [assumption|]. lra. }
  assert (H3 : (a * t * 4503599627370496 <= m * (a * t))%R).
  { rewrite (Rmult_comm m). apply Rmult_le_compat_l; [|assumption].
    apply Rlt_le, Rmult_lt_0_compat; assumption. }
  assert (H4 : (- (a * t) <= 2 * (m * a - x) * t)%R).
  { replace (- (a * t))%R with (- a * t)%R by ring.
    apply Rmult_le_compat_r; lra. }
  assert (H5 : (2 * (m * a - x) * t <= a * t)%R).
  { apply Rmult_le_compat_r; lra. }
  lra.
Qed.

Lemma digits_between p lo hi :
  2 ^ lo <= Z.pos p < 2 ^ hi -> 0 <= lo -> lo < Z.pos (digits2_pos p) <= hi.
Proof.
  intros [Hlo Hhi] H0. pose proof (digits_bounds p) as [Hlo' Hhi'].
  set (d := Z.pos (digits2_pos p)) in *.
  assert (Hd : 1 <= d) by (unfold d; lia). clearbody d. split.
  - destruct (Z.lt_ge_cases lo d) as [|Hge]; [assumption|exfalso].
    assert (2 ^ d <= 2 ^ lo) by (apply Z.pow_le_mono_r; lia). lia.
  - destruct (Z.le_gt_cases d hi) as [|Hgt]; [assumption|exfalso].
    assert (2 ^ hi <= 2 ^ (d - 1)) by (apply Z.pow_le_mono_r; lia). lia.
Qed.

Lemma pow2_53 : pow2 53 = 9007199254740992%R.
Proof. rewrite <- pow2_IZR by lia. reflexivity. Qed.

Lemma pow2_inv e : pow2 (- e) = (/ pow2 e)%R.
Proof.
  pose proof (pow2_opp e) as H. pose proof (pow2_pos e) as Hp.
  apply Rmult_eq_reg_l with (pow2 e); [|lra]. rewrite H. field. lra.
Qed.

(** A positive integer below [2^53] is a double of that value. *)
Lemma ofNat_value n :
  0 < Z.of_nat n < 2 ^ 53 ->
  exists M e,
    Number.ofNat n = S754_finite false M e /\
    2 ^ 52 <= Z.pos M < 2 ^ 53 /\
    -52 <= e <= 0 /\
    (IZR (Z.pos M) * pow2 e = IZR (Z.of_nat n))%R.
Proof.
  intros Hn. destruct (ofNat_normal n Hn) as (M & e & Heq & HM & He & Hv).
  exists M, e. repeat (split; [assumption|]).
  rewrite Hv, mult_IZR, pow2_IZR by lia.
  rewrite Rmult_assoc, (Rmult_comm (pow2 (- e))), pow2_opp. ring.
Qed.

(** Division of two normal doubles. *)
Lemma div_value Mx ex My ey :
  2 ^ 52 <= Z.pos Mx < 2 ^ 53 -> 2 ^ 52 <= Z.pos My < 2 ^ 53 ->
  -900 <= ex - ey <= 900 ->
  exists M e,
    Number.div (S754_finite false Mx ex) (S754_finite false My ey)
    = S754_finite false M e /\
    2 ^ 52 <= Z.pos M < 2 ^ 53 /\
    ex - ey - 53 <= e <= ex - ey - 51 /\
    let V := (IZR (Z.pos M) * pow2 e)%R in
    let X := ((IZR (Z.pos Mx) * pow2 ex) / (IZR (Z.pos My) * pow2 ey))%R in
    (- (V / 9007199254740992) <= V - X <= V / 9007199254740992)%R.
Proof.
  intros Hx Hy He.
  unfold Number.div, Number.prec, Number.emax, SFdiv, SFdiv_core_binary.
  cbn [Zdigits2 xorb].
  rewrite (digits_unique Mx 53), (digits_unique My 53) by (cbn [Z.sub]; lia).
  replace (53 + ex - (53 + ey)) with (ex - ey) by lia.
  rewrite fexp_normal by lia.
  rewrite Z.min_l by lia.
  replace (ex - ey - (ex - ey - 53)) with 53 by lia.
  cbv beta iota. rewrite Z.shiftl_mul_pow2 by lia.
  set (m' := Z.pos Mx * 2 ^ 53).
  assert (Hm' : 2 ^ 52 * 2 ^ 53 <= m' < 2 ^ 53 * 2 ^ 53) by (unfold m'; lia).
  pose proof (new_location_located m' (Z.pos My) ltac:(lia) ltac:(lia)) as Hloc.
  unfold Z.div, Z.modulo in Hloc.
  assert (Hq : 2 ^ 52 <= m' / Z.pos My < 2 ^ 54).
  { split.
    - apply Z.div_le_lower_bound; lia.
    - apply Z.div_lt_upper_bound; [lia|].
      change (2 ^ 54) with (2 * 2 ^ 53). nia. }
  unfold Z.div in Hq.
  destruct (Z.div_eucl m' (Z.pos My)) as [q r].
  destruct q as [|q|q]; [lia| |lia].
  pose proof (digits_between q 52 54 Hq ltac:(lia)) as Hd.
  destruct (binary_round_aux_value false q (ex - ey - 53) _ _ _ Hloc
              ltac:(lia) ltac:(lia)) as (M & e & Heq & HM & Hexp & Hval).
  exists M, e. split; [exact Heq|]. split; [exact HM|]. split; [lia|].
  cbv zeta in Hval |- *.
  replace (IZR (Z.pos Mx) * pow2 ex / (IZR (Z.pos My) * pow2 ey))%R
    with (IZR m' / IZR (Z.pos My) * pow2 (ex - ey - 53))%R; [exact Hval|].
  unfold m'. rewrite mult_IZR, pow2_IZR, pow2_53 by lia.
  replace (ex - ey - 53) with (ex + (- ey + - (53))) by lia.
  rewrite !pow2_add, !pow2_inv, pow2_53.
  pose proof (pow2_pos ey). assert (0 < IZR (Z.pos My))%R by (apply IZR_lt; lia).
  field. lra.
Qed.

(** Multiplication of two normal doubles. *)
Lemma mul_value Mx ex My ey :
  2 ^ 52 <= Z.pos Mx < 2 ^ 53 -> 2 ^ 52 <= Z.pos My < 2 ^ 53 ->
  -1000 <= ex + ey <= 900 ->
  exists M e,
    Number.mul (S754_finite false Mx ex) (S754_finite false My ey)
    = S754_finite false M e /\
    2 ^ 52 <= Z.pos M < 2 ^ 53 /\
    let V := (IZR (Z.pos M) * pow2 e)%R in
    let X := ((IZR (Z.pos Mx) * pow2 ex) * (IZR (Z.pos My) * pow2 ey))%R in
    (- (V / 9007199254740992) <= V - X <= V / 9007199254740992)%R.
Proof.
  intros Hx Hy He.
  unfold Number.mul, Number.prec, Number.emax, SFmul. cbn [xorb].
  assert (Hp : 2 ^ 104 <= Z.pos (Mx * My) < 2 ^ 106).
  { rewrite Pos2Z.inj_mul.
    change (2 ^ 104) with (2 ^ 52 * 2 ^ 52).
    change (2 ^ 106) with (2 ^ 53 * 2 ^ 53). nia. }
  pose proof (digits_between (Mx * My) 104 106 Hp ltac:(lia)) as Hd.
  assert (Hloc : Located (Z.pos (Mx * My)) loc_Exact (Z.pos (Mx * My)) 1).
  { unfold Located. lia. }
  destruct (binary_round_aux_value false (Mx * My) (ex + ey) _ _ _ Hloc
              ltac:(lia) ltac:(lia)) as (M & e & Heq & HM & Hexp & Hval).
  exists M, e. split; [exact Heq|]. split; [exact HM|].
  cbv zeta in Hval |- *.
  replace (IZR (Z.pos Mx) * pow2 ex * (IZR (Z.pos My) * pow2 ey))%R
    with (IZR (Z.pos (Mx * My)) / 1 * pow2 (ex + ey))%R; [exact Hval|].
  rewrite Pos2Z.inj_mul, mult_IZR, pow2_add. field.
Qed.

(** [Math.round] of a positive double is the floor of its value plus a
    half. *)
Lemma round_value M e :
  exists q,
    Math.round (S754_finite false M e) = Number.Int q /\
    (IZR q <= IZR (Z.pos M) * pow2 e + / 2 < IZR q + 1)%R.
Proof.
  unfold Math.round. rewrite Bool.andb_false_r.
  eexists. split; [reflexivity|].
  destruct (Z.leb_spec 0 e) as [He|He].
  - rewrite mult_IZR, pow2_IZR by assumption. lra.
  - set (E := - e). assert (HE : 0 < E) by (unfold E; lia).
    replace (- e + 1) with (E + 1) by (unfold E; lia).
    replace e with (- E) by (unfold E; lia). fold E.
    assert (Hpos : 0 < 2 ^ (E + 1)) by (apply Z.pow_pos_nonneg; lia).
    pose proof (Z.mul_div_le (2 * Z.pos M + 2 ^ E) _ Hpos) as Hlo.
    pose proof (Z.mul_succ_div_gt (2 * Z.pos M + 2 ^ E) _ Hpos) as Hhi.
    set (q := (2 * Z.pos M + 2 ^ E) / 2 ^ (E + 1)) in *. clearbody q.
    rewrite Z.pow_add_r in Hlo, Hhi by lia. change (2 ^ 1) with 2 in Hlo, Hhi.
    apply IZR_le in Hlo. apply IZR_lt in Hhi.
    unfold Z.succ in Hhi. push_IZR Hlo. push_IZR Hhi.
    rewrite pow2_IZR in Hlo, Hhi by lia.
    rewrite pow2_inv. pose proof (pow2_pos E) as Ht.
    set (t := pow2 E) in *. set (m := IZR (Z.pos M)) in *. clearbody t m.
    split.
    + apply Rmult_le_reg_r with (2 * t)%R; [lra|].
      replace ((m * / t + / 2) * (2 * t))%R with (2 * m + t)%R by (field; lra).
      lra.
    + apply Rmult_lt_reg_r with (2 * t)%R; [lra|].
      replace ((m * / t + / 2) * (2 * t))%R with (2 * m + t)%R by (field; lra).
      lra.
Qed.



End Doubles.


Lemma runEach_passed tests :
  forall passed w, fst (runEach tests passed w) <= passed + length tests.
Proof.
  induction tests as [|t ts IH]; intros passed w.
  - cbn. lia.
  - rewrite runEach_step. cbn [length].
    specialize (IH (if fst (runTest t w) then S passed else passed)
                   (snd (runTest t w))).
    destruct (fst (runTest t w)); lia.
Qed.

Lemma runAllTests_prints_rate tests w :
  In ("   Success Rate: "
        ++ successRate (fst (runEach tests 0 (snd (console_log startingLine w))))
                       (length tests)
        ++ "%")
     (console (snd (runAllTests tests w))).
Proof.
  unfold runAllTests, bind. fold startingLine.
  destruct (console_log startingLine w) as [[] w1]. cbn [snd].
  destruct (runEach tests 0 w1) as [passed w2]. cbn [fst].
  unfold console_log. cbn.
  destruct (Nat.eqb passed (length tests)); cbn;
    repeat (apply in_or_app; first [right; now left | left]).
Qed.




(** * Further properties

    What the script does beyond the ten claims: the content check, the
    lines a test case and a run print, the probe that is answered, the
    checks on bodies and tokens in either case, on JSON texts of every kind
    and with white space around them, and the rate on a tie. *)

Section Harness.

Local Open Scope string_scope.
Local Open Scope list_scope.
Local Open Scope nat_scope.

(** ** The content check *)

Lemma string_length_app (a b : string) :
  String.length (a ++ b)%string = String.length a + String.length b.
Proof. induction a as [|c a IH]; cbn; congruence. Qed.

(** X1.  The content check of line 81 is a search for the value as it is
    written: found exactly when the body holds the value as a run of
    consecutive code units.  The empty value is found in every body, and a
    value is found in the empty body only if it is empty. *)
Theorem content_check_is_a_substring_search (html value : string) :
  (contentFound html value = true <-> occursIn value html) /\
  contentFound html EmptyString = true /\
  (contentFound EmptyString value = true <-> value = EmptyString) /\
  (String.length html < String.length value -> contentFound html value = false).
Proof.
  unfold contentFound. split; [apply includes_true|]. split; [|split].
  - apply includes_true. exists EmptyString, html. reflexivity.
  - rewrite includes_true. split.
    + intros (l & r & H). destruct l; [|discriminate].
      destruct value; [reflexivity | discriminate].
    + intros ->. exists EmptyString, EmptyString. reflexivity.
  - intros Hlen. apply not_true_iff_false. rewrite includes_true.
    intros (l & r & ->). rewrite !string_length_app in Hlen. lia.
Qed.

Lemma content_check_is_a_substring_search_witness :
  contentFound "16" "16,337" = false.
Proof.
  apply (content_check_is_a_substring_search "16" "16,337"). cbn. lia.
Defined.

(** ** What a test case prints *)

(** X2.  A test case answered with status 200 whose checks all return prints,
    after what was printed before: its two heading lines, the status line,
    the content type if its url contains [.json], one Found or Missing line
    per check in the order of the checks, and the verdict; it returns true
    exactly when every check was found. *)
Theorem runTest_transcript
        (test : TestCase) (w : World) (data : string)
        (headers : list (string * string)) (results : list CheckOutcome) :
  nextOutcome w = Responded 200 data headers ->
  checkContent data (checks test) = Normal results ->
  runTest test w =
    (forallb found results,
     mkWorld (network w) (requested w ++ [url test])
       (console w
          ++ [testingLine test; urlLine test; "   ✅ Status: 200"]
          ++ (if JSString.includes (url test) ".json"
              then ["   📄 Content-Type: " ++ contentTypeOf headers]%string
              else [])
          ++ map reportLine results
          ++ [if forallb found results
              then passedLine test else partialLine test])).
Proof.
  unfold nextOutcome. intros Hnet Hcheck.
  unfold runTest, bind, console_log, makeRequest, ret. cbn.
  rewrite Hnet. cbn. fold (contentTypeOf headers).
  destruct (JSString.includes (url test) ".json"); cbn;
    rewrite Hcheck, report_result; cbn;
    destruct (forallb found results); cbn;
    repeat rewrite <- app_assoc; reflexivity.
Qed.

Lemma runTest_transcript_witness :
  console (snd (runTest
                  (mkTest "Data" "http://localhost:3000/data/x.json"
                          [mkCheck json "results"; mkCheck json "total"])
                  (start (fun _ => Responded 200 resultsBody
                                     [("content-type", "application/json")]))))
  = [ "🔍 Testing: Data";
      "   URL: http://localhost:3000/data/x.json";
      "   ✅ Status: 200";
      "   📄 Content-Type: application/json";
      "   ✅ Found: results (json)";
      "   ❌ Missing: total (json)";
      "   ⚠️  Data PARTIAL PASS" ++ LF ]%string.
Proof.
  rewrite (runTest_transcript _ _ resultsBody
             [("content-type", "application/json")]
             [mkOutcome (mkCheck json "results") true;
              mkOutcome (mkCheck json "total") false]);
    reflexivity.
Defined.

(** X3.  A test case is run on its own: what it returns and the lines it prints
    depend on the test case and on how its request ends, not on what was
    requested or printed before; it asks for its url once and leaves what
    was printed before in place. *)
Theorem runTest_is_isolated (test : TestCase) (w w' : World) :
  nextOutcome w = nextOutcome w' ->
  fst (runTest test w) = fst (runTest test w') /\
  exists lines,
    lines <> [] /\
    console (snd (runTest test w)) = console w ++ lines /\
    console (snd (runTest test w')) = console w' ++ lines.
Proof.
  unfold nextOutcome. intros Hnet.
  unfold runTest, bind, console_log, makeRequest, ret. cbn.
  rewrite <- Hnet.
  destruct (network w (length (requested w))) as [status data headers|msg|];
    cbn.
  - destruct (Nat.eqb status 200); cbn.
    + destruct (JSString.includes (url test) ".json"); cbn;
        (destruct (checkContent data (checks test)) as [results|e]; cbn;
         [ rewrite !report_result; cbn;
           destruct (forallb found results); cbn
         | ]);
        (split; [reflexivity|]);
        repeat rewrite <- app_assoc; cbn;
        eexists; (split; [|split; reflexivity]); discriminate.
    + split; [reflexivity|]. repeat rewrite <- app_assoc. cbn.
      eexists; (split; [|split; reflexivity]); discriminate.
  - split; [reflexivity|]. repeat rewrite <- app_assoc. cbn.
    eexists; (split; [|split; reflexivity]); discriminate.
  - split; [reflexivity|]. repeat rewrite <- app_assoc. cbn.
    eexists; (split; [|split; reflexivity]); discriminate.
Qed.

Lemma runTest_is_isolated_witness :
  fst (runTest (mkTest "Page" "http://localhost:3000/" [])
               (start (fun _ => Responded 200 "<html>" [])))
  = fst (runTest (mkTest "Page" "http://localhost:3000/" [])
                 (mkWorld (fun _ => Responded 200 "<html>" [])
                          ["http://localhost:3000/a"] ["earlier line"])).
Proof.
  apply (runTest_is_isolated
           (mkTest "Page" "http://localhost:3000/" [])
           (start (fun _ => Responded 200 "<html>" []))
           (mkWorld (fun _ => Responded 200 "<html>" [])
                    ["http://localhost:3000/a"] ["earlier line"])).
  reflexivity.
Defined.

(** ** The run *)

Lemma runEach_verdicts tests :
  forall passed w,
    fst (runEach tests passed w)
    = passed + count_occ Bool.bool_dec (verdicts tests w) true.
Proof.
  induction tests as [|t ts IH]; intros passed w.
  - cbn. lia.
  - rewrite runEach_step, IH. cbn [verdicts count_occ].
    destruct (fst (runTest t w)); cbn; lia.
Qed.

Lemma verdicts_length tests : forall w, length (verdicts tests w) = length tests.
Proof. induction tests as [|t ts IH]; intros w; cbn; [|rewrite IH]; reflexivity. Qed.

Lemma count_all_true (l : list bool) :
  count_occ Bool.bool_dec l true = length l <-> Forall (eq true) l.
Proof.
  induction l as [|b l IH]; cbn [count_occ length]; [split; auto|].
  pose proof (count_occ_bound Bool.bool_dec true l) as Hb.
  destruct b; cbn.
  - split.
    + intros H. constructor; [reflexivity|]. apply IH. lia.
    + intros H. inversion H; subst. f_equal. now apply IH.
  - split; [lia|]. intros H. inversion H; discriminate.
Qed.

Lemma runAllTests_console tests w :
  console (snd (runAllTests tests w)) =
    console (snd (runEach tests 0 (snd (console_log startingLine w))))
    ++ [ "📊 Comprehensive Test Results:";
         "   Passed: "
           ++ JSString.ofNat (fst (runEach tests 0 (snd (console_log startingLine w))))
           ++ "/" ++ JSString.ofNat (length tests);
         "   Success Rate: "
           ++ successRate (fst (runEach tests 0 (snd (console_log startingLine w))))
                          (length tests) ++ "%" ]%string
    ++ closingLines (Nat.eqb (fst (runEach tests 0 (snd (console_log startingLine w))))
                             (length tests)).
Proof.
  unfold runAllTests, bind. fold startingLine.
  destruct (console_log startingLine w) as [[] w1]. cbn [snd].
  destruct (runEach tests 0 w1) as [passed w2]. cbn [fst snd].
  unfold console_log, closingLines. cbn.
  destruct (Nat.eqb passed (length tests)); cbn;
    repeat rewrite <- app_assoc; reflexivity.
Qed.

Lemma runTest_appends test w :
  exists lines, console (snd (runTest test w)) = console w ++ lines.
Proof.
  unfold runTest, bind, console_log, makeRequest, ret. cbn.
  destruct (network w (length (requested w))) as [status data headers|msg|];
    cbn.
  - destruct (Nat.eqb status 200); cbn.
    + destruct (JSString.includes (url test) ".json"); cbn;
        (destruct (checkContent data (checks test)) as [results|e]; cbn;
         [ rewrite !report_result; cbn;
           destruct (forallb found results); cbn
         | ]);
        repeat rewrite <- app_assoc; eexists; reflexivity.
    + repeat rewrite <- app_assoc. eexists; reflexivity.
  - repeat rewrite <- app_assoc. eexists; reflexivity.
  - repeat rewrite <- app_assoc. eexists; reflexivity.
Qed.

Lemma runEach_appends tests :
  forall passed w,
  exists lines, console (snd (runEach tests passed w)) = console w ++ lines.
Proof.
  induction tests as [|t ts IH]; intros passed w.
  - exists []. cbn. now rewrite app_nil_r.
  - rewrite runEach_step.
    destruct (IH (if fst (runTest t w) then S passed else passed)
                 (snd (runTest t w))) as [lines ->].
    destruct (runTest_appends t w) as [lines' ->].
    exists (lines' ++ lines). now rewrite app_assoc.
Qed.

(** X4.  The summary of a run (lines 158-172).  The count printed is the number
    of test cases whose [runTest] returned true; after the three summary
    lines comes the all-passed message when that count equals the number of
    test cases, that is when every test case returned true, and the
    some-failed line otherwise. *)
Theorem runAllTests_summary (tests : list TestCase) (w : World) :
  let w1 := snd (console_log startingLine w) in
  let passed := fst (runEach tests 0 w1) in
  let total := length tests in
  passed = count_occ Bool.bool_dec (verdicts tests w1) true /\
  passed <= total /\
  (passed = total <-> Forall (eq true) (verdicts tests w1)) /\
  console (snd (runAllTests tests w)) =
    console (snd (runEach tests 0 w1))
    ++ [ "📊 Comprehensive Test Results:";
         "   Passed: " ++ JSString.ofNat passed ++ "/" ++ JSString.ofNat total;
         "   Success Rate: " ++ successRate passed total ++ "%" ]%string
    ++ closingLines (Nat.eqb passed total).
Proof.
  cbv zeta.
  pose proof (runEach_verdicts tests 0 (snd (console_log startingLine w)))
    as Hcount.
  cbn [Nat.add] in Hcount.
  pose proof (count_occ_bound Bool.bool_dec true
                (verdicts tests (snd (console_log startingLine w)))) as Hbound.
  rewrite verdicts_length in Hbound.
  split; [exact Hcount|]. split; [lia|]. split.
  - rewrite Hcount, <- (verdicts_length tests (snd (console_log startingLine w))).
    apply count_all_true.
  - apply runAllTests_console.
Qed.

(** X5.  A run over no test case at all divides zero by zero: it prints 0/0,
    a rate of NaN percent and, zero being equal to zero, the all-passed
    message. *)
Theorem runAllTests_without_tests (w : World) :
  console (snd (runAllTests [] w)) =
    console w
    ++ [ startingLine;
         "📊 Comprehensive Test Results:";
         "   Passed: 0/0";
         "   Success Rate: NaN%" ]%string
    ++ closingLines true.
Proof.
  unfold runAllTests, bind, console_log, closingLines. cbn.
  repeat rewrite <- app_assoc. reflexivity.
Qed.

(** X6.  Any answer to the probe starts the run, whatever its status: the script
    prints that the server is running and then runs every test case of its
    list, asking for the root path first and then for each url once, in
    order. *)
Theorem preflight_response_starts_the_run
        (net : nat -> Outcome) (status : nat) (data : string)
        (headers : list (string * string)) :
  net 0 = Responded status data headers ->
  let w := snd (main (start net)) in
  requested w = "http://localhost:3000/" :: map url tests /\
  firstn 4 (console w) =
    [ "🚀 Future Agent Comprehensive Test Suite" ++ LF;
      "🔍 Checking if development server is running...";
      "✅ Server is running, starting comprehensive tests..." ++ LF;
      startingLine ]%string.
Proof.
  intros Hnet. cbv zeta.
  unfold main, bind, console_log, makeRequest, start.
  cbn [fst snd network requested console length app].
  rewrite Hnet. cbn [fst snd network requested console length app].
  split.
  - rewrite runAllTests_requested. reflexivity.
  - rewrite runAllTests_console.
    match goal with
    | |- context [runEach tests 0 ?w0] =>
        destruct (runEach_appends tests 0 w0) as [lines ->]
    end.
    unfold console_log. cbn [fst snd network requested console app].
    repeat rewrite <- app_assoc. reflexivity.
Qed.

Lemma preflight_response_starts_the_run_witness :
  requested (snd (main (start (fun _ => Responded 404 "Not Found" []))))
  = "http://localhost:3000/" :: map url tests.
Proof.
  apply (preflight_response_starts_the_run
           (fun _ => Responded 404 "Not Found" []) 404 "Not Found" []).
  reflexivity.
Defined.

(** ** The test cases of the script *)

(** X7.  The checks of the script's own test cases always return: none of their
    tokens has a character of the pattern grammar.  So a test case of the
    script that is answered with status 200 ends in "passed" or in "partial
    pass", never in an error, whatever the body. *)
Theorem script_tests_never_throw (test : TestCase) (w : World)
        (data : string) (headers : list (string * string)) :
  In test tests ->
  nextOutcome w = Responded 200 data headers ->
  exists results,
    checkContent data (checks test) = Normal results /\
    map check results = checks test /\
    lastLine (snd (runTest test w))
    = Some (if forallb found results
            then passedLine test else partialLine test).
Proof.
  intros Hin Hnet.
  assert (Hvalid : forallb validCheck (checks test) = true).
  { assert (Hall : forallb (fun t => forallb validCheck (checks t)) tests = true)
      by (vm_compute; reflexivity).
    rewrite forallb_forall in Hall. now apply Hall. }
  assert (Hret : Forall (fun c => exists b, evaluate data c = Normal b)
                        (checks test)).
  { apply Forall_forall. intros c Hc. apply evaluate_returns.
    rewrite forallb_forall in Hvalid. now apply Hvalid. }
  destruct (checkLoop_returns data (checks test) Hret []) as (added & Heq & Hmap & _).
  cbn [app] in Heq. exists added. split; [exact Heq|]. split; [exact Hmap|].
  pose proof (runTest_200 test w data headers Hnet) as [_ Hlast].
  unfold checkContent in Hlast. rewrite Heq in Hlast. exact Hlast.
Qed.

Lemma script_tests_never_throw_witness :
  exists results,
    checkContent "<html>" (checks (nth 0 tests (mkTest EmptyString EmptyString []))) = Normal results /\
    length results = 8.
Proof.
  destruct (script_tests_never_throw
              (nth 0 tests (mkTest EmptyString EmptyString []))
              (start (fun _ => Responded 200 "<html>" []))
              "<html>" [])
    as (results & Heq & Hmap & _).
  - cbn. now left.
  - reflexivity.
  - exists results. split; [exact Heq|].
    rewrite <- (length_map check), Hmap. reflexivity.
Defined.

(** ** The json check on a body that is no object *)

Lemma isIndexOrLength_true key len :
  JSON.isIndexOrLength key len = true <->
  key = "length" \/ exists i, i < len /\ key = JSString.ofNat i.
Proof.
  unfold JSON.isIndexOrLength. rewrite orb_true_iff, String.eqb_eq.
  rewrite existsb_exists. split.
  - intros [H|(i & Hi & H)]; [now left | right].
    apply String.eqb_eq in H. apply in_seq in Hi. exists i. split; [lia|assumption].
  - intros [H|(i & Hi & H)]; [now left | right].
    exists i. split; [apply in_seq; lia | now apply String.eqb_eq].
Qed.

(** X8.  The json check does not ask for an object.  On a body that is a JSON
    array or a JSON string it finds [length] and the decimal indices below
    the length, and nothing else; on [null], where reading the method
    throws, and on a number or a truth value it finds no key at all. *)
Theorem json_check_on_non_objects (body key : string) :
  (forall elements,
      JSON.parse body = Some (JSON.VArray elements) ->
      (jsonFound body key = true <->
       key = "length" \/ exists i, i < length elements /\ key = JSString.ofNat i)) /\
  (forall s,
      JSON.parse body = Some (JSON.VString s) ->
      (jsonFound body key = true <->
       key = "length" \/ exists i, i < length s /\ key = JSString.ofNat i)) /\
  (forall v,
      JSON.parse body = Some v ->
      match v with
      | JSON.VNull | JSON.VBool _ | JSON.VNumber _ => jsonFound body key = false
      | _ => True
      end).
Proof.
  unfold jsonFound. split; [|split].
  - intros elements ->. cbn. apply isIndexOrLength_true.
  - intros s ->. cbn. apply isIndexOrLength_true.
  - intros v ->. destruct v; cbn; trivial.
Qed.

Lemma json_check_on_non_objects_witness :
  jsonFound "[10, 20]" "1" = true.
Proof.
  apply (json_check_on_non_objects "[10, 20]" "1")
    with (elements := [JSON.VNumber (JSString.chars "10");
                       JSON.VNumber (JSString.chars "20")]).
  - reflexivity.
  - right. exists 1. split; [cbn; lia | reflexivity].
Defined.

End Harness.

Section JSONObjects.

Local Open Scope list_scope.
Local Open Scope nat_scope.
Local Open Scope string_scope.

(** ** The json check on an object *)

Lemma hasKey_true key ms :
  JSON.hasKey key ms = true <-> exists v, In (key, v) ms.
Proof.
  induction ms as [|[k v] ms IH]; cbn [JSON.hasKey In].
  - split; [discriminate | intros [v []]].
  - rewrite orb_true_iff, IH. split.
    + intros [H|[v' H]].
      * destruct (list_eq_dec N.eq_dec k key) as [->|]; [|discriminate].
        exists v. now left.
      * exists v'. now right.
    + intros [v' [H|H]].
      * injection H as -> ->. left.
        destruct (list_eq_dec N.eq_dec key key); congruence.
      * right. now exists v'.
Qed.

(** X9.  On a body that is a JSON object the json check looks at the names of
    the top-level members only: it finds a key exactly when a member has
    that name, unless a member is named [hasOwnProperty], in which case it
    finds no key at all. *)
Theorem json_check_on_objects
        (body key : string) (members : list (list N * JSON.Value)) :
  JSON.parse body = Some (JSON.VObject members) ->
  ((forall v, ~ In (JSString.units "hasOwnProperty", v) members) ->
   (jsonFound body key = true <->
    exists v, In (JSString.units key, v) members)) /\
  ((exists v, In (JSString.units "hasOwnProperty", v) members) ->
   jsonFound body key = false).
Proof.
  intros Hparse. unfold jsonFound, JSON.hasOwnProperty. rewrite Hparse. split.
  - intros Hno.
    destruct (JSON.hasKey (JSString.units "hasOwnProperty") members) eqn:E.
    + apply hasKey_true in E as [v Hv]. now apply Hno in Hv.
    + apply hasKey_true.
  - intros Hhas. apply hasKey_true in Hhas. now rewrite Hhas.
Qed.

Lemma json_check_on_objects_witness :
  jsonFound countedBody "results" = true.
Proof.
  destruct (json_check_on_objects countedBody "results"
              [(JSString.units "total_questions",
                JSON.VNumber (JSString.chars "16337"));
               (JSString.units "results", JSON.VArray [])]) as [H _].
  - reflexivity.
  - apply H.
    + intros v [E|[E|[]]]; discriminate E.
    + exists (JSON.VArray []). right. now left.
Defined.

End JSONObjects.

Section JSONWhiteSpace.

Import JSON.

Local Open Scope list_scope.
Local Open Scope nat_scope.

Lemma white_cases c :
  isWhiteSpace c = true ->
  c = "009"%char \/ c = "010"%char \/ c = "013"%char \/ c = " "%char.
Proof. ascii_cases c; intros H; try discriminate H; tauto. Qed.

Lemma skipWhiteSpace_leading ws inp :
  blank ws -> skipWhiteSpace (ws ++ inp) = skipWhiteSpace inp.
Proof.
  induction 1 as [|c ws Hc _ IH]; [reflexivity|].
  cbn [app skipWhiteSpace]. now rewrite Hc.
Qed.

Lemma skipWhiteSpace_blank ws : blank ws -> skipWhiteSpace ws = [].
Proof.
  intros H. rewrite <- (app_nil_r ws). now rewrite skipWhiteSpace_leading.
Qed.

Lemma skipWhiteSpace_trailing ws inp :
  blank ws ->
  skipWhiteSpace (inp ++ ws)
  = match skipWhiteSpace inp with
    | [] => []
    | c :: l => c :: l ++ ws
    end.
Proof.
  intros H. induction inp as [|c inp IH]; cbn [app skipWhiteSpace].
  - now apply skipWhiteSpace_blank.
  - destruct (isWhiteSpace c); [exact IH | reflexivity].
Qed.

Lemma digits_blank ws : blank ws -> digits ws = ([], ws).
Proof.
  intros H. destruct H as [|c ws' Hc _]; [reflexivity|]. cbn [digits].
  destruct (white_cases c Hc) as [->|[->|[->| ->]]]; reflexivity.
Qed.

Lemma digits_trailing ws inp :
  blank ws ->
  digits (inp ++ ws) = (fst (digits inp), snd (digits inp) ++ ws).
Proof.
  intros H. induction inp as [|c inp IH]; cbn [app digits].
  - now rewrite digits_blank.
  - destruct (isDigit c); [|reflexivity].
    rewrite IH. destruct (digits inp). reflexivity.
Qed.

(** What follows a number that ends with the text. *)
Lemma after_number_blank ws :
  blank ws ->
  match ws with
  | "."%char :: rest2 =>
      match digits rest2 with
      | ([], _) => None
      | (ds, r) => Some ("."%char :: ds, r)
      end
  | _ => Some ([], ws)
  end = Some ([], ws) /\
  match ws with
  | e :: rest3 =>
      if Ascii.eqb e "e" || Ascii.eqb e "E" then
        let (esign, rest4) :=
          match rest3 with
          | s :: r =>
              if Ascii.eqb s "+" || Ascii.eqb s "-"
              then ([s], r) else ([], rest3)
          | [] => ([], rest3)
          end in
        match digits rest4 with
        | ([], _) => None
        | (ds, r) => Some (e :: esign ++ ds, r)
        end
      else Some ([], ws)
  | [] => Some ([], ws)
  end = Some ([], ws).
Proof.
  intros H. destruct H as [|c ws' Hc _]; [now split|].
  destruct (white_cases c Hc) as [->|[->|[->| ->]]]; now split.
Qed.

Ltac number_equations :=
  repeat match goal with
    | E : isDigit _ = _ |- _ => rewrite E
    | E : Ascii.eqb _ _ = _ |- _ => rewrite E
    | E : (_ || _)%bool = _ |- _ => rewrite E
    | E : digits _ = _ |- _ => rewrite E
    end.

Ltac string_equations :=
  repeat match goal with
    | E : hexValue _ = _ |- _ => rewrite E
    | E : Nat.ltb _ _ = _ |- _ => rewrite E
    | E : stringCharacters _ = _ |- _ => rewrite E
    end.

Ltac digits_ahead ws Hd :=
  repeat match goal with
    | |- context [digits (?a :: ?l ++ ws)] =>
        change (a :: l ++ ws) with ((a :: l) ++ ws); rewrite Hd
    end.

Lemma number_trailing ws inp n r :
  blank ws -> number inp = Some (n, r) ->
  number (inp ++ ws) = Some (n, r ++ ws).
Proof.
  intros Hws H.
  pose proof (fun i => digits_trailing ws i Hws) as Hd.
  destruct (after_number_blank ws Hws) as [Hfrac Hexp].
  unfold number in H.
  parse_cases H.
  all: unfold number; cbn [app].
  all: repeat (progress (number_equations; rewrite ?Hd; digits_ahead ws Hd;
                         number_equations; cbn [fst snd app];
                         rewrite ?Hfrac, ?Hexp)).
  all: reflexivity.
Qed.

Lemma stringCharacters_trailing ws :
  forall n inp s r,
    length inp <= n ->
    stringCharacters inp = Some (s, r) ->
    stringCharacters (inp ++ ws) = Some (s, r ++ ws).
Proof.
  induction n as [|n IH]; intros inp s r Hn H.
  - destruct inp; [discriminate | cbn in Hn; lia].
  - destruct inp as [|c inp]; [discriminate|].
    cbn [stringCharacters] in H. cbn [length] in Hn.
    parse_cases H;
      repeat match goal with
        | E : stringCharacters ?i = Some _ |- _ =>
            apply (IH i) in E; [|cbn [length] in *; lia]
        end;
      cbn [app stringCharacters]; string_equations; reflexivity.
Qed.

Lemma startsWith_trailing ws word :
  forall inp,
    JSString.startsWith inp word = true ->
    JSString.startsWith (inp ++ ws) word = true /\
    skipn (length word) (inp ++ ws) = skipn (length word) inp ++ ws.
Proof.
  induction word as [|c word IH]; intros inp H; [now split|].
  destruct inp as [|d inp]; [discriminate|].
  cbn [JSString.startsWith app length skipn] in *.
  apply andb_true_iff in H as [Hc H]. rewrite Hc. now apply IH.
Qed.

Lemma literal_trailing ws word inp rest :
  literal word inp = Some rest ->
  literal word (inp ++ ws) = Some (rest ++ ws).
Proof.
  unfold literal. intros H.
  destruct (JSString.startsWith inp (JSString.chars word)) eqn:E; [|discriminate].
  destruct (startsWith_trailing ws _ _ E) as [-> Hskip].
  inversion H. f_equal.
  rewrite <- (chars_length word). exact Hskip.
Qed.

Ltac white_ahead ws Hws :=
  repeat match goal with
    | E : skipWhiteSpace ?i = _ :: _ |- context [skipWhiteSpace (?i ++ ws)] =>
        rewrite (skipWhiteSpace_trailing ws i Hws), E
    | E : skipWhiteSpace ?i = [] |- context [skipWhiteSpace (?i ++ ws)] =>
        rewrite (skipWhiteSpace_trailing ws i Hws), E
    end.

Lemma member_trailing ws v inp m rest :
  blank ws ->
  (forall i val r, v i = Some (val, r) -> v (i ++ ws) = Some (val, r ++ ws)) ->
  member v inp = Some (m, rest) ->
  member v (inp ++ ws) = Some (m, rest ++ ws).
Proof.
  unfold member. intros Hws Hv H.
  parse_cases H.
  white_ahead ws Hws.
  match goal with
  | E : stringCharacters ?i = Some _ |- _ =>
      apply (stringCharacters_trailing ws _ i _ _ (Nat.le_refl _)) in E;
      rewrite E
  end.
  white_ahead ws Hws.
  match goal with
  | E : v ?i = Some _ |- _ => apply Hv in E; rewrite E
  end.
  reflexivity.
Qed.

Lemma elements_trailing ws v :
  blank ws ->
  (forall i val r, v i = Some (val, r) -> v (i ++ ws) = Some (val, r ++ ws)) ->
  forall fuel inp vs rest,
    elements fuel v inp = Some (vs, rest) ->
    elements fuel v (inp ++ ws) = Some (vs, rest ++ ws).
Proof.
  intros Hws Hv. induction fuel as [|fuel IH]; intros inp vs rest H;
    [discriminate|].
  cbn [elements] in H |- *.
  parse_cases H; white_ahead ws Hws;
    repeat match goal with
      | E : v ?i = Some _ |- _ => apply Hv in E; rewrite E
      | E : elements fuel v ?i = Some _ |- _ => apply IH in E; rewrite E
      end;
    reflexivity.
Qed.

Lemma members_trailing ws v :
  blank ws ->
  (forall i val r, v i = Some (val, r) -> v (i ++ ws) = Some (val, r ++ ws)) ->
  forall fuel inp ms rest,
    members fuel v inp = Some (ms, rest) ->
    members fuel v (inp ++ ws) = Some (ms, rest ++ ws).
Proof.
  intros Hws Hv. induction fuel as [|fuel IH]; intros inp ms rest H;
    [discriminate|].
  cbn [members] in H |- *.
  parse_cases H; white_ahead ws Hws;
    repeat match goal with
      | E : member v ?i = Some _ |- _ =>
          apply (member_trailing ws v i _ _ Hws Hv) in E; rewrite E
      | E : members fuel v ?i = Some _ |- _ => apply IH in E; rewrite E
      end;
    reflexivity.
Qed.

Lemma value_nil fuel : value fuel [] = None.
Proof. destruct fuel; reflexivity. Qed.

Ltac value_ahead ws Hws fuel IH :=
  repeat (progress
    (white_ahead ws Hws;
     try match goal with
       | E : literal ?w ?i = Some _ |- _ =>
           apply (literal_trailing ws) in E; cbn [app] in E; rewrite E; clear E
       | E : stringCharacters ?i = Some _ |- _ =>
           apply (stringCharacters_trailing ws _ i _ _ (Nat.le_refl _)) in E;
           rewrite E; clear E
       | E : number ?i = Some _ |- _ =>
           apply (number_trailing ws _ _ _ Hws) in E; cbn [app] in E;
           rewrite E; clear E
       | E : value fuel ?i = Some _ |- _ =>
           apply IH in E; cbn [app] in E; rewrite E; clear E
       | E : elements fuel (value fuel) ?i = Some _ |- _ =>
           apply (elements_trailing ws _ Hws IH) in E; rewrite E; clear E
       | E : member (value fuel) ?i = Some _ |- _ =>
           apply (member_trailing ws _ _ _ _ Hws IH) in E; cbn [app] in E;
           rewrite E; clear E
       | E : members fuel (value fuel) ?i = Some _ |- _ =>
           apply (members_trailing ws _ Hws IH) in E; rewrite E; clear E
       end)).

(** White space after a text that holds a value leaves the value as it is. *)
Lemma value_trailing ws :
  blank ws ->
  forall fuel inp v rest,
    value fuel inp = Some (v, rest) ->
    value fuel (inp ++ ws) = Some (v, rest ++ ws).
Proof.
  intros Hws. induction fuel as [|fuel IH]; intros inp v rest H;
    [discriminate|].
  cbn [value] in H |- *. unfold option_map in H |- *.
  parse_cases H;
    try match goal with
        | E : value _ [] = Some _ |- _ =>
            rewrite value_nil in E; discriminate E
        end;
    white_ahead ws Hws; cbv beta iota;
    value_ahead ws Hws fuel IH;
    reflexivity.
Qed.

Lemma value_leading ws fuel inp :
  blank ws -> value fuel (ws ++ inp) = value fuel inp.
Proof.
  intros Hws. destruct fuel as [|fuel]; [reflexivity|].
  cbn [value]. now rewrite skipWhiteSpace_leading.
Qed.


Lemma number_failing ws inp :
  blank ws -> number inp = None -> number (inp ++ ws) = None.
Proof.
  intros Hws H.
  pose proof (fun i => digits_trailing ws i Hws) as Hd.
  destruct (after_number_blank ws Hws) as [Hfrac Hexp].
  pose proof (digits_blank ws Hws) as Hdb.
  unfold number in H.
  parse_cases H.
  all: unfold number; cbn [app].
  all: repeat (progress (number_equations; rewrite ?Hd; digits_ahead ws Hd;
                         number_equations; cbn [fst snd app];
                         rewrite ?Hfrac, ?Hexp, ?Hdb)).
  all: try reflexivity.
  all: clear Hd Hfrac Hexp Hdb;
    destruct Hws as [|c ws' Hc Hws'];
    [ reflexivity
    | destruct (white_cases c Hc) as [->|[->|[-> | ->]]]; reflexivity ].
Qed.

Lemma stringCharacters_blank ws : blank ws -> stringCharacters ws = None.
Proof.
  induction 1 as [|c ws Hc Hws IH]; [reflexivity|].
  destruct (white_cases c Hc) as [->|[->|[-> | ->]]]; try reflexivity.
  cbn [stringCharacters]. rewrite IH. reflexivity.
Qed.

Lemma hexValue_white c : isWhiteSpace c = true -> hexValue c = None.
Proof.
  intros H. destruct (white_cases c H) as [->|[->|[-> | ->]]]; reflexivity.
Qed.

(** One step of a computation that has run into the white space: the next
    character is taken from it, or it is found to be no hexadecimal digit,
    or it is told apart from the characters the parser looks for. *)
Ltac into_blank :=
  match goal with
  | Hc : isWhiteSpace ?c = true |- context [hexValue ?c] =>
      rewrite (hexValue_white c Hc)
  | |- context [match hexValue ?h with _ => _ end] =>
      is_var h; destruct (hexValue h)
  | Hb : Forall _ ?l |- context [match ?l with _ => _ end] =>
      is_var l;
      let c := fresh "c" in
      let l' := fresh "ws" in
      let Hc := fresh "Hc" in
      let Hb' := fresh "Hb" in
      destruct Hb as [|c l' Hc Hb']
  | Hc : isWhiteSpace ?c = true |- context [match ?c with _ => _ end] =>
      is_var c; destruct (white_cases c Hc) as [->|[->|[-> | ->]]]
  end.

Lemma stringCharacters_failing ws :
  blank ws ->
  forall n inp,
    length inp <= n ->
    stringCharacters inp = None ->
    stringCharacters (inp ++ ws) = None.
Proof.
  intros Hws. pose proof (stringCharacters_blank ws Hws) as Hsb.
  unfold blank in Hws.
  induction n as [|n IH]; intros inp Hn H.
  - destruct inp; [exact Hsb | cbn in Hn; lia].
  - destruct inp as [|c inp]; [exact Hsb|].
    cbn [stringCharacters] in H. cbn [length] in Hn.
    parse_cases H;
      repeat match goal with
        | E : stringCharacters ?i = None |- _ =>
            apply (IH i) in E; [|cbn [length] in *; lia]
        | E : stringCharacters ?i = Some _ |- _ =>
            apply (stringCharacters_trailing ws _ i _ _ (Nat.le_refl _)) in E
        end;
      cbn [app stringCharacters]; string_equations; try reflexivity;
      clear IH Hsb;
      repeat first [ reflexivity | into_blank ].
Qed.

Lemma startsWith_failing ws word :
  blank ws ->
  Forall (fun c => isWhiteSpace c = false) word ->
  forall inp,
    JSString.startsWith inp word = false ->
    JSString.startsWith (inp ++ ws) word = false.
Proof.
  intros Hws Hword. induction Hword as [|p word Hp Hword IH]; intros inp H;
    [discriminate|].
  destruct inp as [|d inp]; cbn [JSString.startsWith app] in *.
  - destruct Hws as [|c ws Hc _]; [reflexivity|].
    cbn [JSString.startsWith].
    destruct (Ascii.eqb_spec p c) as [->|]; [congruence | reflexivity].
  - apply andb_false_iff in H as [H|H]; [now rewrite H|].
    rewrite (IH _ H). apply andb_false_r.
Qed.

Lemma literal_failing ws word inp :
  blank ws ->
  Forall (fun c => isWhiteSpace c = false) (JSString.chars word) ->
  literal word inp = None -> literal word (inp ++ ws) = None.
Proof.
  unfold literal. intros Hws Hword H.
  destruct (JSString.startsWith inp (JSString.chars word)) eqn:E; [discriminate|].
  now rewrite (startsWith_failing ws _ Hws Hword _ E).
Qed.

Ltac strings_ahead ws Hws :=
  match goal with
  | E : stringCharacters ?i = Some _ |- _ =>
      apply (stringCharacters_trailing ws _ i _ _ (Nat.le_refl _)) in E;
      rewrite E; clear E
  | E : stringCharacters ?i = None |- _ =>
      apply (stringCharacters_failing ws Hws _ i (Nat.le_refl _)) in E;
      rewrite E; clear E
  end.

Lemma member_failing ws v inp :
  blank ws ->
  (forall i val r, v i = Some (val, r) -> v (i ++ ws) = Some (val, r ++ ws)) ->
  (forall i, v i = None -> v (i ++ ws) = None) ->
  member v inp = None -> member v (inp ++ ws) = None.
Proof.
  unfold member. intros Hws Hok Hno H.
  parse_cases H; white_ahead ws Hws; try reflexivity;
    try strings_ahead ws Hws; try reflexivity;
    white_ahead ws Hws; try reflexivity;
    match goal with
    | E : v ?i = None |- _ => apply Hno in E; rewrite E
    end;
    reflexivity.
Qed.

Lemma elements_failing ws v :
  blank ws ->
  (forall i val r, v i = Some (val, r) -> v (i ++ ws) = Some (val, r ++ ws)) ->
  (forall i, v i = None -> v (i ++ ws) = None) ->
  forall fuel inp,
    elements fuel v inp = None -> elements fuel v (inp ++ ws) = None.
Proof.
  intros Hws Hok Hno. induction fuel as [|fuel IH]; intros inp H;
    [reflexivity|].
  cbn [elements] in H |- *.
  parse_cases H; white_ahead ws Hws; try reflexivity;
    repeat match goal with
      | E : v ?i = Some _ |- _ => apply Hok in E; rewrite E; clear E
      | E : v ?i = None |- _ => apply Hno in E; rewrite E; clear E
      | E : elements fuel v ?i = None |- _ => apply IH in E; rewrite E; clear E
      end;
    reflexivity.
Qed.

Lemma members_failing ws v :
  blank ws ->
  (forall i val r, v i = Some (val, r) -> v (i ++ ws) = Some (val, r ++ ws)) ->
  (forall i, v i = None -> v (i ++ ws) = None) ->
  forall fuel inp,
    members fuel v inp = None -> members fuel v (inp ++ ws) = None.
Proof.
  intros Hws Hok Hno. induction fuel as [|fuel IH]; intros inp H;
    [reflexivity|].
  cbn [members] in H |- *.
  parse_cases H; white_ahead ws Hws; try reflexivity;
    repeat match goal with
      | E : member v ?i = Some _ |- _ =>
          apply (member_trailing ws v i _ _ Hws Hok) in E; rewrite E; clear E
      | E : member v ?i = None |- _ =>
          apply (member_failing ws v i Hws Hok Hno) in E; rewrite E; clear E
      | E : members fuel v ?i = None |- _ => apply IH in E; rewrite E; clear E
      end;
    reflexivity.
Qed.

Lemma value_failing ws :
  blank ws ->
  forall fuel inp,
    value fuel inp = None -> value fuel (inp ++ ws) = None.
Proof.
  intros Hws. induction fuel as [|fuel IH]; intros inp H; [reflexivity|].
  pose proof (value_trailing ws Hws fuel) as Hok.
  assert (Hnull : Forall (fun c => isWhiteSpace c = false) (JSString.chars "null"))
    by (repeat constructor).
  assert (Htrue : Forall (fun c => isWhiteSpace c = false) (JSString.chars "true"))
    by (repeat constructor).
  assert (Hfalse : Forall (fun c => isWhiteSpace c = false) (JSString.chars "false"))
    by (repeat constructor).
  cbn [value] in H |- *. unfold option_map in H |- *.
  parse_cases H; white_ahead ws Hws; cbv beta iota; try reflexivity;
    repeat (progress
      (white_ahead ws Hws;
       try match goal with
         | E : literal "null" ?i = None |- _ =>
             apply (literal_failing ws _ _ Hws Hnull) in E; cbn [app] in E;
             rewrite E; clear E
         | E : literal "true" ?i = None |- _ =>
             apply (literal_failing ws _ _ Hws Htrue) in E; cbn [app] in E;
             rewrite E; clear E
         | E : literal "false" ?i = None |- _ =>
             apply (literal_failing ws _ _ Hws Hfalse) in E; cbn [app] in E;
             rewrite E; clear E
         | E : stringCharacters ?i = None |- _ =>
             apply (stringCharacters_failing ws Hws _ i (Nat.le_refl _)) in E;
             rewrite E; clear E
         | E : number ?i = None |- _ =>
             apply (number_failing ws _ Hws) in E; cbn [app] in E;
             rewrite E; clear E
         | E : value fuel ?i = Some _ |- _ =>
             apply Hok in E; cbn [app] in E; rewrite E; clear E
         | E : value fuel ?i = None |- _ =>
             apply IH in E; cbn [app] in E; rewrite E; clear E
         | E : elements fuel (value fuel) ?i = None |- _ =>
             apply (elements_failing ws _ Hws Hok IH) in E; rewrite E; clear E
         | E : member (value fuel) ?i = Some _ |- _ =>
             apply (member_trailing ws _ _ _ _ Hws Hok) in E; cbn [app] in E;
             rewrite E; clear E
         | E : member (value fuel) ?i = None |- _ =>
             apply (member_failing ws _ _ Hws Hok IH) in E; cbn [app] in E;
             rewrite E; clear E
         | E : members fuel (value fuel) ?i = None |- _ =>
             apply (members_failing ws _ Hws Hok IH) in E; rewrite E; clear E
         end));
    reflexivity.
Qed.

Lemma parse_surrounded_by_space lead body trail :
  blank (JSString.chars lead) -> blank (JSString.chars trail) ->
  parse (lead ++ body ++ trail)%string = parse body.
Proof.
  intros Hlead Htrail. unfold parse. rewrite !chars_app.
  set (inp := JSString.chars body).
  set (ws1 := JSString.chars lead) in *. set (ws2 := JSString.chars trail) in *.
  rewrite value_leading by assumption.
  rewrite (value_fuel (S (length inp)) (S (length (ws1 ++ inp ++ ws2))) inp)
    by (rewrite ?length_app; lia).
  destruct (value (S (length (ws1 ++ inp ++ ws2))) inp) as [[v rest]|] eqn:Hv.
  - rewrite (value_trailing ws2 Htrail _ _ _ _ Hv).
    rewrite skipWhiteSpace_trailing by assumption.
    destruct (skipWhiteSpace rest); reflexivity.
  - now rewrite (value_failing ws2 Htrail _ _ Hv).
Qed.


(** X10.  JSON white space before and after a body changes neither what the body
    parses to (a value, or the syntax error) nor what the json check finds
    in it. *)
Theorem json_check_ignores_surrounding_space (lead body trail key : string) :
  blank (JSString.chars lead) -> blank (JSString.chars trail) ->
  JSON.parse (lead ++ body ++ trail) = JSON.parse body /\
  jsonFound (lead ++ body ++ trail) key = jsonFound body key.
Proof.
  intros Hlead Htrail.
  pose proof (parse_surrounded_by_space lead body trail Hlead Htrail) as Hs.
  split; [exact Hs|]. unfold jsonFound. now rewrite Hs.
Qed.

Lemma json_check_ignores_surrounding_space_witness :
  jsonFound (" " ++ resultsBody ++ LF) "results" = jsonFound resultsBody "results".
Proof.
  apply (json_check_ignores_surrounding_space " " resultsBody LF "results");
    repeat constructor.
Defined.

End JSONWhiteSpace.

Section LetterCase.

Local Open Scope string_scope.
Local Open Scope list_scope.
Local Open Scope nat_scope.

Lemma in_everyAscii c : In c everyAscii.
Proof.
  unfold everyAscii. apply in_map_iff. exists (nat_of_ascii c).
  split; [apply ascii_nat_embedding|].
  apply in_seq. pose proof (nat_ascii_bounded c). lia.
Qed.

Lemma ciEqual_refl a : RegExp.ciEqual a a = true.
Proof. unfold RegExp.ciEqual. apply N.eqb_refl. Qed.

Lemma ciEqual_sym a b : RegExp.ciEqual a b = RegExp.ciEqual b a.
Proof. unfold RegExp.ciEqual. apply N.eqb_sym. Qed.

Lemma ciEqual_canonical a b :
  RegExp.ciEqual a b = true ->
  RegExp.Canonicalize (JSString.code a) = RegExp.Canonicalize (JSString.code b).
Proof. unfold RegExp.ciEqual. apply N.eqb_eq. Qed.

Lemma ciEqual_trans a b c :
  RegExp.ciEqual a b = true -> RegExp.ciEqual b c = true ->
  RegExp.ciEqual a c = true.
Proof.
  intros H1 H2. apply ciEqual_canonical in H1, H2.
  unfold RegExp.ciEqual. rewrite H1, H2. apply N.eqb_refl.
Qed.

(** Letters that differ in case only are word characters together. *)
Lemma ciEqual_wordChar a b :
  RegExp.ciEqual a b = true ->
  RegExp.isWordChar (JSString.code a) = RegExp.isWordChar (JSString.code b).
Proof.
  assert (Hall : forallb (fun x =>
                   forallb (fun y =>
                     implb (RegExp.ciEqual x y)
                           (Bool.eqb (RegExp.isWordChar (JSString.code x))
                                     (RegExp.isWordChar (JSString.code y))))
                     everyAscii) everyAscii = true)
    by (vm_compute; reflexivity).
  rewrite forallb_forall in Hall. specialize (Hall a (in_everyAscii a)).
  rewrite forallb_forall in Hall. specialize (Hall b (in_everyAscii b)).
  intros H. rewrite H in Hall. cbn in Hall. now apply Bool.eqb_prop.
Qed.

Lemma CharSetMatches_sameCase A a b :
  RegExp.ciEqual a b = true ->
  RegExp.CharSetMatches A a = RegExp.CharSetMatches A b.
Proof.
  intros H. unfold RegExp.CharSetMatches.
  now rewrite (ciEqual_canonical a b H).
Qed.

Lemma sameCase_refl a : sameCase a a.
Proof. induction a; constructor; [apply ciEqual_refl | assumption]. Qed.

Lemma sameCase_length a b : sameCase a b -> length a = length b.
Proof. induction 1; cbn; congruence. Qed.

Lemma sameCase_firstn n a b :
  sameCase a b -> sameCase (firstn n a) (firstn n b).
Proof.
  intros H. revert n.
  induction H as [|x y a b Hxy Hab IH]; intros [|n]; cbn [firstn];
    try constructor; [assumption | apply IH].
Qed.

Lemma ciPrefix_sameCase s s' :
  sameCase s s' ->
  forall inp inp', sameCase inp inp' ->
                   RegExp.ciPrefix s inp = RegExp.ciPrefix s' inp'.
Proof.
  induction 1 as [|a a' s s' Ha Hs IH]; intros inp inp' Hinp; [reflexivity|].
  destruct Hinp as [|b b' inp inp' Hb Hinp]; [reflexivity|].
  cbn [RegExp.ciPrefix]. rewrite (IH _ _ Hinp). f_equal.
  apply eq_true_iff_eq. split; intros H.
  - apply ciEqual_trans with b; [|assumption].
    apply ciEqual_trans with a; [now rewrite ciEqual_sym | assumption].
  - apply ciEqual_trans with b'; [|now rewrite ciEqual_sym].
    apply ciEqual_trans with a'; assumption.
Qed.

Lemma getCapture_same caps caps' n :
  Forall2 (fun c d => fst c = fst d /\ sameCase (snd c) (snd d)) caps caps' ->
  match RegExp.getCapture caps n, RegExp.getCapture caps' n with
  | Some s, Some s' => sameCase s s'
  | None, None => True
  | _, _ => False
  end.
Proof.
  induction 1 as [|[k s] [k' s'] caps caps' [Hk Hs] Hcaps IH]; [exact I|].
  cbn [RegExp.getCapture]. cbn [fst snd] in Hk, Hs. subst k'.
  destruct (Nat.eqb k n); assumption.
Qed.

Lemma clearCaptures_same ns caps caps' :
  Forall2 (fun c d => fst c = fst d /\ sameCase (snd c) (snd d)) caps caps' ->
  Forall2 (fun c d => fst c = fst d /\ sameCase (snd c) (snd d))
          (RegExp.clearCaptures ns caps) (RegExp.clearCaptures ns caps').
Proof.
  unfold RegExp.clearCaptures.
  induction 1 as [|c d caps caps' [Hk Hs] Hcaps IH]; [constructor|].
  cbn [filter]. rewrite Hk.
  destruct (negb (existsb (Nat.eqb (fst d)) ns)); [constructor|]; auto.
Qed.

Lemma advance_same x y :
  SameState x y ->
  match RegExp.advance x, RegExp.advance y with
  | Some (c, x'), Some (d, y') => RegExp.ciEqual c d = true /\ SameState x' y'
  | None, None => True
  | _, _ => False
  end.
Proof.
  intros (Hi & Hp & Hr & Hc). unfold RegExp.advance.
  destruct Hr as [|c d r r' Hcd Hr]; [exact I|].
  split; [assumption|]. unfold SameState. cbn. auto.
Qed.

Lemma advanceBy_same n :
  forall x y,
    SameState x y ->
    match RegExp.advanceBy n x, RegExp.advanceBy n y with
    | Some x', Some y' => SameState x' y'
    | None, None => True
    | _, _ => False
    end.
Proof.
  induction n as [|n IH]; intros x y H; cbn [RegExp.advanceBy]; [assumption|].
  pose proof (advance_same x y H) as Ha.
  destruct (RegExp.advance x) as [[c x']|], (RegExp.advance y) as [[d y']|];
    try contradiction; [|exact I].
  apply IH, Ha.
Qed.

Lemma Forall2_flat_map {A B} (R : A -> A -> Prop) (S : B -> B -> Prop)
      (f g : A -> list B) l l' :
  Forall2 R l l' ->
  (forall a b, R a b -> Forall2 S (f a) (g b)) ->
  Forall2 S (flat_map f l) (flat_map g l').
Proof.
  intros H Hfg. induction H; cbn [flat_map]; [constructor|].
  apply Forall2_app; auto.
Qed.

Lemma RepeatMatcher_same m m' parens greedy :
  (forall x y, SameState x y -> Forall2 SameState (m x) (m' y)) ->
  forall fuel min max x y,
    SameState x y ->
    Forall2 SameState
      (RegExp.RepeatMatcher m parens fuel min max greedy x)
      (RegExp.RepeatMatcher m' parens fuel min max greedy y).
Proof.
  intros Hm. induction fuel as [|fuel IH]; intros min max x y Hxy;
    cbn [RegExp.RepeatMatcher]; [constructor|].
  assert (Hone : Forall2 SameState [x] [y]) by (constructor; [assumption|constructor]).
  assert (Hiter :
    Forall2 SameState
      (flat_map
         (fun y0 =>
            if Nat.eqb min 0 && Nat.eqb (RegExp.endIndex y0) (RegExp.endIndex x)
            then []
            else RegExp.RepeatMatcher m parens fuel (pred min) (RegExp.decr max) greedy y0)
         (m (RegExp.withCaptures x (RegExp.clearCaptures parens (RegExp.captures x)))))
      (flat_map
         (fun y0 =>
            if Nat.eqb min 0 && Nat.eqb (RegExp.endIndex y0) (RegExp.endIndex y)
            then []
            else RegExp.RepeatMatcher m' parens fuel (pred min) (RegExp.decr max) greedy y0)
         (m' (RegExp.withCaptures y (RegExp.clearCaptures parens (RegExp.captures y)))))).
  { apply Forall2_flat_map with (R := SameState).
    - apply Hm. destruct Hxy as (Hi & Hp & Hr & Hc).
      unfold SameState, RegExp.withCaptures. cbn.
      repeat split; try assumption. now apply clearCaptures_same.
    - intros a b Hab.
      destruct Hxy as (Hi & _). destruct Hab as (Hi' & Hab).
      rewrite Hi, Hi'.
      destruct (Nat.eqb min 0 && Nat.eqb (RegExp.endIndex b) (RegExp.endIndex y));
        [constructor|].
      apply IH. split; assumption. }
  destruct max as [[|k]|]; try assumption;
    (destruct (negb (Nat.eqb min 0)); [assumption|];
     destruct greedy; [apply Forall2_app; assumption | constructor; assumption]).
Qed.

(** The matcher does not see the case of the letters of its input: on two
    inputs that differ in case only, it ends in corresponding states. *)
Ltac same_states :=
  first [ assumption
        | apply Forall2_nil
        | apply Forall2_cons; [|apply Forall2_nil]; try assumption ].

Lemma run_same r :
  forall x y, SameState x y -> Forall2 SameState (RegExp.run r x) (RegExp.run r y).
Proof.
  induction r as [|A invert|a IHa b IHb|a IHa b IHb|a IHa min max greedy
                  |n a IHa|n| | |negated|negated a IHa];
    intros x y Hxy; cbn [RegExp.run].
  - constructor; [assumption|constructor].
  - pose proof (advance_same x y Hxy) as Ha.
    destruct (RegExp.advance x) as [[c x']|], (RegExp.advance y) as [[d y']|];
      try contradiction; [|constructor].
    destruct Ha as [Hcd Hxy']. rewrite (CharSetMatches_sameCase A c d Hcd).
    destruct (xorb (RegExp.CharSetMatches A d) invert); same_states.
  - apply Forall2_flat_map with (R := SameState); auto.
  - apply Forall2_app; auto.
  - destruct Hxy as (Hi & Hp & Hr & Hc).
    rewrite (sameCase_length _ _ Hr).
    apply RepeatMatcher_same; [assumption|]. repeat split; assumption.
  - specialize (IHa x y Hxy). destruct Hxy as (Hi & Hp & Hr & Hc).
    induction IHa as [|x' y' l l' Hxy' Hl IH]; cbn [map]; constructor;
      [|assumption].
    destruct Hxy' as (Hi' & Hp' & Hr' & Hc').
    unfold SameState, RegExp.withCaptures, RegExp.setCapture. cbn.
    repeat split; try assumption.
    constructor.
    + cbn. split; [reflexivity|]. rewrite Hi, Hi'. now apply sameCase_firstn.
    + now apply clearCaptures_same.
  - pose proof Hxy as (Hi & Hp & Hr & Hc).
    pose proof (getCapture_same _ _ n Hc) as Hg.
    destruct (RegExp.getCapture (RegExp.captures x) n) as [s|],
             (RegExp.getCapture (RegExp.captures y) n) as [s'|];
      try contradiction; [|same_states].
    rewrite (ciPrefix_sameCase s s' Hg _ _ Hr), (sameCase_length _ _ Hg).
    destruct (RegExp.ciPrefix s' (RegExp.remaining y)); [|constructor].
    pose proof (advanceBy_same (length s') x y Hxy) as Ha.
    destruct (RegExp.advanceBy (length s') x), (RegExp.advanceBy (length s') y);
      try contradiction; same_states.
  - destruct Hxy as (Hi & Hp & Hr & Hc). rewrite Hi.
    destruct (Nat.eqb (RegExp.endIndex y) 0); same_states;
      repeat split; assumption.
  - pose proof Hxy as (Hi & Hp & Hr & Hc).
    destruct Hr; same_states.
  - pose proof Hxy as (Hi & Hp & Hr & Hc).
    assert (Hprev : RegExp.isWordCharAt (RegExp.previous x)
                    = RegExp.isWordCharAt (RegExp.previous y)).
    { destruct (RegExp.previous x), (RegExp.previous y); try contradiction;
        [now apply ciEqual_wordChar | reflexivity]. }
    assert (Hnext : RegExp.isWordCharAt (hd_error (RegExp.remaining x))
                    = RegExp.isWordCharAt (hd_error (RegExp.remaining y))).
    { destruct Hr; [reflexivity | now apply ciEqual_wordChar]. }
    rewrite Hprev, Hnext.
    destruct (xorb (xorb _ _) negated); same_states.
  - specialize (IHa x y Hxy). destruct Hxy as (Hi & Hp & Hr & Hc).
    destruct IHa as [|x' y' l l' Hxy' _]; destruct negated; same_states;
      try (repeat split; assumption).
    unfold SameState, RegExp.withCaptures. cbn.
    repeat split; try assumption. apply Hxy'.
Qed.

Lemma search_same r :
  forall input input' i p q,
    sameCase input input' -> sameCaseBefore p q ->
    match RegExp.search r i p input, RegExp.search r i q input' with
    | Some (j, x), Some (k, y) => j = k /\ SameState x y
    | None, None => True
    | _, _ => False
    end.
Proof.
  intros input input' i p q H. revert i p q.
  induction H as [|c d input input' Hcd H IH]; intros i p q Hpq;
    cbn [RegExp.search].
  - assert (Hs : SameState (RegExp.mkState i p [] []) (RegExp.mkState i q [] []))
      by (unfold SameState; cbn; repeat split; try assumption; constructor).
    destruct (run_same r _ _ Hs); [exact I | now split].
  - assert (Hs : SameState (RegExp.mkState i p (c :: input) [])
                           (RegExp.mkState i q (d :: input') []))
      by (unfold SameState; cbn; repeat split; try assumption;
          constructor; assumption).
    destruct (run_same r _ _ Hs); [|now split].
    apply IH. exact Hcd.
Qed.

Lemma test_same r html html' :
  sameLetters html html' -> RegExp.test r html = RegExp.test r html'.
Proof.
  intros H. unfold RegExp.test, RegExp.exec.
  pose proof (search_same r _ _ 0 None None H I) as Hs.
  destruct (RegExp.search r 0 None (JSString.chars html)) as [[j x]|],
           (RegExp.search r 0 None (JSString.chars html')) as [[k y]|];
    try contradiction; reflexivity.
Qed.

(** X11.  The element check does not see the case of the letters of the body:
    whatever the token, two bodies that differ in case only give the same
    result, or the same error. *)
Theorem element_check_ignores_case_of_body (html html' token : string) :
  sameLetters html html' ->
  elementFound html token = elementFound html' token.
Proof.
  intros H. unfold elementFound.
  destruct (newRegExp (classPattern token)) as [classRegex|]; [|reflexivity].
  destruct (newRegExp (idPattern token)) as [idRegex|]; [|reflexivity].
  destruct (newRegExp (tagPattern token)) as [tagRegex|]; [|reflexivity].
  now rewrite !(test_same _ html html' H).
Qed.

Lemma element_check_ignores_case_of_body_witness :
  elementFound "<HTML><BODY><H1 Class=Big>" "h1"
  = elementFound "<html><body><h1 class=big>" "h1".
Proof.
  apply element_check_ignores_case_of_body.
  unfold sameLetters. cbn. repeat constructor.
Defined.

End LetterCase.

Section PlainTokens.

Local Open Scope list_scope.
Local Open Scope nat_scope.
Local Open Scope string_scope.

(** ** The case of a plain token *)

Lemma sameCase_plain a b :
  sameCase a b ->
  forallb (fun c => negb (isSyntaxCharacter c)) a = true ->
  forallb (fun c => negb (isSyntaxCharacter c)) b = true.
Proof.
  assert (Hall : forallb (fun x =>
                   forallb (fun y =>
                     implb (RegExp.ciEqual x y)
                           (Bool.eqb (isSyntaxCharacter x) (isSyntaxCharacter y)))
                     everyAscii) everyAscii = true)
    by (vm_compute; reflexivity).
  induction 1 as [|x y a b Hxy Hab IH]; [reflexivity|].
  cbn [forallb]. rewrite !andb_true_iff. intros [Hx Ha].
  split; [|now apply IH].
  rewrite forallb_forall in Hall. specialize (Hall x (in_everyAscii x)).
  rewrite forallb_forall in Hall. specialize (Hall y (in_everyAscii y)).
  rewrite Hxy in Hall. cbn [implb] in Hall. apply Bool.eqb_prop in Hall.
  now rewrite <- Hall.
Qed.

Lemma Spans_lits_sameCase t t' w :
  sameLetters t t' ->
  Template.Spans (Template.lits t) w <-> Template.Spans (Template.lits t') w.
Proof.
  unfold sameLetters. rewrite !Spans_lits.
  generalize (JSString.chars t) as a, (JSString.chars t') as b.
  intros a b Hab. revert w.
  induction Hab as [|x y a b Hxy Hab IH]; intros w; [reflexivity|].
  split; intros H; inversion H as [|u v l l' Huv Hl]; subst; constructor;
    try (now apply IH).
  - apply ciEqual_trans with x; [now rewrite ciEqual_sym | assumption].
  - apply ciEqual_trans with y; assumption.
Qed.

Lemma Spans_around pre a a' post w :
  (forall u, Template.Spans a u <-> Template.Spans a' u) ->
  Template.Spans (pre ++ a ++ post) w <-> Template.Spans (pre ++ a' ++ post) w.
Proof.
  intros Ha. rewrite !Spans_app. split.
  - intros (w1 & w2 & -> & H1 & H2). apply Spans_app in H2 as (u & v & -> & Hu & Hv).
    exists w1, (u ++ v)%list. repeat split; try assumption.
    apply Spans_app. exists u, v. repeat split; [now apply Ha | assumption].
  - intros (w1 & w2 & -> & H1 & H2). apply Spans_app in H2 as (u & v & -> & Hu & Hv).
    exists w1, (u ++ v)%list. repeat split; try assumption.
    apply Spans_app. exists u, v. repeat split; [now apply Ha | assumption].
Qed.

Lemma test_build_Spans items items' html :
  (forall w, Template.Spans items w <-> Template.Spans items' w) ->
  RegExp.test (Template.build items RegExp.Empty) html
  = RegExp.test (Template.build items' RegExp.Empty) html.
Proof.
  intros H. apply eq_true_iff_eq. rewrite !test_build.
  split; intros (pre & w & suf & Hh & Hs); exists pre, w, suf;
    (split; [assumption | now apply H]).
Qed.

(** X12.  The element check does not see the case of the letters of a token
    either, when the token has no character of the pattern grammar. *)
Theorem element_check_ignores_case_of_plain_token (html token token' : string) :
  plainToken token = true -> sameLetters token token' ->
  elementFound html token = elementFound html token'.
Proof.
  intros Hplain Hsame.
  assert (Hplain' : plainToken token' = true)
    by (unfold plainToken in *; eapply sameCase_plain; eassumption).
  unfold elementFound.
  rewrite !classPattern_compiles, !idPattern_compiles, !tagPattern_compiles
    by assumption.
  pose proof (Spans_lits_sameCase token token') as Hl.
  f_equal. f_equal; [f_equal|]; apply test_build_Spans; intros w.
  - unfold Template.classItems.
    rewrite !(app_assoc (Template.lits "<")), !(app_assoc (_ ++ [Template.Skip ">"])),
            !(app_assoc (_ ++ Template.lits ("class=" ++ DQ))).
    apply Spans_around. intros u. now apply Hl.
  - unfold Template.idItems.
    rewrite !(app_assoc (Template.lits "<")), !(app_assoc (_ ++ [Template.Skip ">"])).
    apply Spans_around. intros u. now apply Hl.
  - unfold Template.tagItems. apply Spans_around. intros u. now apply Hl.
Qed.

Lemma element_check_ignores_case_of_plain_token_witness :
  elementFound "<html><body><h1>" "H1" = elementFound "<html><body><h1>" "h1".
Proof.
  apply (element_check_ignores_case_of_plain_token "<html><body><h1>" "H1" "h1").
  - reflexivity.
  - unfold sameLetters. cbn. repeat constructor.
Defined.

Lemma test_build_embedded items html before after :
  RegExp.test (Template.build items RegExp.Empty) html = true ->
  RegExp.test (Template.build items RegExp.Empty) (before ++ html ++ after) = true.
Proof.
  rewrite !test_build. intros (pre & w & suf & Hhtml & Hspans).
  exists (JSString.chars before ++ pre)%list, w, (suf ++ JSString.chars after)%list.
  split; [|assumption].
  rewrite !chars_app, Hhtml. now rewrite <- !app_assoc.
Qed.

(** X13.  The content check and the element check are searches: what they find
    in a text they find in every body that contains the text.  (For the
    element check the token is one without characters of the pattern
    grammar.)  The title check is not: it reads the first title only, so a
    title put in front hides the one that was found. *)
Theorem found_in_a_part_is_found_in_the_whole
        (html before after value : string) :
  (contentFound html value = true ->
   contentFound (before ++ html ++ after) value = true) /\
  (plainToken value = true ->
   elementFound html value = Normal true ->
   elementFound (before ++ html ++ after) value = Normal true) /\
  (titleFound "<title>a</title>" "a" = Normal true /\
   titleFound ("<title>b</title>" ++ "<title>a</title>") "a" = Normal false).
Proof.
  split; [|split].
  - unfold contentFound. rewrite !includes_true.
    intros (l & r & ->). exists (before ++ l), (r ++ after).
    apply chars_inj. rewrite !chars_app. now rewrite <- !app_assoc.
  - intros Hplain. unfold elementFound.
    rewrite classPattern_compiles, idPattern_compiles, tagPattern_compiles
      by assumption.
    intros H. f_equal.
    apply (f_equal (fun c => match c with Normal b => b | Throw _ => false end))
      in H.
    cbv beta iota in H.
    apply orb_true_iff in H as [H|H].
    + apply orb_true_iff in H as [H|H].
      * now rewrite (test_build_embedded _ _ before after H).
      * rewrite (test_build_embedded _ _ before after H).
        now rewrite orb_true_r.
    + rewrite (test_build_embedded _ _ before after H).
      now rewrite orb_true_r.
  - split; vm_compute; reflexivity.
Qed.

Lemma found_in_a_part_is_found_in_the_whole_witness :
  elementFound ("<html><body>" ++ "<div class=stats-grid>" ++ "</body></html>")
               "div" = Normal true.
Proof.
  apply (found_in_a_part_is_found_in_the_whole
           "<div class=stats-grid>" "<html><body>" "</body></html>" "div");
    reflexivity.
Defined.

(** ** Element tokens with an unclosed parenthesis *)

Lemma render_ahead_of items tail :
  Forall goodItem items ->
  RegExp.quantifier tail = RegExp.Ok (None, tail) ->
  RegExp.lazySuffix tail = (true, tail) ->
  RegExp.quantifier (Template.render items ++ tail)%list
  = RegExp.Ok (None, (Template.render items ++ tail)%list) /\
  RegExp.lazySuffix (Template.render items ++ tail)%list
  = (true, (Template.render items ++ tail)%list).
Proof.
  intros H Hq Hl. destruct H as [|it items Hit _]; [now split|].
  destruct it as [c|c]; cbn [Template.render flat_map Template.textOf app].
  - now apply quantifier_plain.
  - now split.
Qed.

(** A syntax error after a prefix of plain text and skipped classes is the
    syntax error of the pattern. *)
Lemma disjunction_prefix items tail ncap reason :
  Forall goodItem items ->
  RegExp.quantifier tail = RegExp.Ok (None, tail) ->
  RegExp.lazySuffix tail = (true, tail) ->
  forall fuel gi,
    (forall g, RegExp.disjunction fuel ncap tail g = RegExp.SyntaxError reason) ->
    RegExp.disjunction (length items + fuel) ncap
                       (Template.render items ++ tail)%list gi
    = RegExp.SyntaxError reason.
Proof.
  intros Hgood Hq Hl fuel.
  induction Hgood as [|it items Hit Hitems IH]; intros gi Htail; [apply Htail|].
  destruct (render_ahead_of items tail Hitems Hq Hl) as [Hq' Hl'].
  change (Template.render (it :: items))
    with (Template.textOf it ++ Template.render items)%list.
  rewrite <- app_assoc. cbn [length Nat.add].
  destruct it as [c|c]; cbn [Template.textOf app].
  - rewrite disjunction_plain by assumption. now rewrite IH.
  - rewrite disjunction_skip by assumption. now rewrite IH.
Qed.

Lemma unterminated_group items ncap :
  Forall goodItem items ->
  forall fuel gi,
    length (Template.render items) < fuel ->
    RegExp.disjunction (S fuel) ncap ("("%char :: Template.render items) gi
    = RegExp.SyntaxError "Unterminated group".
Proof.
  intros Hgood fuel gi Hlen.
  pose proof (disjunction_render items Hgood fuel ncap (S gi) Hlen) as Hbody.
  cbn [RegExp.disjunction RegExp.term].
  destruct Hgood as [|it items Hit Hitems].
  - cbn [Template.render flat_map] in *. unfold RegExp.groupBody.
    rewrite Hbody. reflexivity.
  - change (Template.render (it :: items))
      with (Template.textOf it ++ Template.render items)%list in *.
    destruct it as [c|c]; cbn [Template.textOf app] in *.
    + cbn in Hit.
      destruct c as [[] [] [] [] [] [] [] []]; try discriminate Hit;
        unfold RegExp.groupBody; rewrite Hbody; reflexivity.
    + unfold RegExp.groupBody. rewrite Hbody. reflexivity.
Qed.

(** X14.  An element token with one opening parenthesis and otherwise free of
    characters of the pattern grammar makes the element check throw, for
    every body: the first of the three patterns has a group that is not
    closed. *)
Theorem element_check_throws_on_unclosed_group (html p q : string) :
  plainToken p = true -> plainToken q = true ->
  elementFound html (p ++ "(" ++ q) =
  Throw (mkError "SyntaxError"
           ("Invalid regular expression: /" ++ classPattern (p ++ "(" ++ q)
            ++ "/i: Unterminated group")).
Proof.
  intros Hp Hq. unfold elementFound, newRegExp.
  set (token := p ++ "(" ++ q).
  set (before := (Template.lits "<" ++ [Template.Skip ">"]
                  ++ Template.lits ("class=" ++ DQ) ++ [Template.Skip "034"]
                  ++ Template.lits p)%list).
  set (inside := (Template.lits q ++ [Template.Skip "034"]
                  ++ Template.lits DQ)%list).
  assert (Hchars : JSString.chars (classPattern token)
                   = (Template.render before
                      ++ "("%char :: Template.render inside)%list).
  { unfold classPattern, token, before, inside.
    rewrite ?render_app, ?render_lits, ?chars_app.
    cbn [Template.render flat_map Template.textOf app JSString.chars
         list_ascii_of_string DQ].
    repeat rewrite <- app_assoc. reflexivity. }
  assert (Hbefore : Forall goodItem before) by (unfold before; good).
  assert (Hinside : Forall goodItem inside) by (unfold inside; good).
  assert (Hcompile : RegExp.compile (classPattern token)
                     = RegExp.SyntaxError "Unterminated group").
  { unfold RegExp.compile. rewrite Hchars.
    set (inp := (Template.render before ++ "("%char :: Template.render inside)%list).
    set (ncap := RegExp.countCaptures false inp).
    destruct (disjunction_fuel ncap (S (length inp))) as [_ Hfuel].
    rewrite (Hfuel (length before + S (S (length inp))) inp 0) by lia.
    unfold inp at 2.
    rewrite (disjunction_prefix before _ ncap "Unterminated group");
      try reflexivity; try assumption.
    intros g. apply unterminated_group; [assumption|].
    unfold inp. rewrite length_app. cbn [length]. lia. }
  rewrite Hcompile. reflexivity.
Qed.

Lemma element_check_throws_on_unclosed_group_witness :
  exists e, elementFound "<html>" "stats(grid" = Throw e /\ kind e = "SyntaxError".
Proof.
  eexists. split.
  - apply (element_check_throws_on_unclosed_group "<html>" "stats" "grid");
      reflexivity.
  - reflexivity.
Defined.

End PlainTokens.

Section Rates.

Local Open Scope Z_scope.

(** What line 160 rounds is within half a unit of the exact rate, tie or
    no tie. *)
Lemma rounded_close passed total :
  (1 <= total)%nat -> Z.of_nat total <= 2 ^ 44 -> (passed <= total)%nat ->
  exists q,
    rounded passed total = Number.Int q /\
    0 <= q <= 100 /\
    - Z.of_nat total <= 2 * (q * Z.of_nat total - 100 * Z.of_nat passed)
    <= Z.of_nat total.
Proof.
  intros Htotal Hbound Hpassed. unfold rounded.
  destruct (ofNat_value total ltac:(lia)) as (Mn & en & -> & HMn & Hen & Hvn).
  destruct (ofNat_value 100 ltac:(cbn; lia)) as (Mc & ec & -> & HMc & Hec & Hvc).
  destruct passed as [|passed'].
  { exists 0. cbn. split; [reflexivity|]. lia. }
  set (passed := S passed') in *.
  destruct (ofNat_value passed ltac:(lia)) as (Mp & ep & -> & HMp & Hep & Hvp).
  destruct (div_value Mp ep Mn en HMp HMn ltac:(lia))
    as (Md & ed & -> & HMd & Hed & Hvd).
  destruct (mul_value Md ed Mc ec HMd HMc ltac:(lia))
    as (Mr & er & -> & HMr & Hvr).
  destruct (round_value Mr er) as (q & -> & Hq).
  exists q. split; [reflexivity|].
  cbv zeta in Hvd, Hvr.
  rewrite Hvp, Hvn in Hvd. rewrite Hvc in Hvr.
  assert (HMd' : (0 < IZR (Z.pos Md) * pow2 ed)%R).
  { apply Rmult_lt_0_compat; [apply IZR_lt; lia | apply pow2_pos]. }
  assert (HMr' : (0 < IZR (Z.pos Mr) * pow2 er)%R).
  { apply Rmult_lt_0_compat; [apply IZR_lt; lia | apply pow2_pos]. }
  set (vd := (IZR (Z.pos Md) * pow2 ed)%R) in *.
  set (vr := (IZR (Z.pos Mr) * pow2 er)%R) in *. clearbody vd vr.
  pose proof (IZR_le _ _ Hbound) as Hbound'.
  change (IZR (2 ^ 44)) with 17592186044416%R in Hbound'.
  assert (Hp : (1 <= IZR (Z.of_nat passed))%R) by (apply IZR_le; lia).
  assert (Hpn : (IZR (Z.of_nat passed) <= IZR (Z.of_nat total))%R)
    by (apply IZR_le; lia).
  change (IZR (Z.of_nat 100)) with 100%R in Hvr.
  set (P := Z.of_nat passed) in *. set (N := Z.of_nat total) in *.
  assert (HN : 1 <= N) by (unfold N; lia).
  assert (HP : 1 <= P <= N) by (unfold P, N, passed; lia).
  clearbody P N.
  set (p := IZR P) in *. set (n := IZR N) in *.
  assert (Hn : (0 < n)%R) by lra.
  assert (Hx : (- (n * vd / 9007199254740992) <= n * vd - p
                <= n * vd / 9007199254740992)%R).
  { replace p with (n * (p / n))%R by (field; lra).
    destruct Hvd as [H1 H2]. split.
    - apply (Rmult_le_compat_l n) in H1; lra.
    - apply (Rmult_le_compat_l n) in H2; lra. }
  assert (Hy : (- (n * vr / 9007199254740992) <= n * vr - n * vd * 100
                <= n * vr / 9007199254740992)%R).
  { destruct Hvr as [H1 H2]. split.
    - apply (Rmult_le_compat_l n) in H1; lra.
    - apply (Rmult_le_compat_l n) in H2; lra. }
  assert (Hnear : (- / 2 < n * vr - 100 * p < / 2)%R) by lra.
  assert (Hnq : (n * IZR q <= n * vr + n / 2 < n * IZR q + n)%R).
  { destruct Hq as [H1 H2]. split.
    - apply (Rmult_le_compat_l n) in H1; lra.
    - apply (Rmult_lt_compat_l n) in H2; lra. }
  assert (Hlo : 2 * (q * N) - N < 200 * P + 1).
  { apply lt_IZR. rewrite !plus_IZR, !minus_IZR, !mult_IZR.
    fold n p. lra. }
  assert (Hhi : 200 * P - 1 < 2 * (q * N) + N).
  { apply lt_IZR. rewrite !plus_IZR, !minus_IZR, !mult_IZR.
    fold n p. lra. }
  split; [|lia].
  split; nia.
Qed.

End Rates.

(** X15.  The rate printed is always an integer from 0 to 100 that is nearest to
    the exact rate: for a run of at least one and at most [2^44] test cases
    it differs from [100 * passed / total] by at most one half, ties
    included. *)
Theorem success_rate_is_within_half_a_percent (tests : list TestCase) (w : World) :
  let total := length tests in
  let passed := fst (runEach tests 0 (snd (console_log startingLine w))) in
  1 <= total -> (Z.of_nat total <= 2 ^ 44)%Z ->
  exists rate : nat,
    rate <= 100 /\
    2 * (rate * total - 100 * passed) <= total /\
    2 * (100 * passed - rate * total) <= total /\
    In ("   Success Rate: " ++ JSString.ofNat rate ++ "%")
       (console (snd (runAllTests tests w))).
Proof.
  cbv zeta. intros Htotal Hbound.
  pose proof (runEach_passed tests 0 (snd (console_log startingLine w))) as Hle.
  cbn [Nat.add] in Hle.
  destruct (rounded_close _ _ Htotal Hbound Hle) as (q & Hq & Hrange & Hnear).
  exists (Z.to_nat q). split; [lia|]. split; [lia|]. split; [lia|].
  pose proof (runAllTests_prints_rate tests w) as Hin.
  unfold successRate in Hin.
  fold (rounded (fst (runEach tests 0 (snd (console_log startingLine w))))
                (length tests)) in Hin.
  rewrite Hq in Hin. cbn [Number.toString] in Hin.
  now rewrite (proj2 (Z.ltb_ge _ _) (proj1 Hrange)) in Hin.
Qed.

Lemma success_rate_is_within_half_a_percent_witness :
  exists rate : nat,
    rate <= 100 /\
    In ("   Success Rate: " ++ JSString.ofNat rate ++ "%")
       (console (snd (runAllTests fortyTests (start twentyThreeAnswers)))).
Proof.
  destruct (success_rate_is_within_half_a_percent fortyTests
              (start twentyThreeAnswers)) as (rate & H100 & _ & _ & Hin).
  - cbn. lia.
  - cbn. lia.
  - exists rate. split; assumption.
Defined.
